(** * The track package of train: chunk files and tracks

    A shallow embedding of [train/track/file_storage.go] (the chunk: a
    file with a memory-mapped table of offsets followed by the payloads)
    and of the latest draft of [train/track/storage.go] (the track: a
    sequence of chunks, one writer task, readers), with the properties
    of the specification stated over them.

    Conventions.
    - Go's [uint64] and [int] values are integers of [Z]; every
      operation that can wrap is written with [wrap64] or [to_int64].
    - A file is the list of its bytes; the disk maps a path to a file.
    - The mapped header shares its bytes with the file (the mapping is
      shared and the page cache coherent), so a store through [index]
      is a store into the file and [Flush] changes nothing one can see.
    - The mapping is as long as the header, whatever the length of the
      file.  An access to a word of it whose page starts at or past
      the end of the file faults, which ends the process: the outcome
      is [Panic].  In the page that holds the end of the file, a word
      past the end reads as zero and a store to it is kept as if the
      file were that long (the system keeps it in the page and does
      not write it to the file); the statements of Parts III and IV
      are about chunks whose header is accessed inside the file
      ([header_in_file], [track_headers_in_file], [chunk_live]).
    - A run-time panic ([utils.Check] on an error, an index out of
      range, a nil dereference) is the outcome [Panic]; an [error]
      value handed back to the caller is data. *)

From Stdlib Require Import ZArith Lia.
From Stdlib.Strings Require Import Byte.
From stdpp Require Import gmap strings list pretty.

Local Open Scope Z_scope.

(** * Part I: the model *)

(** ** Machine integers *)

Module GoInt.

Definition two64 : Z := 2 ^ 64.
Definition MaxInt64 : Z := 2 ^ 63 - 1.

(** Arithmetic on [uint64], and the conversion [uint64(x)]. *)
Definition wrap64 (z : Z) : Z := z mod two64.

(** The conversions [int(x)] and [int64(x)] (an [int] has 64 bits). *)
Definition to_int64 (z : Z) : Z :=
  if decide (wrap64 z <= MaxInt64) then wrap64 z else wrap64 z - two64.

End GoInt.
Export GoInt.

(** ** Bytes and little-endian words

    [mmapToIndex] casts the mapped bytes to a slice of [uint64]: word
    [i] is made of the bytes [8i .. 8i+7], lowest first (the host's
    order on the machines the package runs on). *)

Module Bytes.

Definition Z_of_byte (b : byte) : Z := Z.of_N (Byte.to_N b).

Definition byte_of_Z (z : Z) : byte :=
  default x00 (Byte.of_N (Z.to_N (z mod 256))).

(** [le_encode n w]: the [n] low bytes of [w], lowest first. *)
Fixpoint le_encode (n : nat) (w : Z) : list byte :=
  match n with
  | O => []
  | S n' => byte_of_Z w :: le_encode n' (w / 256)
  end.

Fixpoint le_decode (bs : list byte) : Z :=
  match bs with
  | [] => 0
  | b :: r => Z_of_byte b + 256 * le_decode r
  end.

End Bytes.
Export Bytes.

(** ** Outcomes and errors *)

Module Go.

(** A call either returns or panics (the process stops there). *)
Inductive outcome (A : Type) : Type :=
| Ret (a : A)
| Panic.
Arguments Ret {A} a.
Arguments Panic {A}.

Definition bind {A B} (m : outcome A) (k : A -> outcome B) : outcome B :=
  match m with
  | Ret a => k a
  | Panic => Panic
  end.

(** The [error] values of the package, one constructor for each place
    that makes one; [nil] is [None] of [option error]. *)
Inductive error : Type :=
| ErrOutOfOrder (expected got : Z)   (* "Out of order message. Expected %d but got %d" *)
| ErrOutOfBounds (index capacity : Z) (* "Index %d out of bounds [0, %d]" *)
| ErrExceedsSize (index size : Z)    (* "Index %d exceeds available size of %d" *)
| ErrDoesNotFit (size : Z)           (* "Message, of size %d, does not fit into available buffer" *)
| ErrOffset (offset : Z)             (* "Offset out of bounds: %d" *)
| ErrTrackClosed                     (* "Track is closed, could not write message" *)
| ErrEOF                             (* errors.New("EOF"), io.EOF *)
| ErrNotExist                        (* os: the file does not exist *)
| ErrInvalid                         (* os: invalid argument, e.g. a negative offset *)
| ErrFileClosed.                     (* os: use of a closed file *)

Definition returns {A} (m : outcome A) : bool :=
  match m with
  | Ret _ => true
  | Panic => false
  end.

End Go.
Export Go.

(** The binding notation [x ← m; k] is that of stdpp's monads. *)
#[global] Instance outcome_ret : MRet outcome := fun A a => Ret a.
#[global] Instance outcome_bind : MBind outcome := fun A B k m => bind m k.

(** ** Files *)

Module OS.

(** [os.Getpagesize()] and [os.TempDir()]. *)
Definition Getpagesize : Z := 4096.
Definition TempDir : string := "/tmp".

(** [filepath.Join] of two elements (the cleaning of the result is not
    modelled: roots are taken as clean paths). *)
Definition Join (a b : string) : string := a +:+ "/" +:+ b.

(** What [Read] at offset [pos] with a buffer of [n] bytes gets: the
    bytes up to the end of the file. *)
Definition pread (f : list byte) (pos n : Z) : list byte :=
  take (Z.to_nat n) (drop (Z.to_nat pos) f).

(** [Write] of [data] at offset [pos]: a hole before [pos] is filled with
    zeros; writing nothing changes nothing. *)
Definition pwrite (f : list byte) (pos : Z) (data : list byte) : list byte :=
  match data with
  | [] => f
  | _ =>
      take (Z.to_nat pos) f
        ++ replicate (Z.to_nat pos - length f) x00
        ++ data
        ++ drop (Z.to_nat pos + length data) f
  end.

(** The byte at [p], zero past the end: how a mapping sees the file in
    the page that holds its end. *)
Definition byte_at (f : list byte) (p : Z) : byte :=
  default x00 (f !! Z.to_nat p).

(** Word [i] of the mapped file, and the store of a word. *)
Definition load64 (f : list byte) (i : Z) : Z :=
  le_decode ((fun k => byte_at f (8 * i + k)) <$> seqZ 0 8).

Definition store64 (f : list byte) (i w : Z) : list byte :=
  pwrite f (8 * i) (le_encode 8 w).

(** The page of word [i] of the mapping starts inside the file, that
    is, the first byte of the page is a byte of the file: an access to
    the word does not fault. *)
Definition word_mapped (f : list byte) (i : Z) : Prop :=
  is_Some (f !! Z.to_nat (Getpagesize * (8 * i / Getpagesize))).

#[global] Instance word_mapped_dec f i : Decision (word_mapped f i).
Proof. unfold word_mapped. apply _. Defined.

(** An open read-only file: its path and its offset. *)
Record FileReader : Type := mkFileReader {
  r_path : string;
  r_pos : Z;
}.

(** [r.Read(buf)] with [len(buf) = n]: the bytes read, the error and
    the reader after it.  A buffer of length zero reads nothing; at the
    end of the file the error is [io.EOF]. *)
Definition File_Read (d : gmap string (list byte)) (r : FileReader) (n : Z)
  : list byte * option error * FileReader :=
  match d !! r_path r with
  | None => ([], Some ErrNotExist, r)
  | Some f =>
      let bs := pread f (r_pos r) n in
      if decide (n = 0) then ([], None, r)
      else match bs with
           | [] => ([], Some ErrEOF, r)
           | _ => (bs, None, mkFileReader (r_path r) (r_pos r + Z.of_nat (length bs)))
           end
  end.

End OS.
Export OS.

(** ** The chunk: [FileStorage] *)

Module Chunk.

(** Where [store.index] points. *)
Inductive IndexSlice : Type :=
| Mapped (n : Z)        (* [n] words of the mapped header, from word 1 on *)
| Unmapped              (* a view of a mapping that was released *)
| Heap (l : list Z).    (* a slice allocated by [make] *)

(** [file] is the offset of the read-write handle, [None] once it is
    closed.  [headerMemory] is the mapping [index] views. *)
Record FileStorage : Type := mkFileStorage {
  fileId : string;
  rootPath : string;
  file : option Z;
  Capacity : Z;
  Size : Z;
  index : IndexSlice;
}.

Definition _nSize : Z := 8.

Definition fname (id root : string) : string :=
  if decide (root <> "") then Join root id else Join TempDir id.

Definition exists_ (d : gmap string (list byte)) (name : string) : bool :=
  bool_decide (is_Some (d !! name)).

(** [open(path, flags)]: [create] stands for [os.O_CREATE]; an empty
    file is extended to one page. *)
Definition open (d : gmap string (list byte)) (path : string) (create : bool)
  : outcome (gmap string (list byte)) :=
  let page := replicate (Z.to_nat Getpagesize) x00 in
  match d !! path with
  | Some f => if decide (f = []) then Ret (<[path := page]> d) else Ret d
  | None => if create then Ret (<[path := page]> d) else Panic
  end.

Definition path_of (store : FileStorage) : string :=
  fname (fileId store) (rootPath store).

(** [store.index[i]]: out of range it panics, and in the mapped header
    the load of a word that is not [word_mapped] faults. *)
Definition index_get (d : gmap string (list byte)) (store : FileStorage) (i : Z)
  : outcome Z :=
  match index store with
  | Mapped n =>
      if decide (0 <= i < n) then
        match d !! path_of store with
        | Some f =>
            if decide (word_mapped f (i + 1)) then Ret (load64 f (i + 1))
            else Panic
        | None => Panic
        end
      else Panic
  | Unmapped => Panic
  | Heap l =>
      if decide (0 <= i) then
        match l !! Z.to_nat i with
        | Some v => Ret v
        | None => Panic
        end
      else Panic
  end.

(** [store.index[i] = v], with the same panics. *)
Definition index_set (d : gmap string (list byte)) (store : FileStorage) (i v : Z)
  : outcome (gmap string (list byte) * FileStorage) :=
  match index store with
  | Mapped n =>
      if decide (0 <= i < n) then
        match d !! path_of store with
        | Some f =>
            if decide (word_mapped f (i + 1))
            then Ret (<[path_of store := store64 f (i + 1) v]> d, store)
            else Panic
        | None => Panic
        end
      else Panic
  | Unmapped => Panic
  | Heap l =>
      if decide (0 <= i < Z.of_nat (length l)) then
        Ret (d, mkFileStorage (fileId store) (rootPath store) (file store)
                  (Capacity store) (Size store) (Heap (<[Z.to_nat i := v]> l)))
      else Panic
  end.

(** The elements of [store.index], as [copy] finds them (it reads as
    many of them as it copies). *)
Definition index_elems (d : gmap string (list byte)) (store : FileStorage)
  : list Z :=
  match index store with
  | Mapped n =>
      match d !! path_of store with
      | Some f => (fun i => load64 f (i + 1)) <$> seqZ 0 n
      | None => []
      end
  | Unmapped => []
  | Heap l => l
  end.

(** [mmap.MapRegion(file, int(headerSize), RDWR, 0, 0)] followed by
    [mmapToIndex(mapping, 0, headerSize)]: the number of words of the
    slice.  A length of zero is refused by the system; with a negative
    length the library maps the file as it is and the slice expression
    of [mmapToIndex] is out of range. *)
Definition map_header (headerSize : Z) : outcome Z :=
  if decide (0 < to_int64 headerSize) then Ret (headerSize / _nSize) else Panic.

Definition init (d : gmap string (list byte)) (store : FileStorage)
  : outcome (gmap string (list byte) * FileStorage) :=
  let headerSize := wrap64 ((Capacity store + 2) * _nSize) in
  d ← open d (path_of store) true;
  n ← map_header headerSize;
  match d !! path_of store with
  | None => Panic
  | Some f =>
      if decide (word_mapped f 0) then
        (* index[0] = store.Capacity *)
        let d := <[path_of store := store64 f 0 (Capacity store)]> d in
        (* store.index = index[1:] *)
        let store := mkFileStorage (fileId store) (rootPath store) (file store)
                       (Capacity store) (Size store) (Mapped (n - 1)) in
        (* store.index[0] = headerSize *)
        '(d, store) ← index_set d store 0 headerSize;
        (* store.file.Seek(int64(headerSize), os.SEEK_SET) *)
        Ret (d, mkFileStorage (fileId store) (rootPath store)
                  (Some (to_int64 headerSize))
                  (Capacity store) (Size store) (index store))
      else Panic
  end.

Definition NewFileStorage (d : gmap string (list byte)) (root id : string)
    (capacity : Z) : outcome (gmap string (list byte) * FileStorage) :=
  init d (mkFileStorage id root None capacity 0 (Heap [])).

(** The loop of [Open] over the words [ws] of the header: the position
    of the first word that is zero, when there is one.  The load of a
    word that is not [word_mapped] faults. *)
Fixpoint first_zero (f : list byte) (ws : list Z) : outcome (option Z) :=
  match ws with
  | [] => Ret None
  | i :: r =>
      if decide (word_mapped f i) then
        if decide (load64 f i = 0) then Ret (Some i) else first_zero f r
      else Panic
  end.

Definition Open (d : gmap string (list byte)) (root id : string)
  : outcome (gmap string (list byte) * FileStorage) :=
  let path := fname id root in
  d ← open d path false;
  match d !! path with
  | None => Panic
  | Some f =>
      if decide (word_mapped f 0) then
        let capacity := load64 f 0 in
        let headerSize := wrap64 ((capacity + 2) * _nSize) in
        n ← map_header headerSize;
        z ← first_zero f (seqZ 0 n);
        let size :=
          match z with
          | Some i => wrap64 (i - 2)
          | None => 0
          end in
        let store := mkFileStorage id root (Some 0) capacity size (Mapped (n - 1)) in
        if decide (size = 0) then
          Ret (d, mkFileStorage id root (Some 0) capacity capacity (Mapped (n - 1)))
        else
          off ← index_get d store size;
          if decide (0 <= to_int64 off) then
            Ret (d, mkFileStorage id root (Some (to_int64 off)) capacity size
                      (Mapped (n - 1)))
          else Panic
      else Panic
  end.

(** [index] is an [int]. *)
Definition WriteMessage (d : gmap string (list byte)) (store : FileStorage)
    (index : Z) (data : list byte)
  : outcome (gmap string (list byte) * FileStorage * option error) :=
  if decide (wrap64 index <> Size store) then
    Ret (d, store, Some (ErrOutOfOrder (Size store) index))
  else if decide (index < 0 \/ wrap64 index >= Capacity store) then
    Ret (d, store, Some (ErrOutOfBounds index (Capacity store)))
  else
    match file store, d !! path_of store with
    | Some pos, Some f =>
        (* store.file.Write(data) *)
        let d := <[path_of store := pwrite f pos data]> d in
        let store := mkFileStorage (fileId store) (rootPath store)
                       (Some (pos + Z.of_nat (length data)))
                       (Capacity store) (Size store) (Chunk.index store) in
        (* store.index[index+1] = store.index[index] + uint64(len(data)) *)
        bottom ← index_get d store index;
        '(d, store) ← index_set d store (index + 1)
                         (wrap64 (bottom + Z.of_nat (length data)));
        (* store.Size++ *)
        Ret (d, mkFileStorage (fileId store) (rootPath store) (file store)
                  (Capacity store) (wrap64 (Size store + 1)) (Chunk.index store),
             None)
    | None, _ => Ret (d, store, Some ErrFileClosed)
    | Some _, None => Ret (d, store, Some ErrNotExist)
    end.

(** [messageIndex] is a [uint64]: [messageIndex < 0] is never true. *)
Definition ReaderAt (d : gmap string (list byte)) (store : FileStorage)
    (messageIndex : Z) : outcome (option FileReader * option error) :=
  if decide (messageIndex >= Size store) then
    Ret (None, Some (ErrExceedsSize messageIndex (Size store)))
  else if decide (messageIndex < 0 \/ messageIndex >= Capacity store) then
    Ret (None, Some (ErrOutOfBounds messageIndex (Capacity store)))
  else
    match d !! path_of store with
    | None => Ret (None, Some ErrNotExist)
    | Some _ =>
        off ← index_get d store messageIndex;
        if decide (0 <= to_int64 off) then
          Ret (Some (mkFileReader (path_of store) (to_int64 off)), None)
        else Ret (None, Some ErrInvalid)
    end.

Definition SizeOf (d : gmap string (list byte)) (store : FileStorage)
    (messageIndex : Z) : outcome (Z * option error) :=
  if decide (messageIndex >= Size store) then
    Ret (0, Some (ErrExceedsSize messageIndex (Size store)))
  else if decide (messageIndex < 0 \/ messageIndex >= Capacity store) then
    Ret (0, Some (ErrOutOfBounds messageIndex (Capacity store)))
  else
    top ← index_get d store (messageIndex + 1);
    bottom ← index_get d store messageIndex;
    Ret (wrap64 (top - bottom), None).

Definition IsFull (store : FileStorage) : bool :=
  bool_decide (Size store = Capacity store).

(** [Flush] and the flush of [Close] change nothing in the model. *)
Definition Flush (store : FileStorage) : FileStorage := store.

Definition Close (store : FileStorage) : FileStorage :=
  mkFileStorage (fileId store) (rootPath store) None
    (Capacity store) (Size store) Unmapped.

(** [make([]uint64, len, cap)] and the built-in [copy], which copies as
    many elements as the shorter of the two slices has. *)
Definition make_uint64 (len : nat) : list Z := replicate len 0.

Definition copy (dst src : list Z) : list Z :=
  let k := Nat.min (length dst) (length src) in
  take k src ++ drop k dst.

Definition switchToReadOnly (d : gmap string (list byte)) (store : FileStorage)
  : FileStorage :=
  let index := make_uint64 0 in
  let index := copy index (index_elems d store) in
  mkFileStorage (fileId store) (rootPath store) None
    (Capacity store) (Size store) (Heap index).

End Chunk.

(** ** The track and its readers

    The draft embedded is the latest one: [OpenTrack] finds the chunk
    files on the disk, the writer turns a full chunk read-only, and
    [Read] checks the buffer.  [CHUNK_SIZE] is a package variable
    (500000 in this draft, 1000 in the earlier ones): the functions
    take it as their first argument.

    The writer task and the channel are modelled by their effect: the
    task receives the queued messages in order, and a reader sees the
    track between two steps of the task. *)

Module Tracks.
Import Chunk.

Definition CHUNK_SIZE_default : Z := 500 * 1000.

(** [writeChan] holds the messages sent and not yet received, [closed]
    tells whether the channel was closed; [msgId] is the local variable
    of the writer task; [dataCond] is not modelled. *)
Record Track : Type := mkTrack {
  stores : list FileStorage;
  Id : string;
  RootPath : string;
  writeChan : list (list byte);
  closed : bool;
  alive : bool;
  msgId : Z;
}.

Record StorageReader : Type := mkStorageReader {
  Offset : Z;
  currentSub : option FileReader;
}.

(** [fmt.Sprintf("%s%d", id, i)] *)
Definition storeId (id : string) (i : Z) : string := id +:+ pretty i.

(** [startWriter(startId)] sets the counter of the task. *)
Definition NewTrack (root id : string) : Track :=
  mkTrack [] id root [] false true 0.

(** The loop [for i := 0; ; i++] of [OpenTrack]; [None] when [fuel]
    rounds were not enough (it is enough when it exceeds the number of
    files on the disk, see [OpenTrack_loop_fuel]). *)
Fixpoint OpenTrack_loop (fuel : nat) (d : gmap string (list byte))
    (root id : string) (i : Z) (stores : list FileStorage)
  : option (outcome (gmap string (list byte) * list FileStorage)) :=
  match fuel with
  | O => None
  | S fuel' =>
      if exists_ d (fname (storeId id i) root) then
        match Open d root (storeId id i) with
        | Ret (d, s) => OpenTrack_loop fuel' d root id (i + 1) (stores ++ [s])
        | Panic => Some Panic
        end
      else Some (Ret (d, stores))
  end.

Definition OpenTrack (CHUNK_SIZE : Z) (d : gmap string (list byte))
    (root id : string) : outcome (gmap string (list byte) * Track) :=
  '(d, stores) ← default Panic (OpenTrack_loop (S (size d)) d root id 0 []);
  let nextId :=
    match last stores with
    | Some s => wrap64 (Z.of_nat (length stores) * CHUNK_SIZE + Size s)
    | None => 0
    end in
  Ret (d, mkTrack stores id root [] false true nextId).

(** [t.writeChan <- data]: a send on a closed channel panics and the
    deferred function turns the panic into an error. *)
Definition WriteMessage (t : Track) (data : list byte) : Track * option error :=
  if closed t then (t, Some ErrTrackClosed)
  else (mkTrack (stores t) (Id t) (RootPath t) (writeChan t ++ [data])
          (closed t) (alive t) (msgId t), None).

(** [close(t.writeChan)] *)
Definition Close (t : Track) : outcome Track :=
  if closed t then Panic
  else Ret (mkTrack (stores t) (Id t) (RootPath t) (writeChan t) true
              (alive t) (msgId t)).

(** One round of the writer task that received [msg]. *)
Definition writer_step (CHUNK_SIZE : Z) (d : gmap string (list byte))
    (t : Track) (msg : list byte) : outcome (gmap string (list byte) * Track) :=
  if decide (CHUNK_SIZE = 0) then Panic else
  let chunkId := msgId t / CHUNK_SIZE in
  '(d, stores) ←
    (if decide (chunkId = Z.of_nat (length (stores t))) then
       let stores :=
         if decide (chunkId > 0)
         then alter (switchToReadOnly d) (Z.to_nat (chunkId - 1)) (stores t)
         else stores t in
       '(d, s) ← NewFileStorage d (RootPath t) (storeId (Id t) chunkId) CHUNK_SIZE;
       Ret (d, stores ++ [s])
     else Ret (d, stores t));
  let internalMsgId := to_int64 (msgId t mod CHUNK_SIZE) in
  match stores !! Z.to_nat chunkId with
  | None => Panic
  | Some s =>
      '(d, s, err) ← Chunk.WriteMessage d s internalMsgId msg;
      match err with
      | Some _ => Panic
      | None =>
          Ret (d, mkTrack (<[Z.to_nat chunkId := s]> stores) (Id t) (RootPath t)
                    (writeChan t) (closed t) (alive t) (wrap64 (msgId t + 1)))
      end
  end.

(** The task receiving the messages [q] one after the other. *)
Fixpoint writer_loop (CHUNK_SIZE : Z) (d : gmap string (list byte))
    (t : Track) (q : list (list byte))
  : outcome (gmap string (list byte) * Track) :=
  match q with
  | [] => Ret (d, t)
  | msg :: q' =>
      '(d, t) ← writer_step CHUNK_SIZE d t msg;
      writer_loop CHUNK_SIZE d t q'
  end.

(** The task run until the channel is empty: it then waits, or, when
    the channel is closed, clears [alive] and returns. *)
Definition writer_task (CHUNK_SIZE : Z) (d : gmap string (list byte))
    (t : Track) : outcome (gmap string (list byte) * Track) :=
  '(d, t') ← writer_loop CHUNK_SIZE d
               (mkTrack (stores t) (Id t) (RootPath t) [] (closed t) (alive t)
                  (msgId t))
               (writeChan t);
  Ret (d, mkTrack (stores t') (Id t') (RootPath t') [] (closed t')
            (if closed t' then false else alive t') (msgId t')).

(** [offset] is a [uint64]. *)
Definition ReaderAt (CHUNK_SIZE : Z) (d : gmap string (list byte))
    (t : Track) (offset : Z) : outcome (option StorageReader * option error) :=
  if decide (offset < 0) then Ret (None, Some (ErrOffset offset)) else
  if decide (CHUNK_SIZE = 0) then Panic else
  let chunkIndex := offset / CHUNK_SIZE in
  let msgIndex := offset mod CHUNK_SIZE in
  match stores t !! Z.to_nat chunkIndex with
  | Some s =>
      if decide (chunkIndex < Z.of_nat (length (stores t)) /\ msgIndex < Size s) then
        '(r, err) ← Chunk.ReaderAt d s msgIndex;
        match err with
        | Some _ => Panic
        | None => Ret (Some (mkStorageReader offset r), None)
        end
      else Ret (Some (mkStorageReader offset None), None)
  | None => Ret (Some (mkStorageReader offset None), None)
  end.

Definition handleRollover (CHUNK_SIZE : Z) (d : gmap string (list byte))
    (t : Track) (sr : StorageReader) : outcome StorageReader :=
  if decide (CHUNK_SIZE = 0) then Panic else
  if decide (Offset sr mod CHUNK_SIZE = 0) then
    match stores t !! Z.to_nat (Offset sr / CHUNK_SIZE) with
    | Some s =>
        '(r, err) ← Chunk.ReaderAt d s 0;
        match err with
        | Some _ => Ret (mkStorageReader (Offset sr) None)
        | None => Ret (mkStorageReader (Offset sr) r)
        end
    | None =>
        match currentSub sr with
        | Some _ => Ret (mkStorageReader (Offset sr) None)
        | None => Panic
        end
    end
  else Ret sr.

(** What a call of [Read] comes to: it waits on [dataCond], or returns
    [(n, err)] with the reader and the buffer as they are then. *)
Inductive ReadResult : Type :=
| Blocked
| Returned (n : Z) (err : option error) (sr : StorageReader) (p : list byte).

(** [Read] from the test of the loop on; [p] is the buffer. *)
Definition Read_body (CHUNK_SIZE : Z) (d : gmap string (list byte))
    (t : Track) (sr : StorageReader) (p : list byte) : outcome ReadResult :=
  if decide (CHUNK_SIZE = 0) then Panic else
  let chunkId := Offset sr / CHUNK_SIZE in
  let internalMsgId := Offset sr mod CHUNK_SIZE in
  match currentSub sr, stores t !! Z.to_nat chunkId with
  | Some sub, Some s =>
      if decide (internalMsgId >= Size s) then Ret Blocked else
      '(nextMsgSize, err) ← SizeOf d s internalMsgId;
      match err with
      | Some e => Ret (Returned 0 (Some e) sr p)
      | None =>
          if decide (nextMsgSize > Z.of_nat (length p)) then
            Ret (Returned 0 (Some (ErrDoesNotFit nextMsgSize)) sr p)
          else
            (* target := p[0:nextMsgSize]; sr.currentSub.Read(target) *)
            let '(bs, err, sub) := File_Read d sub nextMsgSize in
            match err with
            | Some _ => Panic
            | None =>
                let p := bs ++ drop (length bs) p in
                sr ← handleRollover CHUNK_SIZE d t
                       (mkStorageReader (wrap64 (Offset sr + 1)) (Some sub));
                Ret (Returned (to_int64 nextMsgSize) None sr p)
            end
      end
  | _, _ => Ret Blocked
  end.

Definition Read (CHUNK_SIZE : Z) (d : gmap string (list byte))
    (t : Track) (sr : StorageReader) (p : list byte) : outcome ReadResult :=
  if negb (alive t) then Ret (Returned (-1) (Some ErrEOF) sr p)
  else Read_body CHUNK_SIZE d t sr p.

(** A reader that waited is woken by the broadcast of the writer: it
    calls [handleRollover] and tests the loop again. *)
Definition Read_woken (CHUNK_SIZE : Z) (d : gmap string (list byte))
    (t : Track) (sr : StorageReader) (p : list byte) : outcome ReadResult :=
  sr ← handleRollover CHUNK_SIZE d t sr;
  Read_body CHUNK_SIZE d t sr p.

End Tracks.

(** ** Predicates of the statements *)

Module Props.
Import Chunk.

(** The bytes of [m] are in the file from offset [p] on. *)
Definition stored (f : list byte) (p : Z) (m : list byte) : Prop :=
  forall (k : nat) b, m !! k = Some b -> f !! (Z.to_nat p + k)%nat = Some b.

(** The size [H] of the header of a chunk of capacity [C], the number
    of bytes of a sequence of messages, and the offset at which message
    [i] of the sequence starts in a chunk created for [C] messages. *)
Definition hsize (C : Z) : Z := (C + 2) * 8.

Definition total (msgs : list (list byte)) : Z :=
  Z.of_nat (length (concat msgs)).

Definition offset_of (C : Z) (msgs : list (list byte)) (i : nat) : Z :=
  hsize C + total (take i msgs).

(** [WriteMessage(i, m_i)] for the messages of [msgs], from the ordinal
    [i] on, as long as the calls succeed: the state after the last
    call made and its error. *)
Fixpoint write_all (d : gmap string (list byte)) (s : FileStorage) (i : Z)
    (msgs : list (list byte))
  : outcome (gmap string (list byte) * FileStorage * option error) :=
  match msgs with
  | [] => Ret (d, s, None)
  | m :: rest =>
      '(d, s, err) ← WriteMessage d s i m;
      match err with
      | Some e => Ret (d, s, Some e)
      | None => write_all d s (i + 1) rest
      end
  end.

(** The chunk [s] of capacity [C], kept in the file [f] of the disk
    [d], holds the messages [msgs]: what reading it depends on.  The
    words of the header can be accessed: all of them once the chunk has
    a message, the capacity word and the entries 0 and 1 before. *)
Record chunk_holds (d : gmap string (list byte)) (s : FileStorage)
    (root id : string) (C : Z) (msgs : list (list byte)) (f : list byte)
  : Prop := mkChunkHolds {
  ch_id : fileId s = id;
  ch_root : rootPath s = root;
  ch_cap : Capacity s = C;
  ch_size : Size s = Z.of_nat (length msgs);
  ch_index : index s = Mapped (C + 1);
  ch_disk : d !! fname id root = Some f;
  ch_word0 : load64 f 0 = C;
  ch_table : forall i : nat, (i <= length msgs)%nat ->
      load64 f (Z.of_nat i + 1) = wrap64 (offset_of C msgs i);
  ch_data : forall (i : nat) m, msgs !! i = Some m ->
      stored f (offset_of C msgs i) m;
  ch_mapped : forall i, 0 <= i <= C + 1 -> i <= 2 \/ msgs <> [] ->
      word_mapped f i;
}.

(** The chunk holds [msgs] and its handle is at the end of the last
    message, where the next one goes. *)
Definition chunk_writable (d : gmap string (list byte)) (s : FileStorage)
    (root id : string) (C : Z) (msgs : list (list byte)) (f : list byte)
  : Prop :=
  chunk_holds d s root id C msgs f /\
  file s = Some (offset_of C msgs (length msgs)).

(** The reader over the file of a chunk, at the start of message [i]. *)
Definition sub_at (root id : string) (C : Z) (msgs : list (list byte))
    (i : nat) : FileReader :=
  mkFileReader (fname id root) (offset_of C msgs i).

(** The entries [n+1 .. C] of the table of offsets are zero. *)
Definition zeros_above (f : list byte) (C n : Z) : Prop :=
  forall i, n < i <= C -> load64 f (i + 1) = 0.

(** [offsetTable[i]] is [store.index[i]]. *)
Definition offsetTable := index_get.




(** *** The mapped header and the length of the file *)

(** The length of the file that [open] hands over for [path]: a file
    that is new or empty gets a page. *)
Definition opened_length (d : gmap string (list byte)) (path : string) : Z :=
  match d !! path with
  | Some f => if decide (f = []) then Getpagesize else Z.of_nat (length f)
  | None => Getpagesize
  end.

(** The header of a chunk of capacity [C] that is made over a file of
    [L] bytes and sent [msgs] is accessed inside the file only: the
    file holds the whole header; or it holds the two words that [init]
    stores, and the first message is not empty ([WriteMessage] writes
    the message, which goes past the header, before it touches the
    table, and the file then holds the whole header). *)
Definition header_in_file (L C : Z) (msgs : list (list byte)) : Prop :=
  hsize C <= L \/ (16 <= L /\ exists m rest, msgs = m :: rest /\ m <> []).

(** The same for the chunks of a track of chunk size [CS] that starts
    on a disk without chunk files and is sent [msgs]: every chunk file
    starts as a page, and the first message of chunk [c] is message
    [c * CS]. *)
Definition track_headers_in_file (CS : Z) (msgs : list (list byte)) : Prop :=
  hsize CS <= Getpagesize \/
  forall (k : nat) m, msgs !! k = Some m -> Z.of_nat k mod CS = 0 -> m <> [].

(** What the writer task needs of the messages [msgs], the first of
    which has the ordinal [start]: a message that opens a chunk leaves
    the header of the chunk where it can be accessed. *)
Definition chunk_heads_ok (CS start : Z) (msgs : list (list byte)) : Prop :=
  forall (k : nat) m, msgs !! k = Some m ->
    (start + Z.of_nat k) mod CS = 0 ->
    hsize CS <= Getpagesize \/ m <> [].


(** The payloads of the tests of the track: the ordinal in decimal. *)
Definition ordinal_msg (i : Z) : list byte :=
  String.list_byte_of_string (pretty i).

Definition ordinal_msgs (n : Z) : list (list byte) :=
  ordinal_msg <$> seqZ 0 n.

(** The payload of the tests. *)
Definition testData : list byte :=
  String.list_byte_of_string "0123456789ABCDEF".

(** *** The track as a sequence of chunks

    [chunks] gives the messages of each chunk file of a track, in
    order. *)

Definition chunk_path (root id : string) (c : nat) : string :=
  fname (Tracks.storeId id (Z.of_nat c)) root.

(** The message [m] goes to the last chunk, or to a new one when there
    is none or the last one is full. *)
Definition add_msg (CS : Z) (chunks : list (list (list byte)))
    (m : list byte) : list (list (list byte)) :=
  match last chunks with
  | Some mc =>
      if decide (Z.of_nat (length mc) < CS)
      then removelast chunks ++ [mc ++ [m]]
      else chunks ++ [[m]]
  | None => [[m]]
  end.

Definition chunked (CS : Z) (msgs : list (list byte))
  : list (list (list byte)) :=
  foldl (add_msg CS) [] msgs.

(** The number of messages of [chunks] when every chunk but the last
    is full. *)
Definition next_ordinal (CS : Z) (chunks : list (list (list byte))) : Z :=
  match last chunks with
  | Some mc => (Z.of_nat (length chunks) - 1) * CS + Z.of_nat (length mc)
  | None => 0
  end.

(** Every chunk has a message and at most [CS], and every chunk but the
    last has [CS]. *)
Record well_chunked (CS : Z) (chunks : list (list (list byte))) : Prop :=
  mkWellChunked {
  wc_range : forall (c : nat) mc, chunks !! c = Some mc ->
      (1 <= length mc)%nat /\ Z.of_nat (length mc) <= CS;
  wc_full : forall (c : nat) mc, chunks !! c = Some mc ->
      (S c < length chunks)%nat -> Z.of_nat (length mc) = CS;
}.

(** The files of the track [id] under [root] are those of [chunks]:
    file [c] holds chunk [c], with zeros in the table past its
    messages, and there is no file for a further chunk. *)
Record track_on_disk (CS : Z) (d : gmap string (list byte))
    (root id : string) (chunks : list (list (list byte))) : Prop :=
  mkTrackOnDisk {
  tod_chunk : forall (c : nat) mc, chunks !! c = Some mc ->
      exists f s,
        chunk_holds d s root (Tracks.storeId id (Z.of_nat c)) CS mc f /\
        zeros_above f CS (Z.of_nat (length mc));
  tod_absent : forall c : nat, (length chunks <= c)%nat ->
      d !! chunk_path root id c = None;
}.

(** The state of a track whose writer task has received the messages
    of [chunks]: the last store is the chunk being written, the stores
    before it were turned read-only when they were full. *)
Record writer_inv (CS : Z) (d : gmap string (list byte)) (t : Tracks.Track)
    (root id : string) (chunks : list (list (list byte))) : Prop :=
  mkWriterInv {
  wi_id : Tracks.Id t = id;
  wi_root : Tracks.RootPath t = root;
  wi_stores : length (Tracks.stores t) = length chunks;
  wi_msgId : Tracks.msgId t = next_ordinal CS chunks;
  wi_last : forall mc, last chunks = Some mc ->
      exists s f,
        last (Tracks.stores t) = Some s /\
        chunk_writable d s root
          (Tracks.storeId id (Z.of_nat (length chunks - 1))) CS mc f /\
        zeros_above f CS (Z.of_nat (length mc));
  wi_old : forall (c : nat) s, Tracks.stores t !! c = Some s ->
      (S c < length chunks)%nat ->
      exists d0 s0,
        s = switchToReadOnly d0 s0 /\
        Size s0 = CS /\ Capacity s0 = CS /\
        path_of s0 = chunk_path root id c;
  wi_disk : track_on_disk CS d root id chunks;
  wi_chunked : well_chunked CS chunks;
}.

(** The stores [ss] are the chunks of [chunks] from chunk [c] on, as
    [Open] gives them. *)
Definition opened_from (CS : Z) (d : gmap string (list byte))
    (root id : string) (chunks : list (list (list byte))) (c : nat)
    (ss : list FileStorage) : Prop :=
  length ss = (length chunks - c)%nat /\
  forall (j : nat) s, ss !! j = Some s ->
    exists mc f,
      chunks !! (c + j)%nat = Some mc /\
      chunk_holds d s root (Tracks.storeId id (Z.of_nat (c + j))) CS mc f.

(** The reader [sr] of a track stands at message [i] of chunk [c],
    whose messages are [mc]. *)
Definition reader_at (CS : Z) (root id : string) (sr : Tracks.StorageReader)
    (c i : nat) (mc : list (list byte)) : Prop :=
  Tracks.Offset sr = Z.of_nat c * CS + Z.of_nat i /\
  Tracks.currentSub sr
    = Some (sub_at root (Tracks.storeId id (Z.of_nat c)) CS mc i).

(** The use of a track by one producer, as the tests have it: the
    messages are sent, the track is closed, and the caller waits until
    the writer task has taken them all and ended. *)
Definition write_close_wait (CS : Z) (d : gmap string (list byte))
    (t : Tracks.Track) (msgs : list (list byte))
  : outcome (gmap string (list byte) * Tracks.Track) :=
  let t := foldl (fun t m => fst (Tracks.WriteMessage t m)) t msgs in
  t ← Tracks.Close t;
  Tracks.writer_task CS d t.

(** [n] calls of [Read] with a buffer of [buflen] bytes that all return
    a message: the messages read and the reader after them. *)
Fixpoint read_n (CS : Z) (d : gmap string (list byte)) (t : Tracks.Track)
    (sr : Tracks.StorageReader) (buflen n : nat)
  : outcome (list (list byte) * Tracks.StorageReader) :=
  match n with
  | O => Ret ([], sr)
  | S n' =>
      x ← Tracks.Read CS d t sr (replicate buflen x00);
      match x with
      | Tracks.Returned k None sr p =>
          '(rest, sr) ← read_n CS d t sr buflen n';
          Ret (take (Z.to_nat k) p :: rest, sr)
      | _ => Panic
      end
  end.

End Props.
Export Props.

(** ** The track of the earlier draft

    [train/track/storage.go] holds the draft before the latest one.
    Its [NewTrack], [WriteMessage], [ReaderAt] and [Close] are those
    embedded in [Tracks]; the ordinals come from a generator that
    counts from 0, which the counter [msgId] stands for.  Three things
    differ: the writer leaves a full chunk as it is (there is no
    [switchToReadOnly]), [Read] does not compare the message with the
    buffer before it slices the buffer, and [handleRollover] checks the
    error of the chunk and drops a sub-reader without closing it. *)

Module Earlier.
Import Chunk.
Import Tracks.

(** One round of the writer task that received [msg]. *)
Definition writer_step (CHUNK_SIZE : Z) (d : gmap string (list byte))
    (t : Track) (msg : list byte) : outcome (gmap string (list byte) * Track) :=
  if decide (CHUNK_SIZE = 0) then Panic else
  let chunkId := msgId t / CHUNK_SIZE in
  '(d, stores) ←
    (if decide (chunkId = Z.of_nat (length (stores t))) then
       '(d, s) ← NewFileStorage d (RootPath t) (storeId (Id t) chunkId) CHUNK_SIZE;
       Ret (d, stores t ++ [s])
     else Ret (d, stores t));
  let internalMsgId := to_int64 (msgId t mod CHUNK_SIZE) in
  match stores !! Z.to_nat chunkId with
  | None => Panic
  | Some s =>
      '(d, s, err) ← Chunk.WriteMessage d s internalMsgId msg;
      match err with
      | Some _ => Panic
      | None =>
          Ret (d, mkTrack (<[Z.to_nat chunkId := s]> stores) (Id t) (RootPath t)
                    (writeChan t) (closed t) (alive t) (wrap64 (msgId t + 1)))
      end
  end.

Fixpoint writer_loop (CHUNK_SIZE : Z) (d : gmap string (list byte))
    (t : Track) (q : list (list byte))
  : outcome (gmap string (list byte) * Track) :=
  match q with
  | [] => Ret (d, t)
  | msg :: q' =>
      '(d, t) ← writer_step CHUNK_SIZE d t msg;
      writer_loop CHUNK_SIZE d t q'
  end.

Definition handleRollover (CHUNK_SIZE : Z) (d : gmap string (list byte))
    (t : Track) (sr : StorageReader) : outcome StorageReader :=
  if decide (CHUNK_SIZE = 0) then Panic else
  if decide (Offset sr mod CHUNK_SIZE = 0) then
    match stores t !! Z.to_nat (Offset sr / CHUNK_SIZE) with
    | Some s =>
        '(r, err) ← Chunk.ReaderAt d s 0;
        match err with
        | Some _ => Panic
        | None => Ret (mkStorageReader (Offset sr) r)
        end
    | None => Ret (mkStorageReader (Offset sr) None)
    end
  else Ret sr.

(** [Read] from the test of the loop on.  [p] is the buffer up to its
    capacity: the slice expression [p[0:nextMsgSize]] panics when the
    message is longer than that. *)
Definition Read_body (CHUNK_SIZE : Z) (d : gmap string (list byte))
    (t : Track) (sr : StorageReader) (p : list byte) : outcome ReadResult :=
  if decide (CHUNK_SIZE = 0) then Panic else
  let chunkId := Offset sr / CHUNK_SIZE in
  let internalMsgId := Offset sr mod CHUNK_SIZE in
  match currentSub sr, stores t !! Z.to_nat chunkId with
  | Some sub, Some s =>
      if decide (internalMsgId >= Size s) then Ret Blocked else
      '(nextMsgSize, err) ← SizeOf d s internalMsgId;
      match err with
      | Some _ => Panic
      | None =>
          if decide (nextMsgSize > Z.of_nat (length p)) then Panic else
          let '(bs, err, sub) := File_Read d sub nextMsgSize in
          match err with
          | Some _ => Panic
          | None =>
              let p := bs ++ drop (length bs) p in
              sr ← handleRollover CHUNK_SIZE d t
                     (mkStorageReader (wrap64 (Offset sr + 1)) (Some sub));
              Ret (Returned (to_int64 nextMsgSize) None sr p)
          end
      end
  | _, _ => Ret Blocked
  end.

Definition Read (CHUNK_SIZE : Z) (d : gmap string (list byte))
    (t : Track) (sr : StorageReader) (p : list byte) : outcome ReadResult :=
  if negb (alive t) then Ret (Returned (-1) (Some ErrEOF) sr p)
  else Read_body CHUNK_SIZE d t sr p.

(** [n] calls of [Read] with a buffer of [buflen] bytes that all return
    a message: the messages read and the reader after them. *)
Fixpoint read_n (CS : Z) (d : gmap string (list byte)) (t : Track)
    (sr : StorageReader) (buflen n : nat)
  : outcome (list (list byte) * StorageReader) :=
  match n with
  | O => Ret ([], sr)
  | S n' =>
      x ← Read CS d t sr (replicate buflen x00);
      match x with
      | Returned k None sr p =>
          '(rest, sr) ← read_n CS d t sr buflen n';
          Ret (take (Z.to_nat k) p :: rest, sr)
      | _ => Panic
      end
  end.

(** The state of a track whose writer task has received the messages
    of [chunks]: every store holds its chunk, with its header mapped,
    and the last one is where the writer goes on. *)
Record writer_inv (CS : Z) (d : gmap string (list byte)) (t : Track)
    (root id : string) (chunks : list (list (list byte))) : Prop :=
  mkEarlierInv {
  ei_id : Id t = id;
  ei_root : RootPath t = root;
  ei_msgId : msgId t = next_ordinal CS chunks;
  ei_last : forall mc, last chunks = Some mc ->
      exists s f,
        last (stores t) = Some s /\
        chunk_writable d s root
          (storeId id (Z.of_nat (length chunks - 1))) CS mc f;
  ei_stores : opened_from CS d root id chunks 0 (stores t);
  ei_chunked : well_chunked CS chunks;
}.

End Earlier.
(** * Part II: facts about the model *)

(** ** Machine integers and words *)

Lemma wrap64_range z : 0 <= wrap64 z < two64.
Proof. unfold wrap64, two64. apply Z.mod_pos_bound. lia. Qed.

Lemma wrap64_small z : 0 <= z < two64 -> wrap64 z = z.
Proof. intros. unfold wrap64. now apply Z.mod_small. Qed.

Lemma to_int64_small z : 0 <= z <= MaxInt64 -> to_int64 z = z.
Proof.
  intros Hz. unfold to_int64.
  rewrite wrap64_small by (unfold two64, MaxInt64 in *; lia).
  destruct (decide (z <= MaxInt64)); lia.
Qed.

(** [(a + n) - a] on [uint64] gives back [n], wrapped or not. *)
Lemma wrap64_add_sub a n :
  0 <= n < two64 -> wrap64 (wrap64 (a + n) - a) = n.
Proof.
  intros Hn. unfold wrap64.
  rewrite Zminus_mod_idemp_l.
  replace (a + n - a) with n by lia.
  now apply Z.mod_small.
Qed.

Lemma Z_of_byte_range b : 0 <= Z_of_byte b < 256.
Proof.
  unfold Z_of_byte. pose proof (Byte.to_N_bounded b). lia.
Qed.

Lemma Z_of_byte_of_Z z : Z_of_byte (byte_of_Z z) = z mod 256.
Proof.
  unfold byte_of_Z, Z_of_byte.
  assert (Hr : 0 <= z mod 256 < 256) by (apply Z.mod_pos_bound; lia).
  destruct (Byte.of_N (Z.to_N (z mod 256))) as [b|] eqn:E; simpl.
  - apply Byte.to_of_N in E. rewrite E. lia.
  - apply Byte.of_N_None_iff in E. lia.
Qed.

Lemma length_le_encode n w : length (le_encode n w) = n.
Proof. revert w. induction n; intros; simpl; auto. Qed.

Lemma le_decode_encode n w :
  le_decode (le_encode n w) = w mod 256 ^ Z.of_nat n.
Proof.
  revert w. induction n as [|n IH]; intros w.
  - simpl. now rewrite Z.mod_1_r.
  - cbn [le_encode le_decode]. rewrite IH, Z_of_byte_of_Z.
    rewrite Nat2Z.inj_succ, Z.pow_succ_r by lia.
    rewrite Z.rem_mul_r by lia. reflexivity.
Qed.

Lemma le_decode_encode64 w : le_decode (le_encode 8 w) = wrap64 w.
Proof. now rewrite le_decode_encode. Qed.

(** ** Files: what a write leaves of what was there *)

Lemma byte_at_lookup (f : list byte) (n : nat) b :
  f !! n = Some b -> byte_at f (Z.of_nat n) = b.
Proof. intros H. unfold byte_at. now rewrite Nat2Z.id, H. Qed.

Lemma lookup_pwrite (f : list byte) pos (data : list byte) (n : nat) :
  0 <= pos -> data <> [] ->
  pwrite f pos data !! n =
    if decide (n < Z.to_nat pos)%nat then Some (byte_at f (Z.of_nat n))
    else if decide (n < Z.to_nat pos + length data)%nat
         then data !! (n - Z.to_nat pos)%nat
         else f !! n.
Proof.
  intros Hpos Hne. unfold pwrite. destruct data as [|b0 data0]; [done|].
  set (data := b0 :: data0). set (p := Z.to_nat pos).
  assert (Hlen1 : length (take p f ++ replicate (p - length f) x00) = p).
  { rewrite length_app, length_take, length_replicate. lia. }
  rewrite (assoc_L (++) (take p f)).
  destruct (decide (n < p)%nat) as [Hlt|Hge].
  - rewrite lookup_app_l by lia.
    unfold byte_at. rewrite Nat2Z.id.
    destruct (decide (n < length f)%nat) as [Hin|Hout].
    + rewrite lookup_app_l by (rewrite length_take; lia).
      rewrite lookup_take_lt by lia.
      destruct (lookup_lt_is_Some_2 f n Hin) as [b Hb]. now rewrite Hb.
    + rewrite lookup_app_r by (rewrite length_take; lia).
      rewrite (lookup_ge_None_2 f n) by lia. simpl.
      apply lookup_replicate. split; [done|]. rewrite length_take. lia.
  - rewrite lookup_app_r by lia. rewrite Hlen1.
    destruct (decide (n < p + length data)%nat) as [Hin|Hout].
    + now rewrite lookup_app_l by lia.
    + rewrite lookup_app_r by lia. rewrite lookup_drop. f_equal. lia.
Qed.

Lemma lookup_pwrite_other (f : list byte) pos (data : list byte) (n : nat) b :
  0 <= pos ->
  f !! n = Some b ->
  (Z.of_nat n < pos \/ pos + Z.of_nat (length data) <= Z.of_nat n) ->
  pwrite f pos data !! n = Some b.
Proof.
  intros Hpos Hb Hout. destruct data as [|b0 data0] eqn:Ed; [done|].
  rewrite <- Ed in *. rewrite lookup_pwrite by (subst; done).
  repeat case_decide; try lia; [|done].
  f_equal. now apply byte_at_lookup.
Qed.

Lemma lookup_pwrite_data (f : list byte) pos (data : list byte) (k : nat) :
  0 <= pos -> (k < length data)%nat ->
  pwrite f pos data !! (Z.to_nat pos + k)%nat = data !! k.
Proof.
  intros Hpos Hk. rewrite lookup_pwrite; [|done|].
  - repeat case_decide; try lia. f_equal. lia.
  - intros ->. simpl in Hk. lia.
Qed.

Lemma byte_at_pwrite (f : list byte) pos (data : list byte) p :
  0 <= pos -> 0 <= p ->
  byte_at (pwrite f pos data) p =
    if decide (pos <= p < pos + Z.of_nat (length data))
    then default x00 (data !! Z.to_nat (p - pos))
    else byte_at f p.
Proof.
  intros Hpos Hp. destruct data as [|b0 data0] eqn:Ed.
  { simpl. case_decide; [lia|done]. }
  rewrite <- Ed. assert (Hne : data <> []) by (subst; done). clear Ed.
  unfold byte_at at 1. rewrite lookup_pwrite by done.
  repeat case_decide; try lia.
  - simpl. now rewrite Z2Nat.id.
  - do 2 f_equal. lia.
  - reflexivity.
Qed.

Lemma load64_pwrite_other (f : list byte) pos (data : list byte) i :
  0 <= pos -> 0 <= i ->
  (8 * i + 8 <= pos \/ pos + Z.of_nat (length data) <= 8 * i) ->
  load64 (pwrite f pos data) i = load64 f i.
Proof.
  intros Hpos Hi Hout. unfold load64. f_equal.
  apply list_fmap_ext. intros k x Hx.
  apply lookup_seqZ in Hx. rewrite byte_at_pwrite; [|lia|lia].
  case_decide; [lia|done].
Qed.

Lemma load64_store64_eq (f : list byte) i w :
  0 <= i -> load64 (store64 f i w) i = wrap64 w.
Proof.
  intros Hi. unfold load64, store64.
  rewrite <- le_decode_encode64. f_equal.
  apply list_eq. intros k. rewrite list_lookup_fmap.
  destruct (decide (k < 8)%nat) as [Hk|Hk].
  - assert (Hs : seqZ 0 8 !! k = Some (Z.of_nat k)).
    { apply lookup_seqZ. lia. }
    rewrite Hs. cbn [fmap option_fmap option_map].
    rewrite byte_at_pwrite by lia.
    rewrite length_le_encode. case_decide; [|lia].
    replace (Z.to_nat (8 * i + Z.of_nat k - 8 * i)) with k by lia.
    destruct (lookup_lt_is_Some_2 (le_encode 8 w) k) as [b Hb].
    { rewrite length_le_encode. lia. }
    now rewrite Hb.
  - rewrite (lookup_ge_None_2 (seqZ 0 8)) by (rewrite length_seqZ; lia).
    rewrite lookup_ge_None_2; [done|]. rewrite length_le_encode. lia.
Qed.

Lemma load64_store64_ne (f : list byte) i j w :
  0 <= i -> 0 <= j -> i <> j -> load64 (store64 f i w) j = load64 f j.
Proof.
  intros Hi Hj Hne. unfold store64.
  apply load64_pwrite_other; [lia..|]. rewrite length_le_encode. lia.
Qed.

Lemma stored_pread (f : list byte) p m :
  0 <= p -> stored f p m -> pread f p (Z.of_nat (length m)) = m.
Proof.
  intros Hp Hst. unfold pread. rewrite Nat2Z.id.
  apply list_eq. intros k. rewrite lookup_take, lookup_drop.
  case_decide as Hk.
  - destruct (lookup_lt_is_Some_2 m k Hk) as [b Hb].
    rewrite Hb. now apply Hst.
  - symmetry. apply lookup_ge_None_2. lia.
Qed.

Lemma stored_pwrite_data (f : list byte) pos m :
  0 <= pos -> stored (pwrite f pos m) pos m.
Proof.
  intros Hpos k b Hb. rewrite lookup_pwrite_data; [done..|].
  now apply lookup_lt_Some in Hb.
Qed.

Lemma stored_pwrite_other (f : list byte) pos data p m :
  0 <= pos -> 0 <= p ->
  (p + Z.of_nat (length m) <= pos \/ pos + Z.of_nat (length data) <= p) ->
  stored f p m -> stored (pwrite f pos data) p m.
Proof.
  intros Hpos Hp Hout Hst k b Hb.
  pose proof (lookup_lt_Some _ _ _ Hb) as Hk.
  apply lookup_pwrite_other; [done|now apply Hst|lia].
Qed.

(** ** The mapping and the length of the file *)

Lemma length_pwrite (f : list byte) pos (data : list byte) :
  0 <= pos ->
  Z.of_nat (length (pwrite f pos data)) =
    if decide (data = []) then Z.of_nat (length f)
    else Z.max (Z.of_nat (length f)) (pos + Z.of_nat (length data)).
Proof.
  intros Hpos. unfold pwrite. destruct data as [|b data]; [done|].
  rewrite decide_False by done.
  rewrite !length_app, length_take, length_replicate, length_drop. lia.
Qed.

Lemma length_pwrite_le (f : list byte) pos (data : list byte) :
  Z.of_nat (length f) <= Z.of_nat (length (pwrite f pos data)).
Proof.
  unfold pwrite. destruct data as [|b data]; [done|].
  rewrite !length_app, length_take, length_replicate, length_drop. lia.
Qed.

Lemma length_store64_le (f : list byte) i w :
  Z.of_nat (length f) <= Z.of_nat (length (store64 f i w)).
Proof. unfold store64. apply length_pwrite_le. Qed.

Lemma word_mapped_lt (f : list byte) i :
  0 <= i ->
  word_mapped f i <-> Getpagesize * (8 * i / Getpagesize) < Z.of_nat (length f).
Proof.
  intros Hi. unfold word_mapped. rewrite lookup_lt_is_Some.
  assert (0 <= 8 * i / Getpagesize) by (apply Z.div_pos; unfold Getpagesize; lia).
  unfold Getpagesize in *. lia.
Qed.

Lemma word_mapped_mono (f f' : list byte) i j :
  Z.of_nat (length f) <= Z.of_nat (length f') -> 0 <= j <= i ->
  word_mapped f i -> word_mapped f' j.
Proof.
  intros Hlen Hji. rewrite !word_mapped_lt by lia. unfold Getpagesize.
  assert (8 * j / 4096 <= 8 * i / 4096) by (apply Z.div_le_mono; lia). lia.
Qed.

Lemma word_mapped_inside (f : list byte) i :
  0 <= i -> 8 * i < Z.of_nat (length f) -> word_mapped f i.
Proof.
  intros H0 Hi. rewrite word_mapped_lt by done. unfold Getpagesize.
  pose proof (Z.mul_div_le (8 * i) 4096 ltac:(lia)). lia.
Qed.

Lemma word_mapped_page (f : list byte) i :
  f <> [] -> 0 <= i -> 8 * i < Getpagesize -> word_mapped f i.
Proof.
  intros Hf H0 Hi. rewrite word_mapped_lt by done. unfold Getpagesize in *.
  rewrite Z.div_small by lia. destruct f; [done|]. simpl. lia.
Qed.

Lemma word_mapped_nonempty (f : list byte) i : word_mapped f i -> f <> [].
Proof. unfold word_mapped. intros [b Hb] ->. done. Qed.

(** ** The chunk: creation and writes *)

Import Chunk.

Lemma total_nil : total [] = 0.
Proof. reflexivity. Qed.

Lemma total_app l1 l2 : total (l1 ++ l2) = total l1 + total l2.
Proof. unfold total. rewrite concat_app, length_app. lia. Qed.

Lemma total_singleton m : total [m] = Z.of_nat (length m).
Proof. unfold total. simpl. now rewrite app_nil_r. Qed.

Lemma total_nonneg l : 0 <= total l.
Proof. unfold total. lia. Qed.

Lemma total_take_le (msgs : list (list byte)) i :
  total (take i msgs) <= total msgs.
Proof.
  rewrite <- (take_drop i msgs) at 2. rewrite total_app.
  pose proof (total_nonneg (drop i msgs)). lia.
Qed.

Lemma total_take_S (msgs : list (list byte)) (i : nat) m :
  msgs !! i = Some m ->
  total (take (S i) msgs) = total (take i msgs) + Z.of_nat (length m).
Proof.
  intros Hm. now rewrite (take_S_r _ _ _ Hm), total_app, total_singleton.
Qed.

Lemma offset_of_snoc_le C (msgs : list (list byte)) m (i : nat) :
  (i <= length msgs)%nat ->
  offset_of C (msgs ++ [m]) i = offset_of C msgs i.
Proof. intros Hi. unfold offset_of. now rewrite take_app_le. Qed.

Lemma offset_of_snoc_last C (msgs : list (list byte)) m :
  offset_of C (msgs ++ [m]) (S (length msgs)) =
  offset_of C msgs (length msgs) + Z.of_nat (length m).
Proof.
  unfold offset_of.
  rewrite take_ge by (rewrite length_app; simpl; lia).
  rewrite take_ge by lia. rewrite total_app, total_singleton. lia.
Qed.

Lemma offset_of_bounds C (msgs : list (list byte)) i :
  hsize C <= offset_of C msgs i <= hsize C + total msgs.
Proof.
  unfold offset_of. pose proof (total_take_le msgs i).
  pose proof (total_nonneg (take i msgs)). lia.
Qed.

Lemma offset_of_S C (msgs : list (list byte)) (i : nat) m :
  msgs !! i = Some m ->
  offset_of C msgs (S i) = offset_of C msgs i + Z.of_nat (length m).
Proof. intros Hm. unfold offset_of. rewrite (total_take_S _ _ _ Hm). lia. Qed.

Lemma offset_of_mono C (msgs : list (list byte)) (i j : nat) :
  (i <= j)%nat -> offset_of C msgs i <= offset_of C msgs j.
Proof.
  intros Hij. unfold offset_of.
  replace (take i msgs) with (take i (take j msgs)).
  - pose proof (total_take_le (take j msgs) i). lia.
  - rewrite take_take. f_equal. lia.
Qed.

Lemma wrap64_idem z : wrap64 (wrap64 z) = wrap64 z.
Proof. unfold wrap64. apply Z.mod_mod. unfold two64. lia. Qed.

Lemma wrap64_add_l a b : wrap64 (wrap64 a + b) = wrap64 (a + b).
Proof. unfold wrap64. apply Zplus_mod_idemp_l. Qed.

Lemma load64_zeros n i : load64 (replicate n x00) i = 0.
Proof.
  unfold load64.
  assert (H : forall k, byte_at (replicate n x00) k = x00).
  { intros k. unfold byte_at.
    destruct (replicate n x00 !! Z.to_nat k) as [b|] eqn:E; [|done].
    apply lookup_replicate in E. simpl. tauto. }
  rewrite (list_fmap_ext _ (fun _ => x00) (seqZ 0 8)); [reflexivity|].
  intros k x _. apply H.
Qed.

Lemma first_zero_found (f : list byte) (ws : list Z) (k : nat) i :
  (forall (j : nat) w, (j <= k)%nat -> ws !! j = Some w -> word_mapped f w) ->
  (forall (j : nat) w, (j < k)%nat -> ws !! j = Some w -> load64 f w <> 0) ->
  ws !! k = Some i ->
  load64 f i = 0 ->
  first_zero f ws = Ret (Some i).
Proof.
  revert k. induction ws as [|w ws IH]; intros k Hmap Hnz Hk Hz; [done|].
  cbn [first_zero].
  rewrite decide_True by (apply (Hmap 0%nat); [lia|done]).
  destruct k as [|k]; simpl in Hk.
  - injection Hk as ->. now rewrite decide_True by done.
  - rewrite decide_False by (apply (Hnz 0%nat); [lia|done]).
    apply (IH k); [| |done|done].
    + intros j w' Hj Hw'. apply (Hmap (S j)); [lia|done].
    + intros j w' Hj Hw'. apply (Hnz (S j)); [lia|done].
Qed.

Lemma first_zero_none (f : list byte) (ws : list Z) :
  (forall (j : nat) w, ws !! j = Some w -> word_mapped f w /\ load64 f w <> 0) ->
  first_zero f ws = Ret None.
Proof.
  induction ws as [|w ws IH]; intros H; [done|].
  cbn [first_zero]. destruct (H 0%nat w eq_refl) as [Hm Hnz].
  rewrite decide_True by done. rewrite decide_False by done.
  apply IH. intros j w' Hw'. now apply (H (S j)).
Qed.

Section ChunkFacts.

Variables (root id : string) (C : Z).
Hypothesis HC0 : 0 <= C.
Hypothesis HCmax : hsize C <= MaxInt64.

Local Abbreviation path := (fname id root).

Lemma wrap64_hsize : wrap64 ((C + 2) * _nSize) = hsize C.
Proof.
  unfold _nSize. fold (hsize C). apply wrap64_small.
  unfold hsize, MaxInt64, two64 in *. lia.
Qed.

Lemma map_header_hsize : map_header (hsize C) = Ret (C + 2).
Proof.
  unfold map_header. rewrite to_int64_small by (unfold hsize in *; lia).
  case_decide as H; [|unfold hsize in *; lia].
  f_equal. unfold hsize, _nSize. now rewrite Z.div_mul.
Qed.

(** The words of a header that is inside the file, or inside the first
    page of a file that is not empty, can be accessed. *)
Lemma header_mapped (f : list byte) i :
  f <> [] ->
  hsize C <= Getpagesize \/ hsize C <= Z.of_nat (length f) ->
  0 <= i <= C + 1 ->
  word_mapped f i.
Proof.
  intros Hf [Hp|Hl] Hi.
  - apply word_mapped_page; [done|lia|unfold hsize in *; lia].
  - apply word_mapped_inside; [lia|]. unfold hsize in *. lia.
Qed.

(** [NewFileStorage] makes an empty chunk, whatever the file held. *)
Lemma NewFileStorage_holds (d : gmap string (list byte)) :
  exists d' s f,
    NewFileStorage d root id C = Ret (d', s) /\
    chunk_writable d' s root id C [] f /\
    (forall p, p <> path -> d' !! p = d !! p) /\
    (d !! path = None \/ d !! path = Some [] -> zeros_above f C 0) /\
    opened_length d path <= Z.of_nat (length f).
Proof.
  unfold NewFileStorage, init, path_of. cbn [fileId rootPath Capacity Size file].
  rewrite wrap64_hsize.
  set (page := replicate (Z.to_nat Getpagesize) x00).
  assert (Hopen : exists d1 f1,
    open d path true = Ret d1 /\ d1 !! path = Some f1 /\
    (forall p, p <> path -> d1 !! p = d !! p) /\
    (d !! path = None \/ d !! path = Some [] -> f1 = page) /\
    f1 <> [] /\ Z.of_nat (length f1) = opened_length d path).
  { unfold open, opened_length. fold page. destruct (d !! path) as [f0|] eqn:E.
    - case_decide.
      + exists (<[path := page]> d), page. split_and!; [done| |..].
        * apply lookup_insert_eq.
        * intros p Hp. now apply lookup_insert_ne.
        * done.
        * done.
        * unfold page. rewrite length_replicate. unfold Getpagesize. lia.
      + exists d, f0. split_and!; [done..| |done|done]. intros [?|?]; congruence.
    - exists (<[path := page]> d), page. split_and!; [done| |..].
      + apply lookup_insert_eq.
      + intros p Hp. now apply lookup_insert_ne.
      + done.
      + done.
      + unfold page. rewrite length_replicate. unfold Getpagesize. lia. }
  destruct Hopen as (d1 & f1 & -> & Hf1 & Hframe & Hfresh & Hne1 & Hlen1).
  cbn [mbind outcome_bind bind]. rewrite map_header_hsize.
  cbn [mbind outcome_bind bind]. rewrite Hf1.
  rewrite (decide_True (P := word_mapped f1 0))
    by (apply word_mapped_page; [done|lia|unfold Getpagesize; lia]).
  pose proof (length_store64_le f1 0 C) as Hl1.
  assert (Hne2 : store64 f1 0 C <> []).
  { intros E. rewrite E in Hl1. destruct f1; [done|]. simpl in Hl1. lia. }
  unfold index_set, path_of. cbn [index fileId rootPath Capacity Size file].
  case_decide as Hr; [|lia].
  rewrite lookup_insert_eq.
  rewrite (decide_True (P := word_mapped (store64 f1 0 C) (0 + 1)))
    by (apply word_mapped_page; [done|lia|unfold Getpagesize; lia]).
  cbn [mbind outcome_bind bind].
  set (f2 := store64 (store64 f1 0 C) (0 + 1) (hsize C)).
  pose proof (length_store64_le (store64 f1 0 C) (0 + 1) (hsize C)) as Hl2.
  fold f2 in Hl2.
  assert (Hne : f2 <> []).
  { intros E. rewrite E in Hl2. destruct f1; [done|]. simpl in *. lia. }
  eexists _, _, f2. split; [reflexivity|]. split_and!.
  - split; [constructor|]; cbn [fileId rootPath Capacity Size file index].
    + done.
    + done.
    + done.
    + done.
    + f_equal. lia.
    + rewrite insert_insert_eq. apply lookup_insert_eq.
    + unfold f2. rewrite load64_store64_ne by lia.
      rewrite load64_store64_eq by lia. apply wrap64_small.
      unfold hsize, MaxInt64, two64 in *. lia.
    + intros i Hi. simpl in Hi. assert (i = 0%nat) as -> by lia.
      unfold f2. simpl. rewrite load64_store64_eq by lia.
      unfold offset_of. rewrite take_nil, total_nil.
      now rewrite Z.add_0_r.
    + intros i m Hm. done.
    + intros i Hi [Hi2|Hm]; [|done].
      apply word_mapped_page; [done|lia|unfold Getpagesize; lia].
    + f_equal. unfold offset_of. rewrite take_nil, total_nil.
      rewrite to_int64_small by (unfold hsize in *; lia). simpl. lia.
  - intros p Hp. rewrite insert_insert_eq, lookup_insert_ne by done.
    now apply Hframe.
  - intros Hnone i Hi. unfold f2.
    rewrite !load64_store64_ne by lia.
    rewrite (Hfresh Hnone). apply load64_zeros.
  - lia.
Qed.

(** A write at the expected ordinal of a chunk that is not full
    succeeds and adds the message.  The first message of a chunk has to
    leave the whole header where it can be accessed: the header is in
    the first page, or the message is not empty, or the file held the
    header already. *)
Lemma WriteMessage_holds (d : gmap string (list byte)) s msgs f m :
  chunk_writable d s root id C msgs f ->
  Z.of_nat (length msgs) < C ->
  (msgs = [] ->
   hsize C <= Getpagesize \/ m <> [] \/ hsize C <= Z.of_nat (length f)) ->
  exists d' s' f',
    WriteMessage d s (Z.of_nat (length msgs)) m = Ret (d', s', None) /\
    chunk_writable d' s' root id C (msgs ++ [m]) f' /\
    (forall p, p <> path -> d' !! p = d !! p) /\
    (forall j, 0 <= j <= C + 1 -> j <> Z.of_nat (length msgs) + 2 ->
               load64 f' j = load64 f j) /\
    Z.of_nat (length f) <= Z.of_nat (length f').
Proof.
  intros [[Hid Hroot Hcap Hsize Hind Hdisk Hw0 Htab Hdat Hmap] Hfile] Hlt Hfirst.
  set (k := Z.of_nat (length msgs)) in *.
  set (pos := offset_of C msgs (length msgs)) in *.
  assert (Hk : wrap64 k = k).
  { apply wrap64_small. unfold hsize, MaxInt64, two64 in *. lia. }
  assert (Hpos : hsize C <= pos) by apply offset_of_bounds.
  assert (Hpath : path_of s = path) by (unfold path_of; now rewrite Hid, Hroot).
  unfold WriteMessage. rewrite Hk, Hsize, Hcap, Hfile, Hpath, Hdisk.
  case_decide; [done|]. case_decide; [lia|].
  set (f1 := pwrite f pos m).
  pose proof (length_pwrite_le f pos m) as Hl1.
  fold f1 in Hl1.
  assert (Hnext : forall i, 0 <= i <= k + 2 -> word_mapped f i).
  { intros i Hi. apply Hmap; [lia|].
    destruct msgs; [left; simpl in *; lia|now right]. }
  unfold index_get, index_set, path_of.
  cbn [index fileId rootPath Capacity Size file]. rewrite Hind, Hid, Hroot.
  rewrite (decide_True (P := 0 <= k < C + 1)) by lia.
  rewrite lookup_insert_eq.
  rewrite (decide_True (P := word_mapped f1 (k + 1)))
    by (apply (word_mapped_mono f f1 (k + 1)); [done|lia|apply Hnext; lia]).
  cbn [mbind outcome_bind bind index fileId rootPath Capacity Size file].
  assert (Hbot : load64 f1 (k + 1) = wrap64 pos).
  { unfold f1. rewrite load64_pwrite_other; [|unfold hsize in *; lia..].
    apply (Htab (length msgs)). lia. }
  rewrite Hbot, wrap64_add_l.
  rewrite (decide_True (P := 0 <= k + 1 < C + 1)) by lia.
  rewrite (decide_True (P := word_mapped f1 (k + 1 + 1)))
    by (apply (word_mapped_mono f f1 (k + 2)); [done|lia|apply Hnext; lia]).
  cbn [mbind outcome_bind bind index fileId rootPath Capacity Size file].
  set (f2 := store64 f1 (k + 1 + 1) (wrap64 (pos + Z.of_nat (length m)))).
  pose proof (length_store64_le f1 (k + 1 + 1) (wrap64 (pos + Z.of_nat (length m))))
    as Hl2.
  fold f2 in Hl2.
  assert (Hhdr : forall j, 0 <= j <= C + 1 -> j <> k + 2 ->
                   load64 f2 j = load64 f j).
  { intros j Hj Hne. unfold f2, f1.
    rewrite load64_store64_ne by lia.
    apply load64_pwrite_other; unfold hsize in *; lia. }
  assert (Hst : forall p m', hsize C <= p -> stored f1 p m' -> stored f2 p m').
  { intros p m' Hp Hs. unfold f2, store64.
    apply stored_pwrite_other; [unfold hsize in *; lia..| |done].
    rewrite length_le_encode. unfold hsize in *. lia. }
  eexists (<[path := f2]> (<[path := f1]> d)), _, f2.
  split; [reflexivity|]. split_and!.
  - split; [constructor|]; cbn [fileId rootPath Capacity Size file index];
      try done.
    + rewrite length_app. simpl. rewrite wrap64_small; [lia|].
      unfold hsize, MaxInt64, two64 in *. lia.
    + apply lookup_insert_eq.
    + rewrite Hhdr by lia. done.
    + intros i Hi. rewrite length_app in Hi. simpl in Hi.
      destruct (decide (i <= length msgs)%nat) as [Hle|Hgt].
      * rewrite Hhdr by lia. rewrite offset_of_snoc_le by done. now apply Htab.
      * assert (i = S (length msgs)) as -> by lia.
        rewrite offset_of_snoc_last. fold pos.
        replace (Z.of_nat (S (length msgs)) + 1) with (k + 1 + 1) by lia.
        unfold f2. rewrite load64_store64_eq by lia. apply wrap64_idem.
    + intros i m' Hm'. apply Hst; [apply offset_of_bounds|].
      apply lookup_app_Some in Hm' as [Hold|[Hlen Hnew]].
      * pose proof (lookup_lt_Some _ _ _ Hold) as Hi.
        rewrite offset_of_snoc_le by lia.
        apply stored_pwrite_other.
        -- unfold hsize in *; lia.
        -- pose proof (offset_of_bounds C msgs i). unfold hsize in *; lia.
        -- left. rewrite <- (offset_of_S _ _ _ _ Hold).
           apply offset_of_mono. lia.
        -- now apply Hdat.
      * destruct (i - length msgs)%nat as [|n] eqn:E; [|destruct n; done].
        simpl in Hnew. injection Hnew as <-.
        assert (i = length msgs) as -> by lia.
        rewrite offset_of_snoc_le by lia.
        apply stored_pwrite_data. unfold hsize in *; lia.
    + intros i Hi _.
      assert (Hne0 : f <> []).
      { apply (word_mapped_nonempty f 0), Hnext. lia. }
      assert (Hne2 : f2 <> []).
      { intros E. rewrite E in Hl2. destruct f; [done|]. simpl in *. lia. }
      destruct msgs as [|m0 msgs0] eqn:Em.
      * destruct (Hfirst eq_refl) as [Hp|[Hm|Hl]].
        -- apply header_mapped; [done|now left|done].
        -- apply word_mapped_inside; [lia|].
           assert (Z.of_nat (length f1) >= pos + Z.of_nat (length m)).
           { unfold f1. rewrite length_pwrite by (unfold hsize in *; lia).
             rewrite decide_False by done. lia. }
           destruct m; [done|]. simpl in *. unfold hsize in *. lia.
        -- apply header_mapped; [done|right; lia|done].
      * apply (word_mapped_mono f f2 i); [lia|lia|].
        apply Hmap; [done|now right].
    + f_equal. rewrite length_app. simpl.
      replace (length msgs + 1)%nat with (S (length msgs)) by lia.
      now rewrite offset_of_snoc_last.
  - intros p Hp. now rewrite !lookup_insert_ne.
  - done.
  - lia.
Qed.

Lemma write_all_holds (d : gmap string (list byte)) s done f msgs :
  chunk_writable d s root id C done f ->
  Z.of_nat (length done + length msgs) <= C ->
  (done = [] ->
   hsize C <= Getpagesize \/ head msgs <> Some [] \/
   hsize C <= Z.of_nat (length f)) ->
  exists d' s' f',
    write_all d s (Z.of_nat (length done)) msgs = Ret (d', s', None) /\
    chunk_writable d' s' root id C (done ++ msgs) f' /\
    (forall p, p <> path -> d' !! p = d !! p) /\
    (forall j, Z.of_nat (length done + length msgs) + 2 <= j <= C + 1 ->
               load64 f' j = load64 f j) /\
    Z.of_nat (length f) <= Z.of_nat (length f').
Proof.
  revert d s done f. induction msgs as [|m msgs IH]; intros d s done f Hh Hlen Hfirst.
  - exists d, s, f. rewrite app_nil_r. simpl. split_and!; done.
  - simpl in Hlen.
    destruct (WriteMessage_holds d s done f m Hh)
      as (d1 & s1 & f1 & Hw & Hh1 & Hfr1 & Hhd1 & Hl1); [lia| |].
    { intros E. destruct (Hfirst E) as [?|[Hm|?]]; [auto| |auto].
      right; left. intros ->. now apply Hm. }
    destruct (IH d1 s1 (done ++ [m]) f1 Hh1)
      as (d2 & s2 & f2 & Hw2 & Hh2 & Hfr2 & Hhd2 & Hl2).
    { rewrite length_app. simpl. lia. }
    { intros E. now destruct done. }
    exists d2, s2, f2. split_and!.
    + cbn [write_all]. rewrite Hw. cbn [mbind outcome_bind bind].
      rewrite length_app in Hw2. simpl in Hw2.
      replace (Z.of_nat (length done) + 1) with (Z.of_nat (length done + 1)) by lia.
      exact Hw2.
    + now rewrite <- app_assoc in Hh2.
    + intros p Hp. rewrite Hfr2, Hfr1; done.
    + intros j Hj. rewrite Hhd2, Hhd1; [done|simpl in *; lia..|].
      rewrite length_app. simpl in *. lia.
    + lia.
Qed.

(** Creation followed by the writes of [msgs]. *)
Lemma create_write_all_holds (d : gmap string (list byte)) msgs :
  Z.of_nat (length msgs) <= C ->
  hsize C <= Getpagesize \/ head msgs <> Some [] \/
    hsize C <= opened_length d path ->
  exists d0 s0 d' s' f',
    NewFileStorage d root id C = Ret (d0, s0) /\
    write_all d0 s0 0 msgs = Ret (d', s', None) /\
    chunk_writable d' s' root id C msgs f' /\
    (forall p, p <> path -> d' !! p = d !! p) /\
    (d !! path = None \/ d !! path = Some [] ->
     zeros_above f' C (Z.of_nat (length msgs))) /\
    opened_length d path <= Z.of_nat (length f').
Proof.
  intros Hlen Hfirst.
  destruct (NewFileStorage_holds d) as (d0 & s0 & f0 & Hn & Hh0 & Hfr0 & Hz0 & Hl0).
  destruct (write_all_holds d0 s0 [] f0 msgs Hh0)
    as (d1 & s1 & f1 & Hw & Hh1 & Hfr1 & Hhd1 & Hl1).
  { simpl. lia. }
  { intros _. destruct Hfirst as [?|[?|?]]; [auto|auto|]. right; right. lia. }
  exists d0, s0, d1, s1, f1. split_and!; try done.
  - intros p Hp. rewrite Hfr1, Hfr0; done.
  - intros Hfresh i Hi. rewrite Hhd1 by (simpl; lia). apply (Hz0 Hfresh). lia.
  - lia.
Qed.

Lemma opened_length_fresh (d : gmap string (list byte)) p :
  d !! p = None \/ d !! p = Some [] -> opened_length d p = Getpagesize.
Proof. unfold opened_length. intros [->| ->]; [done|]. now rewrite decide_True. Qed.

(** What the statements assume of the file gives what the writes
    need, and leaves the whole header inside the file. *)
Lemma header_in_file_first (L : Z) msgs :
  header_in_file L C msgs ->
  hsize C <= Getpagesize \/ head msgs <> Some [] \/ hsize C <= L.
Proof.
  intros [Hl|[_ (m & rest & -> & Hm)]]; [auto|].
  right; left. simpl. congruence.
Qed.


(** *** Reading a chunk that holds [msgs] *)

Lemma index_get_holds (d : gmap string (list byte)) s msgs f (i : nat) :
  chunk_holds d s root id C msgs f ->
  Z.of_nat (length msgs) <= C ->
  (i <= length msgs)%nat ->
  index_get d s (Z.of_nat i) = Ret (wrap64 (offset_of C msgs i)).
Proof.
  intros [Hid Hroot Hcap Hsize Hind Hdisk Hw0 Htab Hdat Hmap] Hlen Hi.
  unfold index_get, path_of. rewrite Hind, Hid, Hroot, Hdisk.
  rewrite (decide_True (P := 0 <= Z.of_nat i < C + 1)) by lia.
  rewrite decide_True; [f_equal; now apply Htab|].
  apply Hmap; [lia|]. destruct msgs; [left; simpl in *; lia|now right].
Qed.


Lemma SizeOf_holds (d : gmap string (list byte)) s msgs f (i : nat) m :
  chunk_holds d s root id C msgs f ->
  Z.of_nat (length msgs) <= C ->
  msgs !! i = Some m ->
  Z.of_nat (length m) < two64 ->
  SizeOf d s (Z.of_nat i) = Ret (Z.of_nat (length m), None).
Proof.
  intros Hh Hlen Hm Hsmall.
  pose proof (lookup_lt_Some _ _ _ Hm) as Hi.
  unfold SizeOf. rewrite (ch_size _ _ _ _ _ _ _ Hh), (ch_cap _ _ _ _ _ _ _ Hh).
  rewrite decide_False by lia. rewrite decide_False by lia.
  replace (Z.of_nat i + 1) with (Z.of_nat (S i)) by lia.
  rewrite (index_get_holds d s msgs f (S i) Hh) by lia.
  rewrite (index_get_holds d s msgs f i Hh) by lia.
  cbn [mbind outcome_bind bind]. do 2 f_equal.
  rewrite (offset_of_S _ _ _ _ Hm).
  unfold wrap64. rewrite <- Zminus_mod.
  replace (offset_of C msgs i + Z.of_nat (length m) - offset_of C msgs i)
    with (Z.of_nat (length m)) by lia.
  apply Z.mod_small. lia.
Qed.

Lemma ReaderAt_holds (d : gmap string (list byte)) s msgs f (i : nat) m :
  chunk_holds d s root id C msgs f ->
  Z.of_nat (length msgs) <= C ->
  msgs !! i = Some m ->
  offset_of C msgs i <= MaxInt64 ->
  ReaderAt d s (Z.of_nat i) =
    Ret (Some (mkFileReader path (offset_of C msgs i)), None).
Proof.
  intros Hh Hlen Hm Hfit.
  pose proof (lookup_lt_Some _ _ _ Hm) as Hi.
  pose proof (offset_of_bounds C msgs i) as Hb.
  unfold ReaderAt. rewrite (ch_size _ _ _ _ _ _ _ Hh), (ch_cap _ _ _ _ _ _ _ Hh).
  rewrite decide_False by lia. rewrite decide_False by lia.
  assert (Hpath : path_of s = path).
  { unfold path_of. now rewrite (ch_id _ _ _ _ _ _ _ Hh), (ch_root _ _ _ _ _ _ _ Hh). }
  rewrite Hpath, (ch_disk _ _ _ _ _ _ _ Hh).
  rewrite (index_get_holds d s msgs f i Hh) by lia.
  cbn [mbind outcome_bind bind].
  assert (H0 : 0 <= offset_of C msgs i) by (unfold hsize in *; lia).
  rewrite wrap64_small by (unfold MaxInt64, two64 in *; lia).
  rewrite to_int64_small by lia.
  now rewrite decide_True by lia.
Qed.

Lemma File_Read_stored (d : gmap string (list byte)) r f m :
  d !! r_path r = Some f ->
  0 <= r_pos r ->
  stored f (r_pos r) m ->
  File_Read d r (Z.of_nat (length m)) =
    (m, None, mkFileReader (r_path r) (r_pos r + Z.of_nat (length m))).
Proof.
  intros Hf Hpos Hst. unfold File_Read. rewrite Hf.
  rewrite (stored_pread _ _ _ Hpos Hst).
  destruct m as [|b m].
  - simpl. destruct r as [p o]. simpl. now rewrite Z.add_0_r.
  - rewrite decide_False by (simpl; lia). reflexivity.
Qed.

(** *** Opening the file of a chunk again *)

Lemma Open_holds (d : gmap string (list byte)) s msgs f :
  chunk_holds d s root id C msgs f ->
  zeros_above f C (Z.of_nat (length msgs)) ->
  (1 <= length msgs)%nat ->
  Z.of_nat (length msgs) <= C ->
  hsize C + total msgs <= MaxInt64 ->
  exists s',
    Open d root id = Ret (d, s') /\
    chunk_holds d s' root id C msgs f /\
    (Z.of_nat (length msgs) < C ->
     file s' = Some (offset_of C msgs (length msgs))).
Proof.
  intros [Hid Hroot Hcap Hsize Hind Hdisk Hw0 Htab Hdat Hmap] Hz Hk1 HkC Hfit.
  set (k := Z.of_nat (length msgs)) in *.
  assert (Hne : f <> []).
  { intros ->. change (@nil byte) with (replicate 0 x00) in Hw0.
    rewrite load64_zeros in Hw0. lia. }
  assert (Hall : forall i, 0 <= i <= C + 1 -> word_mapped f i).
  { intros i Hi. apply Hmap; [done|]. right. intros ->. simpl in Hk1. lia. }
  assert (Hoff : forall i : nat, (i <= length msgs)%nat ->
            load64 f (Z.of_nat i + 1) = offset_of C msgs i /\
            0 < offset_of C msgs i <= MaxInt64).
  { intros i Hi. pose proof (offset_of_bounds C msgs i) as Hb.
    rewrite Htab by done. split; [|unfold hsize in *; lia].
    apply wrap64_small. unfold hsize, MaxInt64, two64 in *. lia. }
  set (words := seqZ 0 (C + 2)).
  assert (Hwords : forall (j : nat) w, words !! j = Some w ->
            w = Z.of_nat j /\ Z.of_nat j < C + 2).
  { intros j w Hw. unfold words in Hw. apply lookup_seqZ in Hw. lia. }
  assert (Hnz : forall (j : nat), Z.of_nat j <= k + 1 ->
            load64 f (Z.of_nat j) <> 0).
  { intros j Hj.
    destruct j as [|j]; [change (Z.of_nat 0) with 0; rewrite Hw0; lia|].
    destruct (Hoff j ltac:(lia)) as [He Hb].
    replace (Z.of_nat (S j)) with (Z.of_nat j + 1) by lia. lia. }
  unfold Open. unfold open. rewrite Hdisk.
  rewrite decide_False by done. cbn [mbind outcome_bind bind].
  rewrite Hdisk. rewrite (decide_True (P := word_mapped f 0)) by (apply Hall; lia).
  rewrite Hw0, wrap64_hsize, map_header_hsize.
  cbn [mbind outcome_bind bind]. fold words.
  replace (C + 2 - 1) with (C + 1) by lia.
  destruct (decide (k < C)) as [Hlt|Hfull].
  - assert (Hfz : first_zero f words = Ret (Some (Z.of_nat (length msgs + 2)))).
    { apply first_zero_found with (k := (length msgs + 2)%nat).
      - intros j w Hj Hw. destruct (Hwords j w Hw) as [-> ?]. apply Hall. lia.
      - intros j w Hj Hw. destruct (Hwords j w Hw) as [-> ?]. apply Hnz. lia.
      - unfold words. apply lookup_seqZ. lia.
      - replace (Z.of_nat (length msgs + 2)) with (k + 1 + 1) by lia.
        apply Hz. lia. }
    rewrite Hfz. cbn [mbind outcome_bind bind].
    replace (Z.of_nat (length msgs + 2) - 2) with k by lia.
    rewrite wrap64_small by (unfold hsize, MaxInt64, two64 in *; lia).
    rewrite decide_False by lia.
    unfold index_get, path_of. cbn [index fileId rootPath].
    rewrite (decide_True (P := 0 <= k < C + 1)) by lia. rewrite Hdisk.
    rewrite (decide_True (P := word_mapped f (k + 1))) by (apply Hall; lia).
    cbn [mbind outcome_bind bind].
    destruct (Hoff (length msgs) ltac:(lia)) as [He Hb]. fold k in He.
    rewrite He. rewrite to_int64_small by lia.
    rewrite decide_True by lia.
    eexists. split; [reflexivity|]. split; [|done].
    constructor; cbn [fileId rootPath Capacity Size file index]; done.
  - assert (Hfz : first_zero f words = Ret None).
    { apply first_zero_none. intros j w Hw.
      destruct (Hwords j w Hw) as [-> ?]. split; [apply Hall; lia|].
      apply Hnz. lia. }
    rewrite Hfz. cbn [mbind outcome_bind bind]. rewrite decide_True by done.
    eexists. split; [reflexivity|]. split; [|lia].
    constructor; cbn [fileId rootPath Capacity Size file index];
      try done. lia.
Qed.

(** A chunk that holds nothing comes back full: the size 0 that the
    loop finds is what [Open] takes for "no zero found". *)
Lemma Open_empty (d : gmap string (list byte)) s f :
  chunk_holds d s root id C [] f ->
  zeros_above f C 0 ->
  1 <= C ->
  exists s',
    Open d root id = Ret (d, s') /\ Capacity s' = C /\ Size s' = C.
Proof.
  intros [Hid Hroot Hcap Hsize Hind Hdisk Hw0 Htab Hdat Hmap] Hz HC1.
  assert (Hne : f <> []).
  { intros ->. change (@nil byte) with (replicate 0 x00) in Hw0.
    rewrite load64_zeros in Hw0. lia. }
  set (words := seqZ 0 (C + 2)).
  assert (Hwords : forall (j : nat) w, words !! j = Some w ->
            w = Z.of_nat j /\ Z.of_nat j < C + 2).
  { intros j w Hw. unfold words in Hw. apply lookup_seqZ in Hw. lia. }
  assert (Hfz : first_zero f words = Ret (Some (Z.of_nat 2))).
  { apply first_zero_found with (k := 2%nat).
    - intros j w Hj Hw. destruct (Hwords j w Hw) as [-> ?].
      apply Hmap; [lia|left; lia].
    - intros j w Hj Hw. destruct (Hwords j w Hw) as [-> ?].
      destruct j as [|j]; [change (Z.of_nat 0) with 0; rewrite Hw0; lia|].
      assert (j = 0%nat) as -> by lia.
      change (Z.of_nat 1) with (Z.of_nat 0 + 1). rewrite Htab by (simpl; lia).
      unfold offset_of. rewrite take_nil, total_nil, Z.add_0_r.
      rewrite wrap64_small; unfold hsize, MaxInt64, two64 in *; lia.
    - unfold words. apply lookup_seqZ. lia.
    - change (Z.of_nat 2) with (1 + 1). apply Hz. simpl. lia. }
  unfold Open. unfold open. rewrite Hdisk.
  rewrite decide_False by done. cbn [mbind outcome_bind bind].
  rewrite Hdisk.
  rewrite (decide_True (P := word_mapped f 0)) by (apply Hmap; [lia|left; lia]).
  rewrite Hw0, wrap64_hsize, map_header_hsize.
  cbn [mbind outcome_bind bind]. fold words. rewrite Hfz.
  cbn [mbind outcome_bind bind].
  change (wrap64 (Z.of_nat 2 - 2)) with 0.
  rewrite decide_True by done.
  eexists. split; [reflexivity|]. done.
Qed.

End ChunkFacts.

(** ** The read-only transition *)

Lemma switchToReadOnly_index (d : gmap string (list byte)) s :
  index (switchToReadOnly d s) = Heap [].
Proof. reflexivity. Qed.

Lemma index_get_switchToReadOnly (d d0 : gmap string (list byte)) s i :
  index_get d (switchToReadOnly d0 s) i = Panic.
Proof.
  unfold index_get. rewrite switchToReadOnly_index.
  case_decide; reflexivity.
Qed.

(** After the transition no message has a size or a reader any more. *)
Lemma SizeOf_switchToReadOnly (d d0 : gmap string (list byte)) s i :
  0 <= i < Size s -> i < Capacity s ->
  SizeOf d (switchToReadOnly d0 s) i = Panic.
Proof.
  intros Hi Hc. unfold SizeOf.
  change (Size (switchToReadOnly d0 s)) with (Size s).
  change (Capacity (switchToReadOnly d0 s)) with (Capacity s).
  rewrite decide_False by lia. rewrite decide_False by lia.
  rewrite !index_get_switchToReadOnly. reflexivity.
Qed.

Lemma ReaderAt_switchToReadOnly (d d0 : gmap string (list byte)) s i :
  0 <= i < Size s -> i < Capacity s -> is_Some (d !! path_of s) ->
  ReaderAt d (switchToReadOnly d0 s) i = Panic.
Proof.
  intros Hi Hc [f Hf]. unfold ReaderAt.
  change (Size (switchToReadOnly d0 s)) with (Size s).
  change (Capacity (switchToReadOnly d0 s)) with (Capacity s).
  rewrite decide_False by lia. rewrite decide_False by lia.
  change (path_of (switchToReadOnly d0 s)) with (path_of s). rewrite Hf.
  rewrite !index_get_switchToReadOnly. reflexivity.
Qed.

(** ** The track *)

(** [Track.ReaderAt] has no way to return an error for an offset that a
    [uint64] can hold: it returns a reader, or it panics. *)
Lemma Track_ReaderAt_never_error CS (d : gmap string (list byte)) (t : Tracks.Track) offset :
  0 <= offset ->
  forall r e, Tracks.ReaderAt CS d t offset <> Ret (r, Some e).
Proof.
  intros Hoff r e. unfold Tracks.ReaderAt.
  rewrite decide_False by lia.
  case_decide; [done|].
  destruct (Tracks.stores t !! Z.to_nat (offset / CS)) as [s|]; [|done].
  case_decide; [|done].
  destruct (Chunk.ReaderAt d s (offset mod CS)) as [[r0 [e0|]]|]; done.
Qed.

(** The ordinal at which [OpenTrack] starts the writer. *)
Lemma OpenTrack_msgId CS (d d' : gmap string (list byte)) root id t :
  Tracks.OpenTrack CS d root id = Ret (d', t) ->
  Tracks.msgId t =
    match last (Tracks.stores t) with
    | Some s => wrap64 (Z.of_nat (length (Tracks.stores t)) * CS + Size s)
    | None => 0
    end.
Proof.
  unfold Tracks.OpenTrack.
  destruct (default Panic (Tracks.OpenTrack_loop (S (size d)) d root id 0 []))
    as [[d1 ss]|]; [|done].
  cbn [mbind outcome_bind bind]. intros [= <- <-]. reflexivity.
Qed.

(** *** The loop of [OpenTrack] ends *)

Lemma fname_inj root : Inj (=) (=) (fun id => fname id root).
Proof.
  intros x y. unfold fname, Join. case_decide; intros Hxy.
  - apply String.app_inj in Hxy. now apply String.app_inj in Hxy.
  - apply String.app_inj in Hxy. now apply String.app_inj in Hxy.
Qed.

Lemma storeId_inj id : Inj (=) (=) (Tracks.storeId id).
Proof.
  intros x y. unfold Tracks.storeId. intros H.
  apply String.app_inj in H. now apply pretty_Z_inj in H.
Qed.

Lemma Open_dom (d d' : gmap string (list byte)) root id s :
  Open d root id = Ret (d', s) -> dom d' = dom d.
Proof.
  unfold Open. intros H.
  destruct (open d (fname id root) false) as [d1|] eqn:Ho; [|done].
  cbn [mbind outcome_bind bind] in H.
  assert (Hd1 : dom d1 = dom d).
  { unfold open in Ho. destruct (d !! fname id root) as [f|] eqn:Hf; [|done].
    case_decide; injection Ho as <-; [|done].
    apply dom_insert_lookup_L. now rewrite Hf. }
  destruct (d1 !! fname id root) as [f0|]; [|done].
  case_decide; [|done].
  destruct (map_header _) as [n|]; [|done]. cbn [mbind outcome_bind bind] in H.
  destruct (first_zero _ _) as [z|]; [|done]. cbn [mbind outcome_bind bind] in H.
  case_decide; [injection H as <- _; done|].
  destruct (index_get _ _ _) as [off|]; [|done].
  cbn [mbind outcome_bind bind] in H.
  case_decide; [injection H as <- _; done|done].
Qed.

Lemma OpenTrack_loop_out_of_fuel fuel (d : gmap string (list byte)) root id i ss :
  Tracks.OpenTrack_loop fuel d root id i ss = None ->
  forall j : nat, (j < fuel)%nat ->
    is_Some (d !! fname (Tracks.storeId id (i + Z.of_nat j)) root).
Proof.
  revert d i ss. induction fuel as [|fuel IH]; intros d i ss Hnone j Hj; [lia|].
  cbn [Tracks.OpenTrack_loop] in Hnone. unfold exists_ in Hnone.
  case_bool_decide as Hex; [|done].
  destruct (Open d root (Tracks.storeId id i)) as [[d1 s]|] eqn:Ho; [|done].
  destruct j as [|j].
  - now rewrite Z.add_0_r.
  - apply Open_dom in Ho.
    specialize (IH d1 (i + 1) _ Hnone j ltac:(lia)).
    replace (i + Z.of_nat (S j)) with (i + 1 + Z.of_nat j) by lia.
    apply elem_of_dom. rewrite <- Ho. now apply elem_of_dom.
Qed.

(** One round more than the disk has files is enough. *)
Lemma OpenTrack_loop_fuel (d : gmap string (list byte)) root id i ss :
  Tracks.OpenTrack_loop (S (size d)) d root id i ss <> None.
Proof.
  intros Hnone.
  pose proof (OpenTrack_loop_out_of_fuel _ _ _ _ _ _ Hnone) as Hall.
  set (key := fun j : nat => fname (Tracks.storeId id (i + Z.of_nat j)) root).
  set (l := key <$> seq 0 (S (size d))).
  assert (Hinj : Inj (=) (=) key).
  { intros x y Hxy. unfold key in Hxy.
    apply fname_inj, storeId_inj in Hxy. lia. }
  assert (Hnd : NoDup l) by (apply NoDup_fmap_2; [done|apply NoDup_seq]).
  assert (Hsub : (list_to_set l : gset string) ⊆ dom d).
  { intros k Hk. apply elem_of_list_to_set in Hk.
    apply list_elem_of_fmap in Hk as (j & -> & Hjin).
    apply elem_of_seq in Hjin. apply elem_of_dom. apply Hall. lia. }
  apply subseteq_size in Hsub.
  rewrite size_list_to_set in Hsub by done.
  rewrite size_dom in Hsub. unfold l in Hsub.
  rewrite length_fmap, length_seq in Hsub. lia.
Qed.

(** *** Readers over a chunk whose header is mapped *)

Section ReaderFacts.

Variables (CS : Z) (d : gmap string (list byte)) (t : Tracks.Track).
Variables (root id : string) (C : Z) (s : FileStorage).
Variables (msgs : list (list byte)) (f : list byte).
Hypothesis HCS : 0 < CS.
Hypothesis HC0 : 0 <= C.
Hypothesis Hholds : chunk_holds d s root id C msgs f.
Hypothesis Hlen : Z.of_nat (length msgs) <= C.
Hypothesis Hfit : hsize C + total msgs <= MaxInt64.

Local Abbreviation sub_at := (sub_at root id C msgs).

Lemma Track_ReaderAt_holds offset (i : nat) m :
  0 <= offset ->
  Tracks.stores t !! Z.to_nat (offset / CS) = Some s ->
  offset mod CS = Z.of_nat i ->
  msgs !! i = Some m ->
  Tracks.ReaderAt CS d t offset =
    Ret (Some (Tracks.mkStorageReader offset (Some (sub_at i))), None).
Proof.
  intros Hoff Hs Hi Hm. pose proof (lookup_lt_Some _ _ _ Hm) as Hlt.
  pose proof (lookup_lt_Some _ _ _ Hs) as Hlts.
  pose proof (offset_of_bounds C msgs i) as Hb.
  assert (HCmax : hsize C <= MaxInt64) by (pose proof (total_nonneg msgs); lia).
  unfold Tracks.ReaderAt.
  rewrite decide_False by lia. rewrite decide_False by lia.
  rewrite Hs, Hi, (ch_size _ _ _ _ _ _ _ Hholds).
  assert (Hq : 0 <= offset / CS) by (apply Z.div_pos; lia).
  rewrite decide_True by lia.
  rewrite ReaderAt_holds with (root := root) (id := id) (C := C)
    (msgs := msgs) (f := f) (m := m) by (done || lia).
  reflexivity.
Qed.

(** [Read] when the message at the offset of the reader is there and
    the reader stands at its start: an error and nothing else when the
    buffer is too small, the whole message otherwise. *)
Lemma Read_holds sr p (i : nat) m :
  Tracks.alive t = true ->
  0 <= Tracks.Offset sr ->
  Tracks.stores t !! Z.to_nat (Tracks.Offset sr / CS) = Some s ->
  Tracks.Offset sr mod CS = Z.of_nat i ->
  msgs !! i = Some m ->
  Tracks.currentSub sr = Some (sub_at i) ->
  Tracks.Read CS d t sr p =
    if decide (Z.of_nat (length m) > Z.of_nat (length p))
    then Ret (Tracks.Returned 0 (Some (ErrDoesNotFit (Z.of_nat (length m)))) sr p)
    else
      sr' ← Tracks.handleRollover CS d t
              (Tracks.mkStorageReader (wrap64 (Tracks.Offset sr + 1))
                 (Some (sub_at (S i))));
      Ret (Tracks.Returned (Z.of_nat (length m)) None sr'
             (m ++ drop (length m) p)).
Proof.
  intros Halive Hoff Hs Hi Hm Hsub.
  pose proof (lookup_lt_Some _ _ _ Hm) as Hlt.
  pose proof (offset_of_bounds C msgs i) as Hb.
  pose proof (offset_of_bounds C msgs (S i)) as Hb'.
  rewrite (offset_of_S _ _ _ _ Hm) in Hb'.
  assert (HCmax : hsize C <= MaxInt64) by (pose proof (total_nonneg msgs); lia).
  unfold Tracks.Read, Tracks.Read_body. rewrite Halive. cbn [negb].
  rewrite decide_False by lia. rewrite Hsub, Hs, Hi.
  rewrite (ch_size _ _ _ _ _ _ _ Hholds). rewrite decide_False by lia.
  rewrite SizeOf_holds with (root := root) (id := id) (C := C)
    (msgs := msgs) (f := f) (m := m)
    by (done || unfold hsize, MaxInt64, two64 in *; lia).
  cbn [mbind outcome_bind bind].
  case_decide; [done|].
  rewrite (File_Read_stored d (sub_at i) f m); cbn [r_path r_pos sub_at].
  - rewrite to_int64_small by (unfold hsize in *; lia).
    unfold sub_at. now rewrite (offset_of_S _ _ _ _ Hm).
  - apply Hholds.
  - unfold hsize in *. lia.
  - now apply Hholds.
Qed.

End ReaderFacts.

(** *** Readers over a chunk that was turned read-only *)

(** When the writer starts a chunk after the first, it turns the chunk
    before it read-only. *)
Lemma writer_step_rollover CS (d d' : gmap string (list byte)) t t' msg :
  Tracks.writer_step CS d t msg = Ret (d', t') ->
  Tracks.msgId t / CS = Z.of_nat (length (Tracks.stores t)) ->
  (0 < length (Tracks.stores t))%nat ->
  exists s,
    Tracks.stores t !! (length (Tracks.stores t) - 1)%nat = Some s /\
    Tracks.stores t' !! (length (Tracks.stores t) - 1)%nat
      = Some (switchToReadOnly d s) /\
    length (Tracks.stores t') = S (length (Tracks.stores t)).
Proof.
  intros Hstep Hroll Hpos. unfold Tracks.writer_step in Hstep.
  case_decide; [done|]. rewrite Hroll in Hstep.
  rewrite decide_True in Hstep by done.
  rewrite decide_True in Hstep by lia.
  set (n := length (Tracks.stores t)) in *.
  replace (Z.to_nat (Z.of_nat n - 1)) with (n - 1)%nat in Hstep by lia.
  set (ss := alter (switchToReadOnly d) (n - 1)%nat (Tracks.stores t)) in *.
  destruct (NewFileStorage d (Tracks.RootPath t)
              (Tracks.storeId (Tracks.Id t) (Z.of_nat n)) CS)
    as [[d1 s1]|]; [|done].
  cbn [mbind outcome_bind bind] in Hstep. rewrite Nat2Z.id in Hstep.
  assert (Hlen : length ss = n) by (unfold ss; now rewrite length_alter).
  rewrite lookup_app_r in Hstep by lia.
  replace (n - length ss)%nat with 0%nat in Hstep by lia.
  cbn [lookup list_lookup] in Hstep.
  destruct (WriteMessage d1 s1 _ msg) as [[[d2 s2] [e|]]|]; try done.
  cbn [mbind outcome_bind bind] in Hstep. injection Hstep as <- <-.
  cbn [Tracks.stores].
  destruct (lookup_lt_is_Some_2 (Tracks.stores t) (n - 1)%nat ltac:(lia)) as [s Hs].
  exists s. split; [done|]. split.
  - rewrite list_lookup_insert_ne by lia.
    rewrite lookup_app_l by lia.
    unfold ss. rewrite list_lookup_alter_eq. now rewrite Hs.
  - rewrite length_insert, length_app. simpl. lia.
Qed.

(** On such a chunk [Track.ReaderAt] and [Read] panic for a message
    that is there. *)
Lemma Track_ReaderAt_readonly CS (d d0 : gmap string (list byte)) t offset s :
  0 < CS -> 0 <= offset ->
  Tracks.stores t !! Z.to_nat (offset / CS) = Some (switchToReadOnly d0 s) ->
  offset mod CS < Size s ->
  offset mod CS < Capacity s ->
  is_Some (d !! path_of s) ->
  Tracks.ReaderAt CS d t offset = Panic.
Proof.
  intros HCS Hoff Hs Hsz Hcap Hfile.
  pose proof (lookup_lt_Some _ _ _ Hs) as Hlt.
  pose proof (Z.mod_pos_bound offset CS HCS) as Hm.
  assert (Hq : 0 <= offset / CS) by (apply Z.div_pos; lia).
  unfold Tracks.ReaderAt.
  rewrite decide_False by lia. rewrite decide_False by lia. rewrite Hs.
  change (Size (switchToReadOnly d0 s)) with (Size s).
  rewrite decide_True by lia.
  rewrite ReaderAt_switchToReadOnly by (done || lia). reflexivity.
Qed.

Lemma Read_readonly CS (d d0 : gmap string (list byte)) t sr p s sub :
  0 < CS -> 0 <= Tracks.Offset sr ->
  Tracks.alive t = true ->
  Tracks.currentSub sr = Some sub ->
  Tracks.stores t !! Z.to_nat (Tracks.Offset sr / CS)
    = Some (switchToReadOnly d0 s) ->
  Tracks.Offset sr mod CS < Size s ->
  Tracks.Offset sr mod CS < Capacity s ->
  Tracks.Read CS d t sr p = Panic.
Proof.
  intros HCS Hoff Halive Hsub Hs Hsz Hcap.
  pose proof (Z.mod_pos_bound (Tracks.Offset sr) CS HCS) as Hm.
  unfold Tracks.Read, Tracks.Read_body. rewrite Halive. cbn [negb].
  rewrite decide_False by lia. rewrite Hsub, Hs.
  change (Size (switchToReadOnly d0 s)) with (Size s).
  rewrite decide_False by lia.
  rewrite SizeOf_switchToReadOnly by (done || lia). reflexivity.
Qed.

(** ** The writer task, message after message *)

Lemma chunk_div_mod CS c i :
  0 < CS -> 0 <= i < CS ->
  (c * CS + i) / CS = c /\ (c * CS + i) mod CS = i.
Proof.
  intros HCS Hi. split.
  - rewrite Z.div_add_l by lia. rewrite Z.div_small by lia. lia.
  - rewrite Z.add_comm, Z.mod_add by lia. now apply Z.mod_small.
Qed.

Lemma chunk_path_inj root id : Inj (=) (=) (chunk_path root id).
Proof.
  intros c c' H. unfold chunk_path in H.
  apply fname_inj, storeId_inj in H. lia.
Qed.

Lemma chunk_holds_frame (d d' : gmap string (list byte)) s root id C msgs f :
  chunk_holds d s root id C msgs f ->
  d' !! fname id root = d !! fname id root ->
  chunk_holds d' s root id C msgs f.
Proof.
  intros [Hid Hroot Hcap Hsize Hind Hdisk Hw0 Htab Hdat] Hsame.
  constructor; try done. now rewrite Hsame.
Qed.

Lemma track_on_disk_frame CS (d d' : gmap string (list byte)) root id chunks :
  track_on_disk CS d root id chunks ->
  (forall c : nat, d' !! chunk_path root id c = d !! chunk_path root id c) ->
  track_on_disk CS d' root id chunks.
Proof.
  intros [Hchunk Habs] Hsame. constructor.
  - intros c mc Hc. destruct (Hchunk c mc Hc) as (f & s & Hh & Hz).
    exists f, s. split; [|done]. eapply chunk_holds_frame; [done|].
    apply (Hsame c).
  - intros c Hc. rewrite Hsame. now apply Habs.
Qed.

Lemma zeros_above_step (f f' : list byte) C n :
  zeros_above f C n ->
  (forall j, 0 <= j <= C + 1 -> j <> n + 2 -> load64 f' j = load64 f j) ->
  0 <= n ->
  zeros_above f' C (n + 1).
Proof.
  intros Hz Hfr Hn i Hi. rewrite Hfr by lia. apply Hz. lia.
Qed.

Lemma next_ordinal_snoc CS chunks mc :
  next_ordinal CS (chunks ++ [mc]) =
    Z.of_nat (length chunks) * CS + Z.of_nat (length mc).
Proof.
  unfold next_ordinal. rewrite last_snoc, length_app. simpl. lia.
Qed.

Lemma length_concat_full CS (chunks : list (list (list byte))) :
  (forall (c : nat) mc, chunks !! c = Some mc -> Z.of_nat (length mc) = CS) ->
  Z.of_nat (length (concat chunks)) = Z.of_nat (length chunks) * CS.
Proof.
  induction chunks as [|mc chunks IH]; intros Hfull; [simpl; lia|].
  cbn [concat]. rewrite length_app. cbn [length].
  rewrite Nat2Z.inj_add, IH.
  - rewrite (Hfull 0%nat mc eq_refl). lia.
  - intros c mc' Hc. now apply (Hfull (S c)).
Qed.

Lemma next_ordinal_count CS chunks :
  well_chunked CS chunks ->
  next_ordinal CS chunks = Z.of_nat (length (concat chunks)).
Proof.
  intros [Hrange Hfull]. unfold next_ordinal.
  destruct (last chunks) as [mc|] eqn:Hl.
  - apply last_Some in Hl as [init ->].
    assert (E : Z.of_nat (length (concat init)) = Z.of_nat (length init) * CS).
    { apply length_concat_full. intros c mc' Hc. apply (Hfull c).
      - now apply lookup_app_l_Some.
      - apply lookup_lt_Some in Hc. rewrite length_app. simpl. lia. }
    rewrite concat_app, !length_app. cbn [concat]. rewrite app_nil_r.
    cbn [length]. lia.
  - apply last_None in Hl as ->. reflexivity.
Qed.

Lemma track_headers_heads CS msgs :
  track_headers_in_file CS msgs -> chunk_heads_ok CS 0 msgs.
Proof.
  intros [Hp|Hne] k m Hk Hmod; [now left|right].
  apply (Hne k m Hk). now rewrite Z.add_0_l in Hmod.
Qed.

Lemma chunk_heads_ok_app CS start msgs1 msgs2 :
  chunk_heads_ok CS start (msgs1 ++ msgs2) ->
  chunk_heads_ok CS start msgs1 /\
  chunk_heads_ok CS (start + Z.of_nat (length msgs1)) msgs2.
Proof.
  intros H. split; intros k m Hk Hmod.
  - apply (H k m); [|done]. now apply lookup_app_l_Some.
  - apply (H (length msgs1 + k)%nat m).
    + rewrite lookup_app_r by lia. now replace (length msgs1 + k - length msgs1)%nat with k by lia.
    + now replace (start + Z.of_nat (length msgs1 + k))
        with (start + Z.of_nat (length msgs1) + Z.of_nat k) by lia.
Qed.

Section WriterFacts.

Variables (CS : Z) (root id : string).
Hypothesis HCS : 0 < CS.
Hypothesis HCSmax : hsize CS <= MaxInt64.

(** The message goes to the last chunk, which has room for it. *)
Lemma writer_step_append (d : gmap string (list byte)) t chunks mc m :
  writer_inv CS d t root id (chunks ++ [mc]) ->
  Z.of_nat (length mc) < CS ->
  (Z.of_nat (length chunks) + 2) * CS < two64 ->
  exists d' t',
    Tracks.writer_step CS d t m = Ret (d', t') /\
    writer_inv CS d' t' root id (chunks ++ [mc ++ [m]]) /\
    Tracks.alive t' = Tracks.alive t.
Proof.
  intros [Hid Hroot Hstores HmsgId Hlast Hold Hdisk Hwc] Hroom Hord.
  rewrite next_ordinal_snoc in HmsgId.
  rewrite length_app in Hstores. simpl in Hstores.
  destruct (Hlast mc (last_snoc _ _)) as (s & f & Hs & Hw & Hz).
  rewrite length_app in Hw. simpl in Hw.
  replace (length chunks + 1 - 1)%nat with (length chunks) in Hw by lia.
  set (n := length chunks) in *.
  destruct (chunk_div_mod CS (Z.of_nat n) (Z.of_nat (length mc)) HCS ltac:(lia))
    as [Hdiv Hmod].
  assert (HC0 : 0 <= CS) by lia.
  destruct (WriteMessage_holds root (Tracks.storeId id (Z.of_nat n)) CS HC0 HCSmax
              d s mc f m Hw Hroom) as (d' & s' & f' & Hwr & Hw' & Hfr & Hhd & _).
  { intros ->.
    destruct (wc_range _ _ Hwc (length chunks) []) as [H1 _]; [|simpl in H1; lia].
    now apply list_lookup_middle. }
  assert (Hsl : Tracks.stores t !! n = Some s).
  { rewrite last_lookup in Hs. rewrite Hstores in Hs.
    now replace (Init.Nat.pred (n + 1)) with n in Hs by lia. }
  unfold Tracks.writer_step. rewrite decide_False by lia.
  rewrite HmsgId, Hdiv, Hmod. rewrite decide_False by lia.
  cbn [mbind outcome_bind bind]. rewrite Nat2Z.id, Hsl.
  rewrite to_int64_small by (unfold hsize in *; lia).
  rewrite Hroot. unfold chunk_writable in Hw. rewrite Hwr.
  cbn [mbind outcome_bind bind].
  eexists _, _. split; [reflexivity|]. split; [|done].
  constructor; cbn [Tracks.Id Tracks.RootPath Tracks.stores Tracks.msgId].
  - done.
  - done.
  - rewrite length_insert, length_app. simpl. lia.
  - rewrite next_ordinal_snoc, length_app. simpl. fold n.
    rewrite wrap64_small; [lia|]. unfold hsize, two64 in *. nia.
  - intros mc' Hmc'. rewrite last_snoc in Hmc'. injection Hmc' as <-.
    exists s', f'. split_and!.
    + rewrite last_lookup, length_insert, Hstores.
      replace (Init.Nat.pred (n + 1)) with n by lia.
      apply list_lookup_insert_eq. lia.
    + rewrite length_app. simpl.
      now replace (length chunks + 1 - 1)%nat with n by lia.
    + rewrite length_app. simpl.
      replace (Z.of_nat (length mc + 1)) with (Z.of_nat (length mc) + 1) by lia.
      eapply zeros_above_step; [done|done|lia].
  - intros c s0 Hc Hlt. rewrite length_app in Hlt. simpl in Hlt.
    rewrite list_lookup_insert_ne in Hc by (fold n in Hlt; lia).
    apply (Hold c s0 Hc). rewrite length_app. simpl. lia.
  - constructor.
    + intros c mc' Hc. apply lookup_app_Some in Hc as [Hold'|[Hlen Hnew]].
      * destruct (tod_chunk _ _ _ _ _ Hdisk c mc') as (fc & sc & Hhc & Hzc).
        { now apply lookup_app_l_Some. }
        exists fc, sc. split; [|done].
        eapply chunk_holds_frame; [done|]. apply Hfr.
        apply lookup_lt_Some in Hold'. fold n in Hold'.
        intros Heq. apply (chunk_path_inj root id c n) in Heq. lia.
      * destruct (c - length chunks)%nat as [|k] eqn:E; [|destruct k; done].
        simpl in Hnew. injection Hnew as <-.
        assert (c = n) as -> by (unfold n; lia).
        exists f', s'. split; [apply Hw'|].
        rewrite length_app. simpl.
        replace (Z.of_nat (length mc + 1)) with (Z.of_nat (length mc) + 1) by lia.
        eapply zeros_above_step; [done|done|lia].
    + intros c Hc. rewrite length_app in Hc. simpl in Hc.
      unfold chunk_path. rewrite Hfr.
      * apply (tod_absent _ _ _ _ _ Hdisk). rewrite length_app. simpl. lia.
      * intros Heq. apply (chunk_path_inj root id c n) in Heq. unfold n in *. lia.
  - constructor.
    + intros c mc' Hc. apply lookup_app_Some in Hc as [Hold'|[Hlen Hnew]].
      * apply (wc_range _ _ Hwc c). now apply lookup_app_l_Some.
      * destruct (c - length chunks)%nat as [|k] eqn:E; [|destruct k; done].
        simpl in Hnew. injection Hnew as <-.
        rewrite length_app. simpl. lia.
    + intros c mc' Hc Hlt. rewrite length_app in Hlt. simpl in Hlt.
      apply lookup_app_Some in Hc as [Hold'|[Hlen Hnew]]; [|lia].
      apply (wc_full _ _ Hwc c).
      * now apply lookup_app_l_Some.
      * rewrite length_app. simpl. lia.
Qed.

Lemma next_ordinal_full chunks :
  (forall mc, last chunks = Some mc -> Z.of_nat (length mc) = CS) ->
  next_ordinal CS chunks = Z.of_nat (length chunks) * CS.
Proof.
  intros Hfull. unfold next_ordinal.
  destruct (last chunks) as [mc|] eqn:E.
  - rewrite (Hfull mc eq_refl). lia.
  - apply last_None in E. subst. simpl. lia.
Qed.

(** There is no chunk yet, or the last one is full: the message opens a
    new chunk. *)
Lemma writer_step_new_chunk (d : gmap string (list byte)) t chunks m :
  writer_inv CS d t root id chunks ->
  (forall mc, last chunks = Some mc -> Z.of_nat (length mc) = CS) ->
  (Z.of_nat (length chunks) + 2) * CS < two64 ->
  hsize CS <= Getpagesize \/ m <> [] ->
  exists d' t',
    Tracks.writer_step CS d t m = Ret (d', t') /\
    writer_inv CS d' t' root id (chunks ++ [[m]]) /\
    Tracks.alive t' = Tracks.alive t.
Proof.
  intros [Hid Hroot Hstores HmsgId Hlast Hold Hdisk Hwc] Hfull Hord Hhead.
  rewrite (next_ordinal_full _ Hfull) in HmsgId.
  set (n := length chunks) in *.
  assert (HC0 : 0 <= CS) by lia.
  destruct (NewFileStorage_holds root (Tracks.storeId id (Z.of_nat n)) CS HC0 HCSmax d)
    as (d1 & s1 & f1 & Hnew & Hw1 & Hfr1 & Hz1 & _).
  specialize (Hz1 (or_introl (tod_absent _ _ _ _ _ Hdisk n ltac:(lia)))).
  destruct (WriteMessage_holds root (Tracks.storeId id (Z.of_nat n)) CS HC0 HCSmax
              d1 s1 [] f1 m Hw1 ltac:(simpl; lia))
    as (d2 & s2 & f2 & Hwr & Hw2 & Hfr2 & Hhd2 & _).
  { intros _. destruct Hhead; auto. }
  change (Z.of_nat (length (@nil (list byte)))) with 0 in Hwr, Hhd2.
  change ([] ++ [m]) with [m] in Hw2.
  set (ss := if decide (Z.of_nat n > 0)
             then alter (switchToReadOnly d) (Z.to_nat (Z.of_nat n - 1))
                    (Tracks.stores t)
             else Tracks.stores t).
  assert (Hss : length ss = n).
  { unfold ss. case_decide; [rewrite length_alter|]; done. }
  unfold Tracks.writer_step. rewrite decide_False by lia.
  rewrite HmsgId, Z.div_mul, Z.mod_mul by lia.
  rewrite Hstores. fold n. rewrite decide_True by done. fold ss.
  rewrite Hroot, Hid, Hnew. cbn [mbind outcome_bind bind].
  rewrite Nat2Z.id. rewrite lookup_app_r by lia.
  replace (n - length ss)%nat with 0%nat by lia. cbn [lookup list_lookup].
  change (to_int64 0) with 0. rewrite Hwr. cbn [mbind outcome_bind bind].
  eexists _, _. split; [reflexivity|]. split; [|done].
  assert (Hfr : forall c : nat, c <> n ->
            d2 !! chunk_path root id c = d !! chunk_path root id c).
  { intros c Hc. unfold chunk_path.
    assert (Hp : fname (Tracks.storeId id (Z.of_nat c)) root
                 <> fname (Tracks.storeId id (Z.of_nat n)) root).
    { intros Heq. apply (chunk_path_inj root id c n) in Heq. lia. }
    rewrite Hfr2, Hfr1; done. }
  constructor; cbn [Tracks.Id Tracks.RootPath Tracks.stores Tracks.msgId].
  - done.
  - done.
  - rewrite length_insert, !length_app. simpl. lia.
  - rewrite next_ordinal_snoc. fold n. simpl.
    rewrite wrap64_small; [lia|]. unfold two64 in *. nia.
  - intros mc' Hmc'. rewrite last_snoc in Hmc'. injection Hmc' as <-.
    exists s2, f2. split_and!.
    + rewrite last_lookup, length_insert, length_app, Hss. simpl.
      replace (Init.Nat.pred (n + 1)) with n by lia.
      apply list_lookup_insert_eq. rewrite length_app. simpl. lia.
    + rewrite length_app. simpl.
      now replace (length chunks + 1 - 1)%nat with n by (unfold n; lia).
    + change (Z.of_nat (length [m])) with (0 + 1).
      eapply zeros_above_step; [done|done|lia].
  - intros c s0 Hc Hlt. rewrite length_app in Hlt. simpl in Hlt. fold n in Hlt.
    rewrite list_lookup_insert_ne in Hc by lia.
    rewrite lookup_app_l in Hc by lia.
    destruct (decide (S c < n)%nat) as [Hin|Hprev].
    + apply (Hold c s0); [|done]. unfold ss in Hc.
      case_decide; [|done]. rewrite list_lookup_alter_ne in Hc by lia. done.
    + assert (Hcn : c = (n - 1)%nat) by lia.
      unfold ss in Hc. rewrite decide_True in Hc by lia.
      replace (Z.to_nat (Z.of_nat n - 1)) with c in Hc by lia.
      rewrite list_lookup_alter_eq in Hc.
      destruct (Tracks.stores t !! c) as [s|] eqn:Hsc; [|done].
      simpl in Hc. injection Hc as <-.
      assert (Hls : last (Tracks.stores t) = Some s).
      { rewrite last_lookup, Hstores.
        now replace (Init.Nat.pred n) with c by lia. }
      destruct (last chunks) as [mc|] eqn:Hlc.
      2:{ apply last_None in Hlc. unfold n in Hlt. rewrite Hlc in Hlt.
          simpl in Hlt. lia. }
      destruct (Hlast mc eq_refl) as (s' & f & Hs' & [Hh _] & _).
      rewrite Hls in Hs'. injection Hs' as <-.
      exists d, s. split; [done|].
      rewrite (ch_size _ _ _ _ _ _ _ Hh), (ch_cap _ _ _ _ _ _ _ Hh).
      split; [now apply Hfull|]. split; [done|].
      unfold path_of, chunk_path.
      rewrite (ch_id _ _ _ _ _ _ _ Hh), (ch_root _ _ _ _ _ _ _ Hh).
      fold n. now rewrite Hcn.
  - constructor.
    + intros c mc' Hc. apply lookup_app_Some in Hc as [Hold'|[Hlen Hnew']].
      * destruct (tod_chunk _ _ _ _ _ Hdisk c mc' Hold') as (fc & sc & Hhc & Hzc).
        exists fc, sc. split; [|done].
        eapply chunk_holds_frame; [done|]. apply (Hfr c).
        apply lookup_lt_Some in Hold'. fold n in Hold'. lia.
      * destruct (c - length chunks)%nat as [|k] eqn:E; [|destruct k; done].
        simpl in Hnew'. injection Hnew' as <-.
        assert (c = n) as -> by (unfold n; lia).
        exists f2, s2. split; [apply Hw2|].
        change (Z.of_nat (length [m])) with (0 + 1).
        eapply zeros_above_step; [done|done|lia].
    + intros c Hc. rewrite length_app in Hc. simpl in Hc. fold n in Hc.
      rewrite Hfr by lia.
      apply (tod_absent _ _ _ _ _ Hdisk). fold n. lia.
  - constructor.
    + intros c mc' Hc. apply lookup_app_Some in Hc as [Hold'|[Hlen Hnew']].
      * now apply (wc_range _ _ Hwc c).
      * destruct (c - length chunks)%nat as [|k] eqn:E; [|destruct k; done].
        simpl in Hnew'. injection Hnew' as <-. simpl. lia.
    + intros c mc' Hc Hlt. rewrite length_app in Hlt. simpl in Hlt.
      apply lookup_app_Some in Hc as [Hold'|[Hlen Hnew']]; [|lia].
      destruct (decide (S c < length chunks)%nat) as [Hin|Hlastc].
      * now apply (wc_full _ _ Hwc c).
      * apply Hfull. rewrite last_lookup.
        now replace (Init.Nat.pred (length chunks)) with c by lia.
Qed.

(** Every message is taken; the one that opens a chunk has to leave the
    header where it can be accessed. *)
Lemma writer_step_inv (d : gmap string (list byte)) t chunks m :
  writer_inv CS d t root id chunks ->
  (Z.of_nat (length chunks) + 2) * CS < two64 ->
  (next_ordinal CS chunks mod CS = 0 -> hsize CS <= Getpagesize \/ m <> []) ->
  exists d' t',
    Tracks.writer_step CS d t m = Ret (d', t') /\
    writer_inv CS d' t' root id (add_msg CS chunks m) /\
    Tracks.alive t' = Tracks.alive t.
Proof.
  intros Hinv Hord Hhead. unfold add_msg.
  destruct (last chunks) as [mc|] eqn:Hl.
  - case_decide as Hroom.
    + apply last_Some in Hl as [init ->]. rewrite removelast_last.
      apply writer_step_append; [done..|].
      rewrite length_app in Hord. simpl in Hord. lia.
    + assert (Hfull : forall mc', last chunks = Some mc' ->
                Z.of_nat (length mc') = CS).
      { intros mc' Hmc'. rewrite Hl in Hmc'. injection Hmc' as <-.
        pose proof Hl as Hl'. rewrite last_lookup in Hl'.
        pose proof (wc_range _ _ (wi_chunked _ _ _ _ _ _ Hinv) _ _ Hl'). lia. }
      apply writer_step_new_chunk; [done|done|done|].
      apply Hhead. rewrite (next_ordinal_full _ Hfull). apply Z.mod_mul. lia.
  - apply last_None in Hl as ->.
    apply (writer_step_new_chunk d t [] m); [done|done|done|].
    apply Hhead. reflexivity.
Qed.

Lemma length_add_msg chunks m :
  (length (add_msg CS chunks m) <= length chunks + 1)%nat.
Proof.
  unfold add_msg. destruct (last chunks) as [mc|] eqn:Hl.
  - case_decide.
    + apply last_Some in Hl as [init ->]. rewrite removelast_last.
      rewrite !length_app. simpl. lia.
    + rewrite length_app. simpl. lia.
  - apply last_None in Hl as ->. simpl. lia.
Qed.

Lemma concat_add_msg chunks m :
  concat (add_msg CS chunks m) = concat chunks ++ [m].
Proof.
  unfold add_msg. destruct (last chunks) as [mc|] eqn:Hl.
  - case_decide.
    + apply last_Some in Hl as [init ->]. rewrite removelast_last.
      rewrite !concat_app. simpl. rewrite !app_nil_r. now rewrite app_assoc.
    + rewrite concat_app. simpl. reflexivity.
  - apply last_None in Hl as ->. reflexivity.
Qed.

Lemma concat_chunked msgs : concat (chunked CS msgs) = msgs.
Proof.
  unfold chunked. induction msgs as [|m msgs IH] using rev_ind; [done|].
  now rewrite foldl_snoc, concat_add_msg, IH.
Qed.

(** The writer of a new track takes the messages [msgs] and leaves
    them chunked on the disk. *)
Lemma writer_loop_inv (d : gmap string (list byte)) t chunks msgs :
  writer_inv CS d t root id chunks ->
  (Z.of_nat (length chunks + length msgs) + 2) * CS < two64 ->
  chunk_heads_ok CS (next_ordinal CS chunks) msgs ->
  exists d' t',
    Tracks.writer_loop CS d t msgs = Ret (d', t') /\
    writer_inv CS d' t' root id (foldl (add_msg CS) chunks msgs) /\
    Tracks.alive t' = Tracks.alive t.
Proof.
  revert d t chunks.
  induction msgs as [|m msgs IH]; intros d t chunks Hinv Hord Hheads.
  - exists d, t. done.
  - simpl in Hord.
    destruct (writer_step_inv d t chunks m Hinv) as (d1 & t1 & Hstep & Hinv1 & Ha1);
      [nia| |].
    { intros Hmod. apply (Hheads 0%nat m eq_refl). now rewrite Z.add_0_r. }
    pose proof (length_add_msg chunks m) as Hl.
    destruct (IH d1 t1 _ Hinv1) as (d2 & t2 & Hloop & Hinv2 & Ha2); [nia| |].
    { intros k m' Hk Hmod. apply (Hheads (S k) m' Hk).
      rewrite (next_ordinal_count CS _ (wi_chunked _ _ _ _ _ _ Hinv1)) in Hmod.
      rewrite (next_ordinal_count CS _ (wi_chunked _ _ _ _ _ _ Hinv)).
      rewrite concat_add_msg, length_app in Hmod. simpl in Hmod.
      now replace (Z.of_nat (length (concat chunks)) + Z.of_nat (S k))
        with (Z.of_nat (length (concat chunks) + 1) + Z.of_nat k) by lia. }
    exists d2, t2. split_and!; [|done|congruence].
    cbn [Tracks.writer_loop]. rewrite Hstep. exact Hloop.
Qed.

Lemma empty_track_inv (d : gmap string (list byte)) t0 :
  Tracks.stores t0 = [] -> Tracks.Id t0 = id -> Tracks.RootPath t0 = root ->
  Tracks.msgId t0 = 0 ->
  (forall c : nat, d !! chunk_path root id c = None) ->
  writer_inv CS d t0 root id [].
Proof.
  intros Hs Hid Hroot Hm Hnone. constructor; try done.
  - now rewrite Hs.
  - intros c s Hc. rewrite Hs in Hc. done.
Qed.

End WriterFacts.

(** ** Opening the track again *)

Section ReopenFacts.

Variables (CS : Z) (root id : string) (d : gmap string (list byte)).
Variable chunks : list (list (list byte)).
Hypothesis HCS : 0 < CS.
Hypothesis HCSmax : hsize CS <= MaxInt64.
Hypothesis Hdisk : track_on_disk CS d root id chunks.
Hypothesis Hwc : well_chunked CS chunks.
Hypothesis Hfit : forall (c : nat) mc, chunks !! c = Some mc ->
  hsize CS + total mc <= MaxInt64.

Local Abbreviation opened_from := (opened_from CS d root id chunks).

Lemma OpenTrack_loop_on_disk fuel (c : nat) acc :
  (c <= length chunks)%nat ->
  Tracks.OpenTrack_loop fuel d root id (Z.of_nat c) acc = None \/
  exists ss,
    Tracks.OpenTrack_loop fuel d root id (Z.of_nat c) acc
      = Some (Ret (d, acc ++ ss)) /\
    opened_from c ss.
Proof.
  revert c acc. induction fuel as [|fuel IH]; intros c acc Hc; [now left|].
  cbn [Tracks.OpenTrack_loop]. unfold exists_.
  destruct (decide (c = length chunks)) as [->|Hne].
  - right. exists []. rewrite app_nil_r.
    pose proof (tod_absent _ _ _ _ _ Hdisk (length chunks) ltac:(lia)) as Habs.
    unfold chunk_path in Habs. rewrite Habs.
    rewrite bool_decide_eq_false_2 by (intros [? ?]; done).
    split; [done|]. split; [simpl; lia|]. intros j s0 Hj. done.
  - destruct (lookup_lt_is_Some_2 chunks c ltac:(lia)) as [mc Hmc].
    destruct (tod_chunk _ _ _ _ _ Hdisk c mc Hmc) as (f & s & Hh & Hz).
    destruct (wc_range _ _ Hwc c mc Hmc) as [H1 H2].
    assert (HC0 : 0 <= CS) by lia.
    destruct (Open_holds root (Tracks.storeId id (Z.of_nat c)) CS HC0 HCSmax
                d s mc f Hh Hz H1 H2 (Hfit c mc Hmc)) as (s' & Ho & Hh' & _).
    rewrite bool_decide_eq_true_2 by (rewrite (ch_disk _ _ _ _ _ _ _ Hh); eauto).
    rewrite Ho.
    replace (Z.of_nat c + 1) with (Z.of_nat (S c)) by lia.
    destruct (IH (S c) (acc ++ [s']) ltac:(lia)) as [Hnone|(ss & Hss & Hlen & Hall)];
      [now left|].
    right. exists (s' :: ss). split.
    + rewrite Hss. now rewrite <- app_assoc.
    + split; [simpl; lia|]. intros j s0 Hj. destruct j as [|j].
      * simpl in Hj. injection Hj as <-. exists mc, f.
        rewrite Nat.add_0_r. done.
      * simpl in Hj. destruct (Hall j s0 Hj) as (mc0 & f0 & Hc0 & Hh0).
        exists mc0, f0. now replace (c + S j)%nat with (S c + j)%nat by lia.
Qed.

(** [OpenTrack] opens every chunk and starts the writer one chunk too
    far. *)
Lemma OpenTrack_on_disk :
  exists t',
    Tracks.OpenTrack CS d root id = Ret (d, t') /\
    Tracks.alive t' = true /\
    Tracks.Id t' = id /\ Tracks.RootPath t' = root /\
    opened_from 0 (Tracks.stores t') /\
    Tracks.msgId t' =
      match last chunks with
      | Some mc =>
          wrap64 (Z.of_nat (length chunks) * CS + Z.of_nat (length mc))
      | None => 0
      end.
Proof.
  destruct (OpenTrack_loop_on_disk (S (size d)) 0 [] ltac:(lia))
    as [Hnone|(ss & Hss & Hop)].
  { now apply OpenTrack_loop_fuel in Hnone. }
  unfold Tracks.OpenTrack. change (Z.of_nat 0) with 0 in Hss. rewrite Hss.
  cbn [default mbind outcome_bind bind app].
  eexists. split; [reflexivity|].
  cbn [Tracks.alive Tracks.stores Tracks.msgId Tracks.Id Tracks.RootPath].
  split; [done|]. split; [done|]. split; [done|]. split; [done|].
  destruct Hop as [Hlen Hall]. rewrite Nat.sub_0_r in Hlen.
  rewrite !last_lookup, Hlen.
  destruct (ss !! Init.Nat.pred (length chunks)) as [s|] eqn:Hs.
  - destruct (Hall _ _ Hs) as (mc & f & Hmc & Hh). simpl in Hmc.
    rewrite Hmc. now rewrite (ch_size _ _ _ _ _ _ _ Hh).
  - destruct (chunks !! Init.Nat.pred (length chunks)) as [mc|] eqn:Hmc; [|done].
    apply lookup_lt_Some in Hmc. apply lookup_ge_None in Hs. lia.
Qed.

(** The writer of a track opened again panics on the message it
    receives: its ordinal points into a chunk that is not there, or
    past the start of the chunk it creates. *)
Lemma writer_step_after_reopen t' m :
  chunks <> [] ->
  (Z.of_nat (length chunks) + 2) * CS < two64 ->
  Tracks.Id t' = id -> Tracks.RootPath t' = root ->
  length (Tracks.stores t') = length chunks ->
  Tracks.msgId t' = next_ordinal CS chunks + CS ->
  Tracks.writer_step CS d t' m = Panic.
Proof.
  intros Hne Hord Hid Hroot Hlen HmsgId.
  destruct (last chunks) as [mc|] eqn:Hl; [|apply last_None in Hl; done].
  pose proof Hl as Hl'. rewrite last_lookup in Hl'.
  destruct (wc_range _ _ Hwc _ _ Hl') as [H1 H2].
  unfold next_ordinal in HmsgId. rewrite Hl in HmsgId.
  set (n := length chunks) in *.
  assert (Hn : (1 <= n)%nat).
  { unfold n. destruct chunks; [done|simpl; lia]. }
  unfold Tracks.writer_step. rewrite decide_False by lia. rewrite HmsgId, Hlen.
  destruct (decide (Z.of_nat (length mc) < CS)) as [Hroom|Hfull].
  - replace ((Z.of_nat n - 1) * CS + Z.of_nat (length mc) + CS)
      with (Z.of_nat n * CS + Z.of_nat (length mc)) by lia.
    destruct (chunk_div_mod CS (Z.of_nat n) (Z.of_nat (length mc)) HCS ltac:(lia))
      as [Hdiv Hmod].
    rewrite Hdiv, Hmod. rewrite decide_True by done.
    assert (HC0 : 0 <= CS) by lia.
    destruct (NewFileStorage_holds root (Tracks.storeId id (Z.of_nat n)) CS HC0
                HCSmax d) as (d1 & s1 & f1 & Hnew & [Hh1 _] & _ & _).
    rewrite Hroot, Hid, Hnew. cbn [mbind outcome_bind bind].
    rewrite Nat2Z.id. rewrite lookup_app_r by (case_decide; rewrite ?length_alter; lia).
    replace (n - _)%nat with 0%nat
      by (case_decide; rewrite ?length_alter; lia).
    cbn [lookup list_lookup].
    rewrite to_int64_small by (unfold hsize in *; lia).
    unfold WriteMessage. rewrite (ch_size _ _ _ _ _ _ _ Hh1). cbn [length].
    rewrite (wrap64_small (Z.of_nat (length mc)))
      by (unfold hsize, MaxInt64, two64 in *; lia).
    destruct (decide (Z.of_nat (length mc) <> Z.of_nat 0)); [reflexivity|lia].
  - replace ((Z.of_nat n - 1) * CS + Z.of_nat (length mc) + CS)
      with ((Z.of_nat n + 1) * CS) by lia.
    rewrite Z.div_mul by lia. rewrite decide_False by lia.
    cbn [mbind outcome_bind bind].
    rewrite lookup_ge_None_2 by lia. reflexivity.
Qed.

End ReopenFacts.

(** ** Reading a track whose chunks are all mapped *)

Section ReadAllFacts.

Variables (CS : Z) (root id : string) (d : gmap string (list byte)).
Variable chunks : list (list (list byte)).
Variable t : Tracks.Track.
Variable buflen : nat.
Hypothesis HCS : 0 < CS.
Hypothesis HCSmax : hsize CS <= MaxInt64.
Hypothesis Hwc : well_chunked CS chunks.
Hypothesis Hfit : forall (c : nat) mc, chunks !! c = Some mc ->
  hsize CS + total mc <= MaxInt64.
Hypothesis Hord : (Z.of_nat (length chunks) + 1) * CS < two64.
Hypothesis Halive : Tracks.alive t = true.
Hypothesis Hopen : opened_from CS d root id chunks 0 (Tracks.stores t).
Hypothesis Hbuf : forall (c i : nat) mc m,
  chunks !! c = Some mc -> mc !! i = Some m -> (length m <= buflen)%nat.

Lemma opened_store (c : nat) mc :
  chunks !! c = Some mc ->
  exists s f,
    Tracks.stores t !! c = Some s /\
    chunk_holds d s root (Tracks.storeId id (Z.of_nat c)) CS mc f.
Proof.
  intros Hc. destruct Hopen as [Hlen Hall].
  pose proof (lookup_lt_Some _ _ _ Hc) as Hlt.
  destruct (lookup_lt_is_Some_2 (Tracks.stores t) c ltac:(lia)) as [s Hs].
  destruct (Hall c s Hs) as (mc' & f & Hc' & Hh). simpl in Hc'.
  rewrite Hc in Hc'. injection Hc' as <-. now exists s, f.
Qed.

Lemma opened_none (c : nat) :
  (length chunks <= c)%nat -> Tracks.stores t !! c = None.
Proof.
  intros Hc. destruct Hopen as [Hlen _]. apply lookup_ge_None. lia.
Qed.

Local Abbreviation reader_at := (reader_at CS root id).

Lemma ReaderAt_first mc :
  chunks !! 0%nat = Some mc ->
  exists sr,
    Tracks.ReaderAt CS d t 0 = Ret (Some sr, None) /\ reader_at sr 0 0 mc.
Proof.
  intros Hc. destruct (opened_store 0 mc Hc) as (s & f & Hs & Hh).
  destruct (wc_range _ _ Hwc 0%nat mc Hc) as [H1 H2].
  destruct mc as [|m0 mc']; [simpl in H1; lia|].
  eexists. split.
  - apply Track_ReaderAt_holds with (root := root)
      (id := Tracks.storeId id (Z.of_nat 0)) (C := CS) (s := s)
      (msgs := m0 :: mc') (f := f) (i := 0%nat) (m := m0);
      try done; try lia.
    now apply (Hfit 0%nat).
  - split; reflexivity.
Qed.

(** From message [i] of chunk [c] on, [n] reads return what is left of
    the chunk and the chunks after it. *)
Lemma read_n_from (n : nat) : forall sr (c i : nat) mc,
  chunks !! c = Some mc ->
  (i < length mc)%nat ->
  reader_at sr c i mc ->
  n = length (drop i mc ++ concat (drop (S c) chunks)) ->
  exists sr',
    read_n CS d t sr buflen n
      = Ret (drop i mc ++ concat (drop (S c) chunks), sr').
Proof.
  induction n as [|n IH]; intros sr c i mc Hc Hi [Hoff Hsub] Hn.
  { rewrite length_app, length_drop in Hn. lia. }
  destruct (opened_store c mc Hc) as (s & f & Hs & Hh).
  destruct (wc_range _ _ Hwc c mc Hc) as [H1 H2].
  pose proof (lookup_lt_Some _ _ _ Hc) as Hclt.
  destruct (lookup_lt_is_Some_2 mc i Hi) as [m Hm].
  destruct (chunk_div_mod CS (Z.of_nat c) (Z.of_nat i) HCS ltac:(lia))
    as [Hdiv Hmod].
  assert (HC0 : 0 <= CS) by lia.
  assert (Hrd := Read_holds CS d t root (Tracks.storeId id (Z.of_nat c)) CS s
                   mc f HCS HC0 Hh H2 (Hfit c mc Hc) sr
                   (replicate buflen x00) i m Halive).
  rewrite Hoff, Hdiv, Hmod, Nat2Z.id in Hrd.
  specialize (Hrd ltac:(lia) Hs eq_refl Hm Hsub).
  rewrite length_replicate in Hrd.
  rewrite decide_False in Hrd by (pose proof (Hbuf c i mc m Hc Hm); lia).
  rewrite wrap64_small in Hrd by nia.
  rewrite (drop_S _ _ _ Hm). cbn [app].
  cbn [read_n]. rewrite Hrd. clear Hrd.
  assert (Htake : take (Z.to_nat (Z.of_nat (length m)))
                    (m ++ drop (length m) (replicate buflen x00)) = m).
  { rewrite Nat2Z.id. now rewrite take_app_length. }
  rewrite (drop_S _ _ _ Hm) in Hn. cbn [app length] in Hn.
  injection Hn as Hn.
  unfold Tracks.handleRollover. rewrite decide_False by lia.
  cbn [Tracks.Offset Tracks.currentSub].
  destruct (decide (S i < length mc)%nat) as [Hmore|Hend].
  - (* the next message is in the same chunk *)
    destruct (chunk_div_mod CS (Z.of_nat c) (Z.of_nat i + 1) HCS ltac:(lia))
      as [Hdiv1 Hmod1].
    rewrite <- Z.add_assoc, Hmod1. rewrite decide_False by lia.
    cbn [mbind outcome_bind bind].
    destruct (IH (Tracks.mkStorageReader (Z.of_nat c * CS + (Z.of_nat i + 1))
                    (Some (sub_at root (Tracks.storeId id (Z.of_nat c)) CS mc (S i))))
                c (S i) mc Hc Hmore) as (sr' & Hrest); [|done|].
    { split; cbn [Tracks.Offset Tracks.currentSub]; [lia|done]. }
    rewrite Hrest. cbn [mbind outcome_bind bind]. rewrite Htake. eauto.
  - assert (Hlast_i : S i = length mc) by lia.
    rewrite (drop_ge mc (S i)) in * by lia. cbn [app] in *.
    destruct (decide (Z.of_nat (length mc) = CS)) as [Hfull|Hpart].
    + (* the chunk is full: the reader moves to the next chunk *)
      replace (Z.of_nat c * CS + Z.of_nat i + 1) with (Z.of_nat (S c) * CS) by lia.
      rewrite Z.mod_mul, Z.div_mul by lia. rewrite decide_True by done.
      rewrite Nat2Z.id.
      destruct (decide (S c < length chunks)%nat) as [Hnext|Hnone].
      * destruct (lookup_lt_is_Some_2 chunks (S c) Hnext) as [mc' Hc'].
        destruct (opened_store (S c) mc' Hc') as (s' & f' & Hs' & Hh').
        destruct (wc_range _ _ Hwc (S c) mc' Hc') as [H1' H2'].
        destruct mc' as [|m0 mc'']; [simpl in H1'; lia|].
        rewrite Hs'.
        rewrite ReaderAt_holds with (root := root)
          (id := Tracks.storeId id (Z.of_nat (S c))) (C := CS)
          (msgs := m0 :: mc'') (f := f') (i := 0%nat) (m := m0);
          [|done|done|lia|done|].
        2:{ pose proof (Hfit _ _ Hc'). pose proof (offset_of_bounds CS (m0 :: mc'') 0).
            lia. }
        cbn [mbind outcome_bind bind].
        rewrite (drop_S _ _ _ Hc') in Hn |- *. cbn [concat] in Hn |- *.
        destruct (IH (Tracks.mkStorageReader (Z.of_nat (S c) * CS)
                        (Some (sub_at root (Tracks.storeId id (Z.of_nat (S c))) CS
                                 (m0 :: mc'') 0)))
                    (S c) 0%nat (m0 :: mc'') Hc') as (sr' & Hrest);
          [simpl; lia| |done|].
        { split; cbn [Tracks.Offset Tracks.currentSub]; [lia|done]. }
        cbn [drop] in Hrest. unfold sub_at in Hrest. rewrite Hrest.
        cbn [mbind outcome_bind bind]. rewrite Htake. eauto.
      * rewrite opened_none by lia. cbn [mbind outcome_bind bind].
        rewrite (drop_ge chunks (S c)) in * by lia. cbn [concat length] in *.
        subst n. cbn [read_n mbind outcome_bind bind]. rewrite Htake. eauto.
    + (* the chunk is the last one and not full *)
      assert (Hlastc : ~ (S c < length chunks)%nat).
      { intros Hlt. apply Hpart. now apply (wc_full _ _ Hwc c). }
      destruct (chunk_div_mod CS (Z.of_nat c) (Z.of_nat i + 1) HCS ltac:(lia))
        as [Hdiv1 Hmod1].
      rewrite <- Z.add_assoc, Hmod1. rewrite decide_False by lia.
      cbn [mbind outcome_bind bind].
      rewrite (drop_ge chunks (S c)) in * by lia. cbn [concat length] in *.
      subst n. cbn [read_n mbind outcome_bind bind]. rewrite Htake. eauto.
Qed.

End ReadAllFacts.

(** ** A new track, written, opened again and read *)

Lemma total_chunk_le (chunks : list (list (list byte))) (c : nat) mc :
  chunks !! c = Some mc -> total mc <= total (concat chunks).
Proof.
  intros Hc. rewrite <- (take_drop_middle _ _ _ Hc).
  rewrite concat_app. cbn [concat]. rewrite !total_app.
  pose proof (total_nonneg (concat (take c chunks))).
  pose proof (total_nonneg (concat (drop (S c) chunks))). lia.
Qed.

Lemma length_chunked CS msgs : (length (chunked CS msgs) <= length msgs)%nat.
Proof.
  unfold chunked. induction msgs as [|m msgs IH] using rev_ind; [done|].
  rewrite foldl_snoc, length_app. simpl.
  pose proof (length_add_msg CS (foldl (add_msg CS) [] msgs) m). lia.
Qed.

(** A new track takes [msgs]; the track opened again from its files
    gives them back to a reader from offset 0, in order; its writer
    starts at the number of messages plus [CHUNK_SIZE]. *)
Lemma track_reopen CS root id (d0 : gmap string (list byte)) t0 msgs buflen :
  Tracks.stores t0 = [] -> Tracks.Id t0 = id -> Tracks.RootPath t0 = root ->
  Tracks.msgId t0 = 0 ->
  0 < CS ->
  hsize CS <= MaxInt64 ->
  (forall c : nat, d0 !! chunk_path root id c = None) ->
  msgs <> [] ->
  hsize CS + total msgs <= MaxInt64 ->
  (Z.of_nat (length msgs) + 2) * CS < two64 ->
  (forall m, m ∈ msgs -> (length m <= buflen)%nat) ->
  track_headers_in_file CS msgs ->
  exists d t t' sr sr',
    Tracks.writer_loop CS d0 t0 msgs = Ret (d, t) /\
    Tracks.alive t = Tracks.alive t0 /\
    Tracks.msgId t = Z.of_nat (length msgs) /\
    Tracks.OpenTrack CS d root id = Ret (d, t') /\
    Tracks.ReaderAt CS d t' 0 = Ret (Some sr, None) /\
    read_n CS d t' sr buflen (length msgs) = Ret (msgs, sr') /\
    (exists s, last (Tracks.stores t') = Some s /\
       (Z.of_nat (length (Tracks.stores t')) - 1) * CS + Size s
         = Z.of_nat (length msgs)) /\
    Tracks.msgId t' = Z.of_nat (length msgs) + CS /\
    forall m, Tracks.writer_step CS d t' m = Panic.
Proof.
  intros Hs0 Hid0 Hroot0 Hm0 HCS HCSmax Hnone Hne Hfit Hord Hbuf Hin.
  destruct (writer_loop_inv CS root id HCS HCSmax d0 t0
              [] msgs (empty_track_inv CS root id d0 t0 Hs0 Hid0 Hroot0 Hm0 Hnone))
    as (d & t & Hloop & Hinv & Halive0); [simpl; lia| |].
  { now apply track_headers_heads. }
  fold (chunked CS msgs) in Hinv. set (chunks := chunked CS msgs) in *.
  assert (Hcat : concat chunks = msgs) by apply concat_chunked.
  pose proof (length_chunked CS msgs) as Hlc. fold chunks in Hlc.
  destruct Hinv as [Hid Hroot Hstores HmsgId Hlast Hold Hdisk Hwc].
  assert (Hfitc : forall (c : nat) mc, chunks !! c = Some mc ->
            hsize CS + total mc <= MaxInt64).
  { intros c mc Hc. pose proof (total_chunk_le _ _ _ Hc). rewrite Hcat in *. lia. }
  destruct (OpenTrack_on_disk CS root id d chunks HCS HCSmax Hdisk Hwc Hfitc)
    as (t' & Hopen & Halive & Hid't & Hroot't & Hop & Hid').
  assert (Hc0 : exists mc0, chunks !! 0%nat = Some mc0).
  { destruct chunks as [|mc0 ?]; [|eauto]. simpl in Hcat. congruence. }
  destruct Hc0 as [mc0 Hc0].
  assert (Hbufc : forall (c i : nat) mc m,
            chunks !! c = Some mc -> mc !! i = Some m -> (length m <= buflen)%nat).
  { intros c i mc m Hc Hm. apply Hbuf. rewrite <- Hcat.
    rewrite <- (take_drop_middle _ _ _ Hc), concat_app. cbn [concat].
    apply list_elem_of_lookup_2 in Hm.
    rewrite !elem_of_app. auto. }
  assert (Hordc : (Z.of_nat (length chunks) + 1) * CS < two64) by nia.
  destruct (ReaderAt_first CS root id d chunks t' HCS Hwc Hfitc Hop mc0 Hc0)
    as (sr & Hra & Hat).
  destruct (wc_range _ _ Hwc 0%nat mc0 Hc0) as [H1 _].
  assert (Hsplit : chunks = mc0 :: drop 1 chunks).
  { rewrite <- (take_drop_middle _ _ _ Hc0) at 1. now rewrite take_0. }
  assert (Hall : mc0 ++ concat (drop 1 chunks) = msgs).
  { transitivity (concat (mc0 :: drop 1 chunks)); [reflexivity|].
    now rewrite <- Hsplit. }
  destruct (read_n_from CS root id d chunks t' buflen HCS Hwc Hfitc Hordc
              Halive Hop Hbufc (length msgs) sr 0%nat 0%nat mc0 Hc0 ltac:(lia) Hat)
    as (sr' & Hread).
  { rewrite drop_0. now rewrite Hall. }
  rewrite drop_0 in Hread. rewrite Hall in Hread.
  assert (Hnext : Tracks.msgId t' = next_ordinal CS chunks + CS).
  { rewrite Hid'. unfold next_ordinal.
    pose proof (next_ordinal_count CS chunks Hwc) as Hno.
    unfold next_ordinal in Hno. rewrite Hcat in Hno.
    destruct (last chunks) as [mc|] eqn:Hl.
    - rewrite wrap64_small; [lia|]. nia.
    - apply last_None in Hl. rewrite Hl in Hc0. done. }
  exists d, t, t', sr, sr'. split_and!; try done.
  - rewrite HmsgId, next_ordinal_count by done. now rewrite Hcat.
  - destruct Hop as [Hlen Hopall]. rewrite Nat.sub_0_r in Hlen.
    pose proof (next_ordinal_count CS chunks Hwc) as Hno.
    unfold next_ordinal in Hno. rewrite Hcat in Hno.
    rewrite last_lookup in Hno.
    destruct (lookup_lt_is_Some_2 (Tracks.stores t')
                (Init.Nat.pred (length chunks))) as [s Hs].
    { apply lookup_lt_Some in Hc0. lia. }
    destruct (Hopall _ _ Hs) as (mc & f & Hmc & Hh). simpl in Hmc.
    rewrite Hmc in Hno.
    exists s. rewrite last_lookup, Hlen. split; [done|].
    rewrite (ch_size _ _ _ _ _ _ _ Hh). lia.
  - rewrite Hnext, next_ordinal_count by done. now rewrite Hcat.
  - intros m.
    apply (writer_step_after_reopen CS root id d chunks HCS HCSmax Hdisk Hwc);
      try done.
    + intros E. rewrite E in Hc0. done.
    + nia.
    + destruct Hop as [Hl _]. lia.
Qed.

Lemma writer_loop_app CS (d : gmap string (list byte)) t q1 q2 :
  Tracks.writer_loop CS d t (q1 ++ q2) =
    '(d, t) ← Tracks.writer_loop CS d t q1; Tracks.writer_loop CS d t q2.
Proof.
  revert d t. induction q1 as [|m q1 IH]; intros d t; [done|].
  cbn [app Tracks.writer_loop].
  destruct (Tracks.writer_step CS d t m) as [[d1 t1]|]; [|done].
  cbn [mbind outcome_bind bind]. apply IH.
Qed.

(** ** A track that went past its first chunk *)

Lemma length_concat_le CS (chunks : list (list (list byte))) :
  0 <= CS ->
  (forall (c : nat) mc, chunks !! c = Some mc -> Z.of_nat (length mc) <= CS) ->
  Z.of_nat (length (concat chunks)) <= Z.of_nat (length chunks) * CS.
Proof.
  intros HCS. induction chunks as [|mc chunks IH]; intros Hle; [simpl; lia|].
  cbn [concat]. rewrite length_app. cbn [length].
  pose proof (Hle 0%nat mc eq_refl).
  assert (Z.of_nat (length (concat chunks)) <= Z.of_nat (length chunks) * CS).
  { apply IH. intros c mc' Hc. now apply (Hle (S c)). }
  lia.
Qed.

(** Once a new track has taken more than [CHUNK_SIZE] messages, the
    messages of its first chunk have no reader: [Track.ReaderAt]
    panics for their offsets, and so does [Read] on a reader that
    stands at one of them. *)
Lemma track_rollover CS root id (d0 : gmap string (list byte)) t0 msgs :
  Tracks.stores t0 = [] -> Tracks.Id t0 = id -> Tracks.RootPath t0 = root ->
  Tracks.msgId t0 = 0 -> Tracks.alive t0 = true ->
  0 < CS ->
  hsize CS <= MaxInt64 ->
  (forall c : nat, d0 !! chunk_path root id c = None) ->
  CS < Z.of_nat (length msgs) ->
  (Z.of_nat (length msgs) + 2) * CS < two64 ->
  track_headers_in_file CS msgs ->
  exists d t,
    Tracks.writer_loop CS d0 t0 msgs = Ret (d, t) /\
    Tracks.alive t = true /\
    (forall offset, 0 <= offset < CS -> Tracks.ReaderAt CS d t offset = Panic) /\
    (forall sr p, 0 <= Tracks.Offset sr < CS ->
       is_Some (Tracks.currentSub sr) -> Tracks.Read CS d t sr p = Panic).
Proof.
  intros Hs0 Hid0 Hroot0 Hm0 Ha0 HCS HCSmax Hnone Hlong Hord Hin.
  destruct (writer_loop_inv CS root id HCS HCSmax d0 t0
              [] msgs (empty_track_inv CS root id d0 t0 Hs0 Hid0 Hroot0 Hm0 Hnone))
    as (d & t & Hloop & Hinv & Halive); [simpl; lia| |].
  { now apply track_headers_heads. }
  rewrite Ha0 in Halive.
  fold (chunked CS msgs) in Hinv. set (chunks := chunked CS msgs) in *.
  assert (Hcat : concat chunks = msgs) by apply concat_chunked.
  destruct Hinv as [Hid Hroot Hstores HmsgId Hlast Hold Hdisk Hwc].
  assert (Htwo : (2 <= length chunks)%nat).
  { pose proof (length_concat_le CS chunks ltac:(lia)) as Hle.
    rewrite Hcat in Hle.
    assert (Z.of_nat (length msgs) <= Z.of_nat (length chunks) * CS).
    { apply Hle. intros c mc Hc. now apply (wc_range _ _ Hwc c). }
    nia. }
  destruct (lookup_lt_is_Some_2 (Tracks.stores t) 0%nat ltac:(lia)) as [s Hs].
  destruct (Hold 0%nat s Hs ltac:(lia)) as (d1 & s0 & -> & Hsz & Hcap & Hpath).
  destruct (lookup_lt_is_Some_2 chunks 0%nat ltac:(lia)) as [mc Hmc].
  destruct (tod_chunk _ _ _ _ _ Hdisk 0%nat mc Hmc) as (f & sc & Hh & _).
  assert (Hfile : is_Some (d !! path_of s0)).
  { rewrite Hpath. unfold chunk_path. rewrite (ch_disk _ _ _ _ _ _ _ Hh). eauto. }
  exists d, t. split; [done|]. split; [done|]. split.
  - intros offset Hoff.
    apply Track_ReaderAt_readonly with (d0 := d1) (s := s0); try done; try lia.
    + now rewrite Z.div_small by lia.
    + rewrite Z.mod_small by lia. lia.
    + rewrite Z.mod_small by lia. lia.
  - intros sr p Hoff [sub Hsub].
    apply Read_readonly with (d0 := d1) (s := s0) (sub := sub); try done; try lia.
    + now rewrite Z.div_small by lia.
    + rewrite Z.mod_small by lia. lia.
    + rewrite Z.mod_small by lia. lia.
Qed.

(** ** Sending, closing and waiting *)

Lemma writer_step_closed CS (d d' : gmap string (list byte)) t t' m :
  Tracks.writer_step CS d t m = Ret (d', t') ->
  Tracks.closed t' = Tracks.closed t.
Proof.
  unfold Tracks.writer_step. case_decide; [done|].
  assert (Hrest : forall (d1 : gmap string (list byte)) ss,
    match ss !! Z.to_nat (Tracks.msgId t / CS) with
    | Some s =>
        '(d2, s2, err) ← WriteMessage d1 s (to_int64 (Tracks.msgId t mod CS)) m;
        match err with
        | Some _ => Panic
        | None =>
            Ret (d2, Tracks.mkTrack (<[Z.to_nat (Tracks.msgId t / CS) := s2]> ss)
                       (Tracks.Id t) (Tracks.RootPath t) (Tracks.writeChan t)
                       (Tracks.closed t) (Tracks.alive t)
                       (wrap64 (Tracks.msgId t + 1)))
        end
    | None => Panic
    end = Ret (d', t') -> Tracks.closed t' = Tracks.closed t).
  { intros d1 ss. destruct (ss !! _) as [s|]; [|done].
    destruct (WriteMessage d1 s _ m) as [[[d2 s2] [e|]]|]; try done.
    cbn [mbind outcome_bind bind]. now intros [= _ <-]. }
  case_decide.
  - destruct (NewFileStorage _ _ _ _) as [[d1 s1]|]; [|done].
    cbn [mbind outcome_bind bind]. apply Hrest.
  - cbn [mbind outcome_bind bind]. apply Hrest.
Qed.

Lemma writer_loop_closed CS (d d' : gmap string (list byte)) t t' q :
  Tracks.writer_loop CS d t q = Ret (d', t') ->
  Tracks.closed t' = Tracks.closed t.
Proof.
  revert d t. induction q as [|m q IH]; intros d t; [now intros [= _ <-]|].
  cbn [Tracks.writer_loop].
  destruct (Tracks.writer_step CS d t m) as [[d1 t1]|] eqn:Hstep; [|done].
  cbn [mbind outcome_bind bind]. intros Hloop.
  rewrite (IH _ _ Hloop). eapply writer_step_closed; done.
Qed.

Lemma send_all t msgs :
  Tracks.closed t = false ->
  foldl (fun t m => fst (Tracks.WriteMessage t m)) t msgs =
    Tracks.mkTrack (Tracks.stores t) (Tracks.Id t) (Tracks.RootPath t)
      (Tracks.writeChan t ++ msgs) false (Tracks.alive t) (Tracks.msgId t).
Proof.
  revert t. induction msgs as [|m msgs IH]; intros t Hc.
  - simpl. rewrite app_nil_r. destruct t. simpl in *. now subst.
  - cbn [foldl]. unfold Tracks.WriteMessage at 2. rewrite Hc. cbn [fst].
    rewrite IH by done. cbn [Tracks.stores Tracks.Id Tracks.RootPath
      Tracks.writeChan Tracks.alive Tracks.msgId].
    now rewrite <- app_assoc.
Qed.

(** The producer's run comes to the writer task taking the messages in
    order and clearing [alive]. *)
Lemma write_close_wait_loop CS (d d' : gmap string (list byte)) t0 t' msgs :
  Tracks.closed t0 = false ->
  Tracks.writeChan t0 = [] ->
  Tracks.writer_loop CS d
    (Tracks.mkTrack (Tracks.stores t0) (Tracks.Id t0) (Tracks.RootPath t0) []
       true (Tracks.alive t0) (Tracks.msgId t0)) msgs = Ret (d', t') ->
  write_close_wait CS d t0 msgs =
    Ret (d', Tracks.mkTrack (Tracks.stores t') (Tracks.Id t') (Tracks.RootPath t')
               [] true false (Tracks.msgId t')).
Proof.
  intros Hc Hq Hloop. unfold write_close_wait.
  rewrite send_all by done. rewrite Hq. cbn [app].
  unfold Tracks.Close. cbn [Tracks.closed mbind outcome_bind bind].
  unfold Tracks.writer_task.
  cbn [Tracks.stores Tracks.Id Tracks.RootPath Tracks.writeChan Tracks.closed
       Tracks.alive Tracks.msgId].
  rewrite Hloop. cbn [mbind outcome_bind bind].
  apply writer_loop_closed in Hloop. cbn [Tracks.closed] in Hloop.
  now rewrite Hloop.
Qed.

(** * Part III: the claims *)

(** ** Claims about one chunk *)

(** C1.  A chunk made by [NewFileStorage] and filled by successful
    calls of [WriteMessage] with the payloads [msgs] gives every
    payload back: for each [i] below the size, [ReaderAt(i)] returns a
    reader and no error, [SizeOf(i)] is the length of payload [i], and
    reading that many bytes from the reader yields payload [i].  The
    creation and the writes do succeed when the capacity allows the
    messages, the offsets of the file fit a file offset, and the header
    is accessed inside the file. *)
Theorem C1_write_then_read (d : gmap string (list byte)) root id C msgs :
  0 <= C ->
  Z.of_nat (length msgs) <= C ->
  hsize C + total msgs <= MaxInt64 ->
  header_in_file (opened_length d (fname id root)) C msgs ->
  exists d0 s0 d' s',
    NewFileStorage d root id C = Ret (d0, s0) /\
    write_all d0 s0 0 msgs = Ret (d', s', None) /\
    Size s' = Z.of_nat (length msgs) /\
    forall (i : nat) m, msgs !! i = Some m ->
      exists r r',
        ReaderAt d' s' (Z.of_nat i) = Ret (Some r, None) /\
        SizeOf d' s' (Z.of_nat i) = Ret (Z.of_nat (length m), None) /\
        File_Read d' r (Z.of_nat (length m)) = (m, None, r').
Proof.
  intros HC0 Hlen Hfit Hin.
  assert (HCmax : hsize C <= MaxInt64) by (pose proof (total_nonneg msgs); lia).
  destruct (create_write_all_holds root id C HC0 HCmax d msgs Hlen
              (header_in_file_first C _ msgs Hin))
    as (d0 & s0 & d' & s' & f' & Hn & Hw & [Hh _] & _ & _).
  exists d0, s0, d', s'. split_and!; [done..|apply Hh|].
  intros i m Hm.
  pose proof (offset_of_bounds C msgs i) as Hb.
  assert (Hm_small : Z.of_nat (length m) < two64).
  { pose proof (offset_of_bounds C msgs (S i)) as Hb'.
    rewrite (offset_of_S _ _ _ _ Hm) in Hb'.
    unfold hsize, MaxInt64, two64 in *. lia. }
  eexists _, _. split_and!.
  - apply ReaderAt_holds with (msgs := msgs) (f := f') (m := m); [done..|lia].
  - now apply SizeOf_holds with (root := root) (id := id) (C := C) (msgs := msgs) (f := f').
  - apply File_Read_stored with (f := f'); cbn [r_path r_pos].
    + apply Hh.
    + unfold hsize in *. lia.
    + now apply Hh.
Qed.

Lemma C1_write_then_read_witness :
  0 <= 10 /\
  Z.of_nat (length [testData; take 4 testData]) <= 10 /\
  hsize 10 + total [testData; take 4 testData] <= MaxInt64 /\
  header_in_file (opened_length ∅ (fname "id" "")) 10 [testData; take 4 testData] /\
  exists d0 s0 d' s',
    NewFileStorage ∅ "" "id" 10 = Ret (d0, s0) /\
    write_all d0 s0 0 [testData; take 4 testData] = Ret (d', s', None) /\
    Size s' = Z.of_nat (length [testData; take 4 testData]) /\
    forall (i : nat) m, [testData; take 4 testData] !! i = Some m ->
      exists r r',
        ReaderAt d' s' (Z.of_nat i) = Ret (Some r, None) /\
        SizeOf d' s' (Z.of_nat i) = Ret (Z.of_nat (length m), None) /\
        File_Read d' r (Z.of_nat (length m)) = (m, None, r').
Proof.
  split; [lia|]. split; [vm_compute; discriminate|].
  split; [vm_compute; discriminate|].
  split; [left; vm_compute; discriminate|].
  apply (C1_write_then_read ∅ "" "id" 10 [testData; take 4 testData]).
  - lia.
  - vm_compute; discriminate.
  - vm_compute; discriminate.
  - left. vm_compute; discriminate.
Defined.

(** C7.  After [k] successful writes on a fresh chunk of capacity [C]
    the size is [k], entry [k] of the table of offsets is [H] plus the
    lengths of the payloads, and [SizeOf(i)] succeeds with the length
    of payload [i], the difference of the entries [i+1] and [i].  (The
    offsets do not wrap and the header is accessed inside the file.) *)
Theorem C7_size_and_offsets (d : gmap string (list byte)) root id C msgs :
  0 <= C ->
  hsize C <= MaxInt64 ->
  Z.of_nat (length msgs) <= C ->
  hsize C + total msgs < two64 ->
  header_in_file (opened_length d (fname id root)) C msgs ->
  exists d0 s0 d' s',
    NewFileStorage d root id C = Ret (d0, s0) /\
    write_all d0 s0 0 msgs = Ret (d', s', None) /\
    Size s' = Z.of_nat (length msgs) /\
    offsetTable d' s' (Z.of_nat (length msgs)) = Ret (hsize C + total msgs) /\
    forall (i : nat) m, msgs !! i = Some m ->
      SizeOf d' s' (Z.of_nat i) = Ret (Z.of_nat (length m), None) /\
      exists lo hi,
        offsetTable d' s' (Z.of_nat i) = Ret lo /\
        offsetTable d' s' (Z.of_nat i + 1) = Ret hi /\
        hi - lo = Z.of_nat (length m).
Proof.
  intros HC0 HCmax Hlen Hfit Hin.
  destruct (create_write_all_holds root id C HC0 HCmax d msgs Hlen
              (header_in_file_first C _ msgs Hin))
    as (d0 & s0 & d' & s' & f' & Hn & Hw & [Hh _] & _ & _).
  assert (Hoff : forall i : nat, (i <= length msgs)%nat ->
            offsetTable d' s' (Z.of_nat i) = Ret (offset_of C msgs i)).
  { intros i Hi. unfold offsetTable.
    rewrite (index_get_holds root id C d' s' msgs f' i Hh) by lia.
    f_equal. apply wrap64_small.
    pose proof (offset_of_bounds C msgs i). unfold hsize in *. lia. }
  exists d0, s0, d', s'. split_and!; [done..|apply Hh| |].
  - rewrite Hoff by lia. unfold offset_of. now rewrite take_ge by lia.
  - intros i m Hm. pose proof (lookup_lt_Some _ _ _ Hm) as Hi.
    pose proof (offset_of_bounds C msgs (S i)) as Hb.
    pose proof (offset_of_bounds C msgs i) as Hb0.
    rewrite (offset_of_S _ _ _ _ Hm) in Hb.
    split.
    + apply SizeOf_holds with (root := root) (id := id) (C := C) (msgs := msgs) (f := f');
        [done..|].
      unfold hsize in *. lia.
    + exists (offset_of C msgs i), (offset_of C msgs (S i)). split_and!.
      * apply Hoff. lia.
      * replace (Z.of_nat i + 1) with (Z.of_nat (S i)) by lia. apply Hoff. lia.
      * rewrite (offset_of_S _ _ _ _ Hm). lia.
Qed.

Lemma C7_size_and_offsets_witness :
  0 <= 10 /\ hsize 10 <= MaxInt64 /\
  Z.of_nat (length [testData; take 4 testData]) <= 10 /\
  hsize 10 + total [testData; take 4 testData] < two64 /\
  header_in_file (opened_length ∅ (fname "id" "")) 10 [testData; take 4 testData] /\
  exists d0 s0 d' s',
    NewFileStorage ∅ "" "id" 10 = Ret (d0, s0) /\
    write_all d0 s0 0 [testData; take 4 testData] = Ret (d', s', None) /\
    Size s' = 2 /\
    offsetTable d' s' 2 = Ret 116 /\
    forall (i : nat) m, [testData; take 4 testData] !! i = Some m ->
      SizeOf d' s' (Z.of_nat i) = Ret (Z.of_nat (length m), None) /\
      exists lo hi,
        offsetTable d' s' (Z.of_nat i) = Ret lo /\
        offsetTable d' s' (Z.of_nat i + 1) = Ret hi /\
        hi - lo = Z.of_nat (length m).
Proof.
  split; [lia|]. split; [vm_compute; discriminate|].
  split; [vm_compute; discriminate|]. split; [reflexivity|].
  split; [left; vm_compute; discriminate|].
  apply (C7_size_and_offsets ∅ "" "id" 10 [testData; take 4 testData]).
  - lia.
  - vm_compute; discriminate.
  - vm_compute; discriminate.
  - reflexivity.
  - left. vm_compute; discriminate.
Defined.






(** C4, at the input where the code departs from it.  A chunk of
    capacity 10 that is closed before anything was written and opened
    again has size 10: the loop of [Open] finds the first zero at word
    2 and sets the size to 0, which the next test takes for "no zero
    found".  The capacity is kept.  (The same defect makes [Open] panic
    on a chunk of capacity 0.) *)
Theorem C4_reopen_empty_chunk :
  ('(d, s) ← NewFileStorage ∅ "" "id" 10;
   let closed := Close s in
   '(d, s') ← Open d "" "id";
   Ret (Size closed, Capacity s', Size s')) = Ret (0, 10, 10)
  /\
  ('(d, s) ← NewFileStorage ∅ "" "id" 0;
   '(d, s') ← Open d "" "id";
   Ret (Size s')) = Panic.
Proof. split; vm_compute; reflexivity. Qed.

(** What holds of C4: a chunk that took at least one message, on a path
    that had no file, comes back from [Open] with its capacity, its
    size and its messages (the header being accessed inside the
    file). *)
Lemma reopen_keeps_messages (d : gmap string (list byte)) root id C msgs :
  (d !! fname id root = None \/ d !! fname id root = Some []) ->
  (1 <= length msgs)%nat ->
  Z.of_nat (length msgs) <= C ->
  hsize C + total msgs <= MaxInt64 ->
  header_in_file Getpagesize C msgs ->
  exists d0 s0 d' s' s'',
    NewFileStorage d root id C = Ret (d0, s0) /\
    write_all d0 s0 0 msgs = Ret (d', s', None) /\
    Open d' root id = Ret (d', s'') /\
    Capacity s'' = C /\
    Size s'' = Z.of_nat (length msgs) /\
    forall (i : nat) m, msgs !! i = Some m ->
      exists r r',
        ReaderAt d' s'' (Z.of_nat i) = Ret (Some r, None) /\
        SizeOf d' s'' (Z.of_nat i) = Ret (Z.of_nat (length m), None) /\
        File_Read d' r (Z.of_nat (length m)) = (m, None, r').
Proof.
  intros Hfresh Hk1 Hlen Hfit Hin.
  assert (HC0 : 0 <= C) by lia.
  assert (HCmax : hsize C <= MaxInt64) by (pose proof (total_nonneg msgs); lia).
  rewrite <- (opened_length_fresh d _ Hfresh) in Hin.
  destruct (create_write_all_holds root id C HC0 HCmax d msgs Hlen
              (header_in_file_first C _ msgs Hin))
    as (d0 & s0 & d' & s' & f' & Hn & Hw & [Hh _] & _ & Hz & _).
  destruct (Open_holds root id C HC0 HCmax d' s' msgs f' Hh (Hz Hfresh) Hk1 Hlen Hfit)
    as (s'' & Ho & Hh'' & _).
  exists d0, s0, d', s', s''. split_and!; [done..|apply Hh''|apply Hh''|].
  intros i m Hm.
  pose proof (offset_of_bounds C msgs i) as Hb.
  assert (Hm_small : Z.of_nat (length m) < two64).
  { pose proof (offset_of_bounds C msgs (S i)) as Hb'.
    rewrite (offset_of_S _ _ _ _ Hm) in Hb'.
    unfold hsize, MaxInt64, two64 in *. lia. }
  eexists _, _. split_and!.
  - apply ReaderAt_holds with (msgs := msgs) (f := f') (m := m); [done..|lia].
  - now apply SizeOf_holds with (root := root) (id := id) (C := C) (msgs := msgs) (f := f').
  - apply File_Read_stored with (f := f'); cbn [r_path r_pos].
    + apply Hh''.
    + unfold hsize in *. lia.
    + now apply Hh''.
Qed.

(** The defect of C4 at every capacity: an empty chunk comes back
    full. *)
Lemma reopen_empty_is_full (d : gmap string (list byte)) root id C :
  (d !! fname id root = None \/ d !! fname id root = Some []) ->
  1 <= C ->
  hsize C <= MaxInt64 ->
  exists d0 s0 s',
    NewFileStorage d root id C = Ret (d0, s0) /\
    Size s0 = 0 /\
    Open d0 root id = Ret (d0, s') /\
    Capacity s' = C /\ Size s' = C.
Proof.
  intros Hfresh HC1 HCmax. assert (HC0 : 0 <= C) by lia.
  destruct (NewFileStorage_holds root id C HC0 HCmax d)
    as (d0 & s0 & f0 & Hn & [Hh _] & _ & Hz & _).
  destruct (Open_empty root id C HC0 HCmax d0 s0 f0 Hh (Hz Hfresh) HC1)
    as (s' & Ho & Hc & Hs).
  exists d0, s0, s'. split_and!; try done. apply Hh.
Qed.

(** C5, at the input where the code departs from it.  A full chunk of
    two messages answers [SizeOf] and [ReaderAt]; after
    [switchToReadOnly] its [index] is the empty slice, and both calls
    panic.  ([SizeOf_switchToReadOnly] and [ReaderAt_switchToReadOnly]
    have the panic for every chunk and every message of it.) *)
Theorem C5_switchToReadOnly_breaks_reads :
  ('(d, s) ← NewFileStorage ∅ "" "id" 2;
   '(d, s, _) ← write_all d s 0 [testData; take 4 testData];
   let s' := switchToReadOnly d s in
   Ret (IsFull s, SizeOf d s 0, SizeOf d s 1, ReaderAt d s 0,
        index s', SizeOf d s' 0, SizeOf d s' 1, ReaderAt d s' 0))
  = Ret (true, Ret (16, None), Ret (4, None),
         Ret (Some (mkFileReader "/tmp/id" 32), None),
         Heap [], Panic, Panic, Panic).
Proof. vm_compute. reflexivity. Qed.


(** ** Claims about the track *)

Import Tracks.

(** C2, at an input where the code departs from it.  With the
    [CHUNK_SIZE] of the source, 500000: a new track is sent two
    messages and closed, and its writer task takes them and ends
    ([alive] is false).  The track opened again from the files has the
    two messages, and a reader from offset 0 returns them in order, the
    same bytes.  But its writer task starts at ordinal 500002, not at 2,
    the number of messages stored, and panics on whatever message it
    receives next.  ([track_reopen] has the same for every chunk size
    and every sequence of messages that leaves the headers of the
    chunks where they can be accessed; the defect is that of C3.) *)
Theorem C2_reopened_track :
  exists d t t' sr sr',
    write_close_wait CHUNK_SIZE_default ∅ (NewTrack "" "id")
      [testData; take 4 testData] = Ret (d, t) /\
    alive t = false /\
    OpenTrack CHUNK_SIZE_default d "" "id" = Ret (d, t') /\
    Tracks.ReaderAt CHUNK_SIZE_default d t' 0 = Ret (Some sr, None) /\
    read_n CHUNK_SIZE_default d t' sr 16 2
      = Ret ([testData; take 4 testData], sr') /\
    msgId t' = 500002 /\
    forall m, writer_step CHUNK_SIZE_default d t' m = Panic.
Proof.
  destruct (track_reopen CHUNK_SIZE_default "" "id" ∅
              (mkTrack [] "id" "" [] true true 0)
              [testData; take 4 testData] 16)
    as (d & t & t' & sr & sr' & Hloop & _ & _ & Hopen & Hra & Hrd & _ & Hid & Hpanic).
  1-5: reflexivity.
  1, 4: vm_compute; discriminate.
  - intros c. apply lookup_empty.
  - discriminate.
  - reflexivity.
  - intros m Hm. repeat (apply elem_of_cons in Hm as [->|Hm]); [simpl; lia..|].
    now apply elem_of_nil in Hm.
  - right. intros k m Hk _. apply list_elem_of_lookup_2 in Hk.
    repeat (apply elem_of_cons in Hk as [->|Hk]); [vm_compute; discriminate..|].
    now apply elem_of_nil in Hk.
  - exists d, (mkTrack (stores t) (Id t) (RootPath t) [] true false (msgId t)),
      t', sr, sr'.
    split; [|split; [reflexivity|]].
    + apply write_close_wait_loop; [reflexivity| reflexivity| exact Hloop].
    + split; [exact Hopen|]. split; [exact Hra|]. split; [exact Hrd|].
      split; [exact Hid | exact Hpanic].
Qed.

(** C3, at an input where the code departs from it.  With the
    [CHUNK_SIZE] of the source: the files of a track that took the
    three messages "0", "1", "2" are opened as [n = 1] chunk of size 3,
    so that [(n-1) * CHUNK_SIZE + size] is 3; the writer task of the
    track opened again starts at 500003, which is
    [n * CHUNK_SIZE + size] ([OpenTrack_msgId] has this for every
    track). *)
Theorem C3_OpenTrack_start_ordinal :
  exists d t t' s,
    write_close_wait CHUNK_SIZE_default ∅ (NewTrack "" "id") (ordinal_msgs 3)
      = Ret (d, t) /\
    OpenTrack CHUNK_SIZE_default d "" "id" = Ret (d, t') /\
    last (stores t') = Some s /\
    (Z.of_nat (length (stores t')) - 1) * CHUNK_SIZE_default + Size s = 3 /\
    msgId t' = Z.of_nat (length (stores t')) * CHUNK_SIZE_default + Size s /\
    msgId t' = 500003.
Proof.
  destruct (track_reopen CHUNK_SIZE_default "" "id" ∅
              (mkTrack [] "id" "" [] true true 0) (ordinal_msgs 3) 16)
    as (d & t & t' & sr & sr' & Hloop & _ & _ & Hopen & _ & _ & (s & Hs & Hn) & Hid & _).
  1-5: reflexivity.
  1, 4: vm_compute; discriminate.
  - intros c. apply lookup_empty.
  - discriminate.
  - reflexivity.
  - intros m Hm. repeat (apply elem_of_cons in Hm as [->|Hm]); [simpl; lia..|].
    now apply elem_of_nil in Hm.
  - right. intros k m Hk _. apply list_elem_of_lookup_2 in Hk.
    repeat (apply elem_of_cons in Hk as [->|Hk]); [vm_compute; discriminate..|].
    now apply elem_of_nil in Hk.
  - exists d, (mkTrack (stores t) (Id t) (RootPath t) [] true false (msgId t)),
      t', s.
    change (Z.of_nat (length (ordinal_msgs 3))) with 3 in Hn, Hid.
    split; [|split; [exact Hopen|]].
    + apply write_close_wait_loop; [reflexivity| reflexivity| exact Hloop].
    + split; [exact Hs|]. split; [exact Hn|].
      unfold CHUNK_SIZE_default in *. split; lia.
Qed.

(** C9, at an input where the code departs from it.  With the
    [CHUNK_SIZE] of the source: a reader is opened at offset 0 of a new
    track that holds one message; the writer then takes 500000 more
    messages, and so turns the first chunk read-only.  The message at
    offset 0 is still there, but [Read] on that reader panics, in
    [SizeOf], whatever the buffer.  ([Read_holds] has what the claim
    says for a reader over a chunk whose header is mapped;
    [track_rollover] has the panic for every chunk size; the defect is
    that of C5.) *)
Theorem C9_Read_after_rollover :
  exists d1 t1 sr d t,
    writer_loop CHUNK_SIZE_default ∅ (NewTrack "" "id") [ordinal_msg 0]
      = Ret (d1, t1) /\
    Tracks.ReaderAt CHUNK_SIZE_default d1 t1 0 = Ret (Some sr, None) /\
    writer_loop CHUNK_SIZE_default d1 t1 (ordinal_msg <$> seqZ 1 500000)
      = Ret (d, t) /\
    alive t = true /\
    forall p, Read CHUNK_SIZE_default d t sr p = Panic.
Proof.
  set (CS := CHUNK_SIZE_default).
  assert (HCS : 0 < CS) by reflexivity.
  assert (HCSmax : hsize CS <= MaxInt64) by (vm_compute; discriminate).
  assert (Hfresh : forall c : nat,
            (∅ : gmap string (list byte)) !! chunk_path "" "id" c = None)
    by (intros c; apply lookup_empty).
  (* the first message *)
  destruct (writer_loop_inv CS "" "id" HCS HCSmax ∅ (NewTrack "" "id") []
              [ordinal_msg 0]) as (d1 & t1 & Hloop1 & Hinv1 & _).
  { apply empty_track_inv; [reflexivity..|exact Hfresh]. }
  { reflexivity. }
  { intros k m Hk _. right. destruct k as [|k]; [|destruct k; discriminate Hk].
    injection Hk as <-. vm_compute; discriminate. }
  change (foldl (add_msg CS) [] [ordinal_msg 0]) with [[ordinal_msg 0]] in Hinv1.
  destruct (wi_last _ _ _ _ _ _ Hinv1 [ordinal_msg 0] eq_refl)
    as (s & f & Hls & [Hh _] & _).
  pose proof (wi_stores _ _ _ _ _ _ Hinv1) as Hlen1. simpl in Hlen1.
  assert (Hs0 : stores t1 !! 0%nat = Some s).
  { rewrite last_lookup, Hlen1 in Hls. exact Hls. }
  assert (Hra : Tracks.ReaderAt CS d1 t1 0 =
                Ret (Some (mkStorageReader 0
                       (Some (sub_at "" (storeId "id" (Z.of_nat 0)) CS
                                [ordinal_msg 0] 0))), None)).
  { apply Track_ReaderAt_holds with (s := s) (f := f) (m := ordinal_msg 0).
    all: first [ exact HCS | exact Hh | exact Hs0 | exact (Z.lt_le_incl _ _ HCS)
               | reflexivity | vm_compute; discriminate ]. }
  (* the messages after it *)
  destruct (track_rollover CS "" "id" ∅ (NewTrack "" "id")
              ([ordinal_msg 0] ++ (ordinal_msg <$> seqZ 1 500000)))
    as (d & t & Hloop & Halive & _ & Hread).
  1-5: reflexivity.
  1-3: assumption.
  1, 2: rewrite length_app, length_fmap, length_seqZ, Nat2Z.inj_add, Z2Nat.id by lia;
    reflexivity.
  { right. intros k m Hk Hmod.
    destruct k as [|k]; [injection Hk as <-; vm_compute; discriminate|].
    rewrite lookup_app_r in Hk by (cbn [length]; lia).
    rewrite list_lookup_fmap in Hk.
    destruct (seqZ 1 500000 !! (S k - length [ordinal_msg 0])%nat) as [i|] eqn:Hi;
      [|discriminate Hk].
    injection Hk as <-. apply lookup_seqZ in Hi. cbn [length] in Hi.
    change CS with 500000 in Hmod.
    apply Z.mod_divide in Hmod; [|lia]. destruct Hmod as [q Hq].
    assert (i = 500000) as -> by lia.
    vm_compute; discriminate. }
  rewrite writer_loop_app, Hloop1 in Hloop.
  cbn [mbind outcome_bind bind] in Hloop.
  eexists d1, t1, _, d, t.
  split; [exact Hloop1|]. split; [exact Hra|]. split; [exact Hloop|].
  split; [exact Halive|].
  intros p. apply Hread; cbn [Offset currentSub]; [split; [lia|exact HCS]|eauto].
Qed.

(** C10, at an input where the code departs from it.  With the
    [CHUNK_SIZE] of the source, on a new track whose writer has taken
    500001 messages, [Track.ReaderAt] panics for the offsets 0 and
    499999, which are in the chunk that was turned read-only.  (An
    error is returned for no offset, see [Track_ReaderAt_never_error];
    [track_rollover] has the panic for every chunk size; the defect is
    that of C5.) *)
Theorem C10_ReaderAt_after_rollover :
  exists d t,
    writer_loop CHUNK_SIZE_default ∅ (NewTrack "" "id") (ordinal_msgs 500001)
      = Ret (d, t) /\
    alive t = true /\
    Tracks.ReaderAt CHUNK_SIZE_default d t 0 = Panic /\
    Tracks.ReaderAt CHUNK_SIZE_default d t 499999 = Panic.
Proof.
  destruct (track_rollover CHUNK_SIZE_default "" "id" ∅ (NewTrack "" "id")
              (ordinal_msgs 500001))
    as (d & t & Hloop & Halive & Hra & _).
  1-6: reflexivity.
  - vm_compute; discriminate.
  - intros c. apply lookup_empty.
  - unfold ordinal_msgs. rewrite length_fmap, length_seqZ, Z2Nat.id by lia. reflexivity.
  - unfold ordinal_msgs. rewrite length_fmap, length_seqZ, Z2Nat.id by lia. reflexivity.
  - right. intros k m Hk Hmod. unfold ordinal_msgs in Hk.
    rewrite list_lookup_fmap in Hk.
    destruct (seqZ 0 500001 !! k) as [i|] eqn:Hi; [|discriminate Hk].
    injection Hk as <-. apply lookup_seqZ in Hi.
    change CHUNK_SIZE_default with 500000 in Hmod.
    apply Z.mod_divide in Hmod; [|lia]. destruct Hmod as [q Hq].
    assert (i = 0 \/ i = 500000) as [-> | ->] by lia; vm_compute; discriminate.
  - exists d, t. split; [exact Hloop|]. split; [exact Halive|].
    unfold CHUNK_SIZE_default in Hra. split; apply Hra; lia.
Qed.

(** ** The model run on the scenarios of the tests

    The same with [CHUNK_SIZE = 1000], the value of the tests, by
    running the definitions. *)

Example run_reopen_1000 :
  ('(d, t) ← write_close_wait 1000 ∅ (NewTrack "" "id") [testData; testData];
   '(d, t') ← OpenTrack 1000 d "" "id";
   '(r, e) ← Tracks.ReaderAt 1000 d t' 0;
   match r with
   | None => Panic
   | Some sr =>
       '(got, _) ← read_n 1000 d t' sr 16 2;
       Ret (alive t, msgId t, length (stores t'), Size <$> stores t', e, got,
            msgId t', writer_step 1000 d t' testData)
   end)
  = Ret (false, 2, 1%nat, [2], None, [testData; testData], 1002, Panic).
Proof. vm_compute. reflexivity. Qed.

Example run_rollover_1000 :
  ('(d, t) ← writer_loop 1000 ∅ (NewTrack "" "id") [ordinal_msg 0];
   '(r, _) ← Tracks.ReaderAt 1000 d t 0;
   match r with
   | None => Panic
   | Some sr =>
       x ← Read 1000 d t sr (replicate 100 x00);
       match x with
       | Returned n e sr' p =>
           '(d, t) ← writer_loop 1000 d t (ordinal_msg <$> seqZ 1 1000);
           Ret (n, e, Offset sr', take (Z.to_nat n) p,
                (fun s => (Size s, index s)) <$> stores t, alive t,
                Read 1000 d t sr (replicate 100 x00),
                Read 1000 d t sr [],
                Tracks.ReaderAt 1000 d t 0,
                Tracks.ReaderAt 1000 d t 1000,
                Tracks.ReaderAt 1000 d t 5000)
       | Blocked => Panic
       end
   end)
  = Ret (1, None, 1, ordinal_msg 0,
         [(1000, Heap []); (1, Mapped 1001)], true, Panic, Panic, Panic,
         Ret (Some (mkStorageReader 1000 (Some (mkFileReader "/tmp/id1" 8016))), None),
         Ret (Some (mkStorageReader 5000 None), None)).
Proof. vm_compute. reflexivity. Qed.

(** ** The mapping past the end of the file

    A chunk of capacity 600 has a header of 4816 bytes, and its new
    file has one page.  Messages that are empty leave the file as it
    is: after 510 of them the write of one more stores entry 511 of the
    table at byte 4096 and faults, and [Open] faults in its loop at the
    same word.  A message that is not empty takes the file past the
    header first, and is written. *)
Example run_header_fault :
  ('(d, s) ← NewFileStorage ∅ "" "id" 600;
   '(d, s, e) ← write_all d s 0 (replicate 510 []);
   Ret (e, Size s, length <$> d !! path_of s,
        returns (Chunk.WriteMessage d s 510 []),
        returns (Open d "" "id"),
        returns (Chunk.WriteMessage d s 510 testData)))
  = Ret (None, 510, Some 4096%nat, false, false, true).
Proof. vm_compute. reflexivity. Qed.

(** * Part IV: further properties of the code *)

(** ** Helper facts *)

(** A chunk that holds [msgs] gives each of them to a reader. *)
Lemma holds_readable (d : gmap string (list byte)) s root id C msgs f :
  0 <= C ->
  chunk_holds d s root id C msgs f ->
  Z.of_nat (length msgs) <= C ->
  hsize C + total msgs <= MaxInt64 ->
  forall (i : nat) m, msgs !! i = Some m ->
    exists r r',
      Chunk.ReaderAt d s (Z.of_nat i) = Ret (Some r, None) /\
      Chunk.SizeOf d s (Z.of_nat i) = Ret (Z.of_nat (length m), None) /\
      File_Read d r (Z.of_nat (length m)) = (m, None, r').
Proof.
  intros HC0 Hh Hlen Hfit i m Hm.
  assert (HCmax : hsize C <= MaxInt64) by (pose proof (total_nonneg msgs); lia).
  pose proof (offset_of_bounds C msgs i) as Hb.
  assert (Hm_small : Z.of_nat (length m) < two64).
  { pose proof (offset_of_bounds C msgs (S i)) as Hb'.
    rewrite (offset_of_S _ _ _ _ Hm) in Hb'.
    unfold hsize, MaxInt64, two64 in *. lia. }
  eexists _, _. split_and!.
  - apply ReaderAt_holds with (msgs := msgs) (f := f) (m := m); [done..|lia].
  - now apply SizeOf_holds with (root := root) (id := id) (C := C)
                                (msgs := msgs) (f := f).
  - apply File_Read_stored with (f := f); cbn [r_path r_pos].
    + apply Hh.
    + unfold hsize in *. lia.
    + now apply Hh.
Qed.

(** ** The chunks of a track *)

Lemma well_chunked_tail CS mc (chunks : list (list (list byte))) :
  well_chunked CS (mc :: chunks) -> well_chunked CS chunks.
Proof.
  intros [Hr Hf]. constructor.
  - intros c mc' Hc. now apply (Hr (S c)).
  - intros c mc' Hc Hlt. apply (Hf (S c)); [done|simpl; lia].
Qed.

(** Message [k] of a track is message [k mod CS] of chunk [k / CS]. *)
Lemma lookup_concat_chunks CS (chunks : list (list (list byte))) (k : nat) m :
  0 < CS -> well_chunked CS chunks ->
  concat chunks !! k = Some m ->
  exists mc,
    chunks !! Z.to_nat (Z.of_nat k / CS) = Some mc /\
    mc !! Z.to_nat (Z.of_nat k mod CS) = Some m.
Proof.
  intros HCS. revert k. induction chunks as [|mc chunks IH]; intros k Hwc Hk; [done|].
  cbn [concat] in Hk.
  destruct (wc_range _ _ Hwc 0%nat mc eq_refl) as [H1 H2].
  destruct (decide (k < length mc)%nat) as [Hin|Hout].
  - rewrite lookup_app_l in Hk by done. exists mc.
    rewrite Z.div_small, Z.mod_small by lia. rewrite Nat2Z.id. done.
  - rewrite lookup_app_r in Hk by lia.
    assert (Hne : chunks <> []).
    { intros ->. simpl in Hk. done. }
    assert (Hfull : Z.of_nat (length mc) = CS).
    { apply (wc_full _ _ Hwc 0%nat mc eq_refl).
      destruct chunks; [done|simpl; lia]. }
    destruct (IH (k - length mc)%nat (well_chunked_tail _ _ _ Hwc) Hk)
      as (mc' & Hc' & Hm').
    replace (Z.of_nat (k - length mc)) with (Z.of_nat k - 1 * CS) in Hc', Hm' by lia.
    rewrite Zminus_mod, Z.mul_1_l, Z_mod_same_full, Z.sub_0_r, Z.mod_mod in Hm' by lia.
    replace (Z.of_nat k - 1 * CS) with (Z.of_nat k + (-1) * CS) in Hc' by lia.
    rewrite Z.div_add in Hc' by lia.
    exists mc'. split; [|done].
    assert (1 <= Z.of_nat k / CS).
    { apply Z.div_le_lower_bound; lia. }
    replace (Z.to_nat (Z.of_nat k / CS))
      with (S (Z.to_nat (Z.of_nat k / CS + -1))) by lia.
    done.
Qed.

(** ** The writer of a new track *)

Lemma track_headers_app_l CS (msgs q : list (list byte)) :
  track_headers_in_file CS (msgs ++ q) -> track_headers_in_file CS msgs.
Proof.
  intros [Hp|Hne]; [now left|right].
  intros k m Hk. apply (Hne k m). now apply lookup_app_l_Some.
Qed.

Lemma track_headers_last CS (msgs : list (list byte)) m :
  track_headers_in_file CS (msgs ++ [m]) ->
  Z.of_nat (length msgs) mod CS = 0 ->
  hsize CS <= Getpagesize \/ m <> [].
Proof.
  intros [Hp|Hne] Hmod; [now left|right].
  apply (Hne (length msgs) m); [|done]. now apply list_lookup_middle.
Qed.

Lemma new_track_written CS root id (d0 : gmap string (list byte)) msgs :
  0 < CS -> hsize CS <= MaxInt64 ->
  (forall c : nat, d0 !! chunk_path root id c = None) ->
  (Z.of_nat (length msgs) + 2) * CS < two64 ->
  track_headers_in_file CS msgs ->
  exists d t chunks,
    Tracks.writer_loop CS d0 (Tracks.NewTrack root id) msgs = Ret (d, t) /\
    writer_inv CS d t root id chunks /\
    concat chunks = msgs /\
    Tracks.alive t = true /\ Tracks.closed t = false.
Proof.
  intros HCS HCSmax Hnone Hord Hin.
  destruct (writer_loop_inv CS root id HCS HCSmax d0 (Tracks.NewTrack root id)
              [] msgs) as (d & t & Hloop & Hinv & Halive); [|simpl; lia| |].
  { now apply empty_track_inv. }
  { now apply track_headers_heads. }
  exists d, t, (chunked CS msgs). split; [done|]. split; [done|].
  split; [apply concat_chunked|]. split; [done|].
  now rewrite (writer_loop_closed _ _ _ _ _ _ Hloop).
Qed.

(** The chunk being written: the last store, with its header mapped. *)
Lemma last_chunk_live CS (d : gmap string (list byte)) t root id chunks :
  writer_inv CS d t root id chunks -> chunks <> [] ->
  exists (c : nat) mc s f,
    length chunks = S c /\ chunks !! c = Some mc /\
    Tracks.stores t !! c = Some s /\
    chunk_writable d s root (Tracks.storeId id (Z.of_nat c)) CS mc f /\
    (1 <= length mc)%nat /\ Z.of_nat (length mc) <= CS /\
    Z.of_nat (length (concat chunks)) = Z.of_nat c * CS + Z.of_nat (length mc).
Proof.
  intros Hinv Hne.
  destruct (last chunks) as [mc|] eqn:Hl; [|now apply last_None in Hl].
  destruct (wi_last _ _ _ _ _ _ Hinv mc Hl) as (s & f & Hs & Hw & _).
  pose proof (next_ordinal_count CS chunks (wi_chunked _ _ _ _ _ _ Hinv)) as Hn.
  unfold next_ordinal in Hn. rewrite Hl in Hn.
  rewrite last_lookup in Hl. rewrite last_lookup in Hs.
  rewrite (wi_stores _ _ _ _ _ _ Hinv) in Hs.
  destruct (length chunks) as [|c] eqn:Hlen.
  { destruct chunks; done. }
  cbn [Init.Nat.pred] in Hl, Hs.
  replace (S c - 1)%nat with c in Hw by lia.
  destruct (wc_range _ _ (wi_chunked _ _ _ _ _ _ Hinv) c mc Hl) as [H1 H2].
  exists c, mc, s, f. split_and!; try done. lia.
Qed.

Lemma OpenTrack_alive CS (d d' : gmap string (list byte)) root id t :
  Tracks.OpenTrack CS d root id = Ret (d', t) ->
  Tracks.alive t = true /\ Tracks.closed t = false /\ Tracks.writeChan t = [].
Proof.
  unfold Tracks.OpenTrack.
  destruct (default Panic (Tracks.OpenTrack_loop (S (size d)) d root id 0 []))
    as [[d1 ss]|]; [|done].
  cbn [mbind outcome_bind bind]. now intros [= <- <-].
Qed.

(** Past the last message [Track.ReaderAt] sets no sub-reader. *)
Lemma Track_ReaderAt_past_end CS (d : gmap string (list byte)) t root id chunks offset :
  0 < CS ->
  writer_inv CS d t root id chunks ->
  Z.of_nat (length (concat chunks)) <= offset ->
  Tracks.ReaderAt CS d t offset
    = Ret (Some (Tracks.mkStorageReader offset None), None).
Proof.
  intros HCS Hinv Hoff. unfold Tracks.ReaderAt.
  rewrite decide_False by lia. rewrite decide_False by lia.
  destruct (decide (chunks = [])) as [->|Hne].
  - pose proof (wi_stores _ _ _ _ _ _ Hinv) as Hlen.
    destruct (Tracks.stores t); [|done]. now rewrite lookup_nil.
  - destruct (last_chunk_live _ _ _ _ _ _ Hinv Hne)
      as (c & mc & s & f & Hlen & Hc & Hs & [Hh _] & H1 & H2 & Hn).
    assert (Hq : Z.of_nat c <= offset / CS).
    { apply Z.div_le_lower_bound; lia. }
    destruct (decide (offset / CS = Z.of_nat c)) as [Heq|Hgt].
    + rewrite Heq, Nat2Z.id, Hs.
      rewrite decide_False; [done|].
      rewrite (ch_size _ _ _ _ _ _ _ Hh).
      pose proof (Z.div_mod offset CS ltac:(lia)) as Hdm.
      rewrite Heq in Hdm. lia.
    + rewrite lookup_ge_None_2; [done|].
      rewrite (wi_stores _ _ _ _ _ _ Hinv), Hlen. lia.
Qed.

(** ** Readers over the chunk being written *)

(** After a read, [handleRollover] keeps the sub-reader inside a chunk
    and drops it at the end of the last chunk. *)
Lemma handleRollover_last CS (d : gmap string (list byte)) t o sub :
  0 < CS ->
  (o mod CS = 0 -> Tracks.stores t !! Z.to_nat (o / CS) = None) ->
  Tracks.handleRollover CS d t (Tracks.mkStorageReader o (Some sub))
    = Ret (Tracks.mkStorageReader o
             (if decide (o mod CS = 0) then None else Some sub)).
Proof.
  intros HCS Hnone. unfold Tracks.handleRollover.
  rewrite decide_False by lia. cbn [Tracks.Offset Tracks.currentSub].
  case_decide as Hb; [|done]. now rewrite (Hnone Hb).
Qed.

(** The message of ordinal [k] of a track, when it is in the chunk
    being written: where it is, the reader [Track.ReaderAt] gives for
    it, and what [Read] does with that reader. *)
Lemma read_last_chunk CS (d : gmap string (list byte)) t root id chunks
    (k : nat) m :
  0 < CS -> hsize CS <= MaxInt64 ->
  writer_inv CS d t root id chunks ->
  Tracks.alive t = true ->
  concat chunks !! k = Some m ->
  Z.of_nat k / CS = Z.of_nat (length chunks) - 1 ->
  hsize CS + total (concat chunks) <= MaxInt64 ->
  (Z.of_nat (length (concat chunks)) + 2) * CS < two64 ->
  exists (c i : nat) mc s f,
    length chunks = S c /\ chunks !! c = Some mc /\ mc !! i = Some m /\
    Z.of_nat k = Z.of_nat c * CS + Z.of_nat i /\
    Tracks.stores t !! c = Some s /\
    chunk_writable d s root (Tracks.storeId id (Z.of_nat c)) CS mc f /\
    let sub := sub_at root (Tracks.storeId id (Z.of_nat c)) CS mc in
    Tracks.ReaderAt CS d t (Z.of_nat k)
      = Ret (Some (Tracks.mkStorageReader (Z.of_nat k) (Some (sub i))), None) /\
    forall p,
      Tracks.Read CS d t (Tracks.mkStorageReader (Z.of_nat k) (Some (sub i))) p =
        if decide (Z.of_nat (length m) > Z.of_nat (length p))
        then Ret (Tracks.Returned 0 (Some (ErrDoesNotFit (Z.of_nat (length m))))
                    (Tracks.mkStorageReader (Z.of_nat k) (Some (sub i))) p)
        else Ret (Tracks.Returned (Z.of_nat (length m)) None
                    (Tracks.mkStorageReader (Z.of_nat k + 1)
                       (if decide ((Z.of_nat k + 1) mod CS = 0) then None
                        else Some (sub (S i))))
                    (m ++ drop (length m) p)).
Proof.
  intros HCS HCSmax Hinv Halive Hk Hlastc Hfit Hord.
  assert (Hne : chunks <> []).
  { intros ->. simpl in Hk. done. }
  destruct (last_chunk_live _ _ _ _ _ _ Hinv Hne)
    as (c & mc & s & f & Hlen & Hc & Hs & Hw & H1 & H2 & Hn).
  destruct (lookup_concat_chunks CS chunks k m HCS (wi_chunked _ _ _ _ _ _ Hinv) Hk)
    as (mc' & Hc' & Hm').
  rewrite Hlastc, Hlen in Hc'.
  replace (Z.to_nat (Z.of_nat (S c) - 1)) with c in Hc' by lia.
  rewrite Hc in Hc'. injection Hc' as <-.
  set (i := Z.to_nat (Z.of_nat k mod CS)) in *.
  pose proof (Z.mod_pos_bound (Z.of_nat k) CS HCS) as Hmb.
  assert (Hki : Z.of_nat k = Z.of_nat c * CS + Z.of_nat i).
  { pose proof (Z.div_mod (Z.of_nat k) CS ltac:(lia)) as Hdm.
    rewrite Hlastc, Hlen in Hdm. unfold i. lia. }
  assert (Hmod : Z.of_nat k mod CS = Z.of_nat i) by (unfold i; lia).
  pose proof (lookup_lt_Some _ _ _ Hm') as Hi.
  pose proof Hw as [Hh _].
  assert (Hfitc : hsize CS + total mc <= MaxInt64).
  { pose proof (total_chunk_le _ _ _ Hc). lia. }
  assert (HC0 : 0 <= CS) by lia.
  assert (Hsk : Tracks.stores t !! Z.to_nat (Z.of_nat k / CS) = Some s).
  { rewrite Hlastc, Hlen. now replace (Z.to_nat (Z.of_nat (S c) - 1)) with c by lia. }
  exists c, i, mc, s, f. split_and!; try done.
  intros sub. split.
  - apply Track_ReaderAt_holds with (s := s) (f := f) (m := m); try done. lia.
  - intros p.
    rewrite (Read_holds CS d t root (Tracks.storeId id (Z.of_nat c)) CS s mc f
               HCS HC0 Hh H2 Hfitc _ p i m Halive); cbn [Tracks.Offset Tracks.currentSub];
      [|lia|done|done|done|done].
    case_decide; [done|].
    assert (Hklt : Z.of_nat k < Z.of_nat (length (concat chunks))).
    { apply lookup_lt_Some in Hk. lia. }
    rewrite wrap64_small by nia.
    rewrite handleRollover_last; [done|done|].
    intros Hb. apply lookup_ge_None_2.
    rewrite (wi_stores _ _ _ _ _ _ Hinv), Hlen.
    assert (Z.of_nat c + 1 <= (Z.of_nat k + 1) / CS); [|lia].
    apply Z.div_le_lower_bound; [lia|].
    apply Z.mod_divide in Hb; [|lia]. destruct Hb as [q Hq].
    assert (Z.of_nat c < q) by nia. nia.
Qed.

(** The chunk of the last message of a track. *)
Lemma last_chunk_index CS (d : gmap string (list byte)) t root id chunks :
  0 < CS ->
  writer_inv CS d t root id chunks -> chunks <> [] ->
  (Z.of_nat (length (concat chunks)) - 1) / CS = Z.of_nat (length chunks) - 1.
Proof.
  intros HCS Hinv Hne.
  destruct (last_chunk_live _ _ _ _ _ _ Hinv Hne)
    as (c & mc & s & f & Hlen & _ & _ & _ & H1 & H2 & Hn).
  rewrite Hn, Hlen.
  replace (Z.of_nat c * CS + Z.of_nat (length mc) - 1)
    with (Z.of_nat c * CS + (Z.of_nat (length mc) - 1)) by lia.
  destruct (chunk_div_mod CS (Z.of_nat c) (Z.of_nat (length mc) - 1) HCS ltac:(lia))
    as [-> _]. lia.
Qed.

(** ** A reader that waits for the next message *)

Lemma Read_body_alive CS (d : gmap string (list byte)) t sr p :
  Tracks.alive t = true ->
  Tracks.Read_body CS d t sr p = Tracks.Read CS d t sr p.
Proof. intros Ha. unfold Tracks.Read. now rewrite Ha. Qed.

(** The reader [sr1] stands at the end of a track: without a
    sub-reader when that is the start of a chunk, with its sub-reader
    at the end of the last chunk otherwise.  Once the writer has taken
    the message [m], the reader woken returns [m]. *)
Lemma served_after_write CS (d : gmap string (list byte)) t root id chunks m q sr1 :
  0 < CS -> hsize CS <= MaxInt64 ->
  writer_inv CS d t root id chunks ->
  Tracks.alive t = true ->
  hsize CS + total (concat chunks ++ [m]) <= MaxInt64 ->
  (Z.of_nat (length (concat chunks)) + 3) * CS < two64 ->
  Tracks.Offset sr1 = Z.of_nat (length (concat chunks)) ->
  (Z.of_nat (length (concat chunks)) mod CS = 0 -> Tracks.currentSub sr1 = None) ->
  (Z.of_nat (length (concat chunks)) mod CS <> 0 ->
   forall (c : nat) mc, length chunks = S c -> chunks !! c = Some mc ->
     Tracks.currentSub sr1
       = Some (sub_at root (Tracks.storeId id (Z.of_nat c)) CS mc (length mc))) ->
  (length m <= length q)%nat ->
  (Z.of_nat (length (concat chunks)) mod CS = 0 ->
   hsize CS <= Getpagesize \/ m <> []) ->
  exists d' t' sr2,
    Tracks.writer_step CS d t m = Ret (d', t') /\
    Tracks.Read_woken CS d' t' sr1 q
      = Ret (Tracks.Returned (Z.of_nat (length m)) None sr2
               (m ++ drop (length m) q)) /\
    Tracks.Offset sr2 = Z.of_nat (length (concat chunks)) + 1.
Proof.
  intros HCS HCSmax Hinv Halive Hfit Hord Hoff Hstart Hmid Hq Hhead.
  set (k := length (concat chunks)) in *.
  destruct (writer_step_inv CS root id HCS HCSmax d t chunks m Hinv)
    as (d' & t' & Hstep & Hinv' & Halive').
  { pose proof (length_concat_le CS chunks ltac:(lia)) as Hle.
    destruct (decide (chunks = [])) as [->|Hne]; [simpl in *; lia|].
    destruct (last_chunk_live _ _ _ _ _ _ Hinv Hne)
      as (c & mc & _ & _ & Hlen & _ & _ & _ & H1 & _ & Hn).
    fold k in Hn. rewrite Hlen. nia. }
  { rewrite (next_ordinal_count CS _ (wi_chunked _ _ _ _ _ _ Hinv)). exact Hhead. }
  rewrite Halive in Halive'.
  set (chunks' := add_msg CS chunks m) in *.
  assert (Hcat' : concat chunks' = concat chunks ++ [m]) by apply concat_add_msg.
  assert (Hk : concat chunks' !! k = Some m).
  { rewrite Hcat'. unfold k. apply list_lookup_middle. done. }
  assert (Hne' : chunks' <> []).
  { intros E. rewrite E in Hk. done. }
  assert (Hlastc : Z.of_nat k / CS = Z.of_nat (length chunks') - 1).
  { rewrite <- (last_chunk_index CS d' t' root id chunks' HCS Hinv' Hne').
    rewrite Hcat', length_app. fold k. simpl. f_equal. lia. }
  destruct (read_last_chunk CS d' t' root id chunks' k m HCS HCSmax Hinv' Halive' Hk
              Hlastc)
    as (c' & i' & mc' & s' & f' & Hlen' & Hc' & Hm' & Hki & Hs' & [Hh' _] & Hra & Hrd).
  { now rewrite Hcat'. }
  { rewrite Hcat', length_app. fold k. simpl. nia. }
  pose proof (lookup_lt_Some _ _ _ Hm') as Hi'.
  destruct (wc_range _ _ (wi_chunked _ _ _ _ _ _ Hinv') c' mc' Hc') as [_ H2'].
  destruct (chunk_div_mod CS (Z.of_nat c') (Z.of_nat i') HCS ltac:(lia))
    as [Hdiv Hmod].
  rewrite <- Hki in Hdiv, Hmod.
  exists d', t'. unfold Tracks.Read_woken, Tracks.handleRollover.
  rewrite decide_False by lia. rewrite Hoff.
  destruct (decide (Z.of_nat k mod CS = 0)) as [Hb|Hb].
  - (* the start of a chunk: the sub-reader is set on waking *)
    rewrite Hdiv, Nat2Z.id, Hs'.
    assert (i' = 0%nat) as -> by lia.
    assert (HC0 : 0 <= CS) by lia.
    rewrite ReaderAt_holds with (root := root)
      (id := Tracks.storeId id (Z.of_nat c')) (C := CS)
      (msgs := mc') (f := f') (i := 0%nat) (m := m); [|done..|].
    2:{ pose proof (offset_of_bounds CS mc' 0).
        pose proof (total_chunk_le _ _ _ Hc') as Hle. rewrite Hcat' in Hle. lia. }
    cbn [mbind outcome_bind bind].
    rewrite Read_body_alive by done.
    fold (sub_at root (Tracks.storeId id (Z.of_nat c')) CS mc' 0).
    rewrite (Hrd q). rewrite decide_False by lia.
    eexists. split; [done|]. split; reflexivity.
  - (* inside a chunk: the sub-reader is at the end of the messages read *)
    assert (Hne : chunks <> []).
    { intros ->. unfold k in Hb. simpl in Hb. now rewrite Z.mod_0_l in Hb by lia. }
    destruct (last_chunk_live _ _ _ _ _ _ Hinv Hne)
      as (c & mc & s & f & Hlen & Hc & Hs & _ & H1 & H2 & Hn).
    fold k in Hn.
    assert (Hroom : Z.of_nat (length mc) < CS).
    { destruct (decide (Z.of_nat (length mc) = CS)) as [E|]; [|lia].
      exfalso. apply Hb. rewrite Hn, E.
      replace (Z.of_nat c * CS + CS) with ((Z.of_nat c + 1) * CS) by lia.
      apply Z.mod_mul. lia. }
    assert (Hl : last chunks = Some mc).
    { rewrite last_lookup, Hlen. done. }
    assert (Hch' : chunks' = removelast chunks ++ [mc ++ [m]]).
    { unfold chunks', add_msg. rewrite Hl. now rewrite decide_True by done. }
    apply last_Some in Hl as [init Hinit].
    rewrite Hinit, removelast_last in Hch'.
    rewrite Hinit, length_app in Hlen. simpl in Hlen.
    rewrite Hch', length_app in Hlen'. simpl in Hlen'.
    assert (c' = c) as -> by lia.
    rewrite Hch' in Hc'. rewrite lookup_app_r in Hc' by lia.
    replace (c - length init)%nat with 0%nat in Hc' by lia.
    simpl in Hc'. injection Hc' as <-.
    assert (i' = length mc) as -> by lia.
    assert (Hsub1 := Hmid Hb c mc ltac:(rewrite Hinit, length_app; simpl; lia) Hc).
    destruct sr1 as [o1 sub1]. cbn [Tracks.Offset Tracks.currentSub] in Hoff, Hsub1.
    subst o1 sub1.
    cbn [mbind outcome_bind bind].
    rewrite Read_body_alive by done.
    assert (Hsub : sub_at root (Tracks.storeId id (Z.of_nat c)) CS mc (length mc)
                   = sub_at root (Tracks.storeId id (Z.of_nat c)) CS (mc ++ [m])
                       (length mc)).
    { unfold sub_at. now rewrite offset_of_snoc_le by lia. }
    rewrite Hsub, (Hrd q). rewrite decide_False by lia.
    eexists. split; [done|]. split; reflexivity.
Qed.

(** ** The earlier draft of the track *)

Section EarlierWriter.

Variables (CS : Z) (root id : string).
Hypothesis HCS : 0 < CS.
Hypothesis HCSmax : hsize CS <= MaxInt64.

Lemma earlier_step_append (d : gmap string (list byte)) t chunks mc m :
  Earlier.writer_inv CS d t root id (chunks ++ [mc]) ->
  Z.of_nat (length mc) < CS ->
  (Z.of_nat (length chunks) + 2) * CS < two64 ->
  exists d' t',
    Earlier.writer_step CS d t m = Ret (d', t') /\
    Earlier.writer_inv CS d' t' root id (chunks ++ [mc ++ [m]]) /\
    Tracks.alive t' = Tracks.alive t.
Proof.
  intros [Hid Hroot HmsgId Hlast [Hstores Hall] Hwc] Hroom Hord.
  rewrite next_ordinal_snoc in HmsgId.
  rewrite length_app, Nat.sub_0_r in Hstores. simpl in Hstores.
  destruct (Hlast mc (last_snoc _ _)) as (s & f & Hs & Hw).
  rewrite length_app in Hw. simpl in Hw.
  replace (length chunks + 1 - 1)%nat with (length chunks) in Hw by lia.
  set (n := length chunks) in *.
  destruct (chunk_div_mod CS (Z.of_nat n) (Z.of_nat (length mc)) HCS ltac:(lia))
    as [Hdiv Hmod].
  assert (HC0 : 0 <= CS) by lia.
  destruct (WriteMessage_holds root (Tracks.storeId id (Z.of_nat n)) CS HC0 HCSmax
              d s mc f m Hw Hroom) as (d' & s' & f' & Hwr & Hw' & Hfr & _).
  { intros ->.
    destruct (wc_range _ _ Hwc (length chunks) []) as [H1 _]; [|simpl in H1; lia].
    now apply list_lookup_middle. }
  assert (Hsl : Tracks.stores t !! n = Some s).
  { rewrite last_lookup in Hs. rewrite Hstores in Hs.
    now replace (Init.Nat.pred (n + 1)) with n in Hs by lia. }
  unfold Earlier.writer_step. rewrite decide_False by lia.
  rewrite HmsgId, Hdiv, Hmod. rewrite decide_False by lia.
  cbn [mbind outcome_bind bind]. rewrite Nat2Z.id, Hsl.
  rewrite to_int64_small by (unfold hsize in *; lia).
  rewrite Hwr. cbn [mbind outcome_bind bind].
  eexists _, _. split; [reflexivity|]. split; [|done].
  constructor; cbn [Tracks.Id Tracks.RootPath Tracks.stores Tracks.msgId].
  - done.
  - done.
  - rewrite next_ordinal_snoc, length_app. simpl. fold n.
    rewrite wrap64_small; [lia|]. unfold hsize, two64 in *. nia.
  - intros mc' Hmc'. rewrite last_snoc in Hmc'. injection Hmc' as <-.
    exists s', f'. split.
    + rewrite last_lookup, length_insert, Hstores.
      replace (Init.Nat.pred (n + 1)) with n by lia.
      apply list_lookup_insert_eq. lia.
    + rewrite length_app. simpl.
      now replace (length chunks + 1 - 1)%nat with n by lia.
  - split.
    + rewrite length_insert, length_app, Nat.sub_0_r. simpl. fold n. lia.
    + intros j s0 Hj. cbn [Nat.add].
      destruct (decide (j = n)) as [->|Hjn].
      * rewrite list_lookup_insert_eq in Hj by lia. injection Hj as <-.
        exists (mc ++ [m]), f'. split; [|apply Hw'].
        rewrite lookup_app_r by (fold n; lia).
        now replace (n - length chunks)%nat with 0%nat by (fold n; lia).
      * rewrite list_lookup_insert_ne in Hj by done.
        destruct (Hall j s0 Hj) as (mc0 & f0 & Hc0 & Hh0). cbn [Nat.add] in Hc0.
        pose proof (lookup_lt_Some _ _ _ Hj) as Hjlt.
        rewrite lookup_app_l in Hc0 by (fold n; lia).
        exists mc0, f0. split; [now apply lookup_app_l_Some|].
        eapply chunk_holds_frame; [done|]. apply Hfr.
        intros Heq. apply (chunk_path_inj root id j n) in Heq. lia.
  - constructor.
    + intros c mc' Hc. apply lookup_app_Some in Hc as [Hold'|[Hlen Hnew]].
      * apply (wc_range _ _ Hwc c). now apply lookup_app_l_Some.
      * destruct (c - length chunks)%nat as [|k] eqn:E; [|destruct k; done].
        simpl in Hnew. injection Hnew as <-.
        rewrite length_app. simpl. lia.
    + intros c mc' Hc Hlt. rewrite length_app in Hlt. simpl in Hlt.
      apply lookup_app_Some in Hc as [Hold'|[Hlen Hnew]]; [|lia].
      apply (wc_full _ _ Hwc c).
      * now apply lookup_app_l_Some.
      * rewrite length_app. simpl. lia.
Qed.

Lemma earlier_step_new_chunk (d : gmap string (list byte)) t chunks m :
  Earlier.writer_inv CS d t root id chunks ->
  (forall mc, last chunks = Some mc -> Z.of_nat (length mc) = CS) ->
  (Z.of_nat (length chunks) + 2) * CS < two64 ->
  hsize CS <= Getpagesize \/ m <> [] ->
  exists d' t',
    Earlier.writer_step CS d t m = Ret (d', t') /\
    Earlier.writer_inv CS d' t' root id (chunks ++ [[m]]) /\
    Tracks.alive t' = Tracks.alive t.
Proof.
  intros [Hid Hroot HmsgId Hlast [Hstores Hall] Hwc] Hfull Hord Hhead.
  rewrite (next_ordinal_full CS _ Hfull) in HmsgId.
  rewrite Nat.sub_0_r in Hstores.
  set (n := length chunks) in *.
  assert (HC0 : 0 <= CS) by lia.
  destruct (NewFileStorage_holds root (Tracks.storeId id (Z.of_nat n)) CS HC0 HCSmax d)
    as (d1 & s1 & f1 & Hnew & Hw1 & Hfr1 & _).
  destruct (WriteMessage_holds root (Tracks.storeId id (Z.of_nat n)) CS HC0 HCSmax
              d1 s1 [] f1 m Hw1 ltac:(simpl; lia))
    as (d2 & s2 & f2 & Hwr & Hw2 & Hfr2 & _).
  { intros _. destruct Hhead; auto. }
  change (Z.of_nat (length (@nil (list byte)))) with 0 in Hwr.
  change ([] ++ [m]) with [m] in Hw2.
  unfold Earlier.writer_step. rewrite decide_False by lia.
  rewrite HmsgId, Z.div_mul, Z.mod_mul by lia.
  rewrite Hstores. rewrite decide_True by done.
  rewrite Hroot, Hid, Hnew. cbn [mbind outcome_bind bind].
  rewrite Nat2Z.id. rewrite lookup_app_r by lia.
  replace (n - length (Tracks.stores t))%nat with 0%nat by lia.
  cbn [lookup list_lookup].
  change (to_int64 0) with 0. rewrite Hwr. cbn [mbind outcome_bind bind].
  eexists _, _. split; [reflexivity|]. split; [|done].
  assert (Hfr : forall c : nat, c <> n ->
            d2 !! chunk_path root id c = d !! chunk_path root id c).
  { intros c Hc. unfold chunk_path.
    assert (Hp : fname (Tracks.storeId id (Z.of_nat c)) root
                 <> fname (Tracks.storeId id (Z.of_nat n)) root).
    { intros Heq. apply (chunk_path_inj root id c n) in Heq. lia. }
    rewrite Hfr2, Hfr1; done. }
  constructor; cbn [Tracks.Id Tracks.RootPath Tracks.stores Tracks.msgId].
  - done.
  - done.
  - rewrite next_ordinal_snoc. fold n. simpl.
    rewrite wrap64_small; [lia|]. unfold two64 in *. nia.
  - intros mc' Hmc'. rewrite last_snoc in Hmc'. injection Hmc' as <-.
    exists s2, f2. split.
    + rewrite last_lookup, length_insert, length_app, Hstores. simpl.
      replace (Init.Nat.pred (n + 1)) with n by lia.
      apply list_lookup_insert_eq. rewrite length_app. simpl. lia.
    + rewrite length_app. simpl.
      now replace (length chunks + 1 - 1)%nat with n by (unfold n; lia).
  - split.
    + rewrite length_insert, !length_app, Nat.sub_0_r. simpl. fold n. lia.
    + intros j s0 Hj. cbn [Nat.add].
      destruct (decide (j = n)) as [->|Hjn].
      * rewrite list_lookup_insert_eq in Hj by (rewrite length_app; simpl; lia).
        injection Hj as <-. exists [m], f2. split; [|apply Hw2].
        rewrite lookup_app_r by (fold n; lia).
        now replace (n - length chunks)%nat with 0%nat by (fold n; lia).
      * rewrite list_lookup_insert_ne in Hj by done.
        pose proof (lookup_lt_Some _ _ _ Hj) as Hjlt.
        rewrite length_app in Hjlt. simpl in Hjlt.
        rewrite lookup_app_l in Hj by lia.
        destruct (Hall j s0 Hj) as (mc0 & f0 & Hc0 & Hh0). cbn [Nat.add] in Hc0.
        exists mc0, f0. split; [now apply lookup_app_l_Some|].
        eapply chunk_holds_frame; [done|]. now apply (Hfr j).
  - constructor.
    + intros c mc' Hc. apply lookup_app_Some in Hc as [Hold'|[Hlen Hnew']].
      * now apply (wc_range _ _ Hwc c).
      * destruct (c - length chunks)%nat as [|k] eqn:E; [|destruct k; done].
        simpl in Hnew'. injection Hnew' as <-. simpl. lia.
    + intros c mc' Hc Hlt. rewrite length_app in Hlt. simpl in Hlt.
      apply lookup_app_Some in Hc as [Hold'|[Hlen Hnew']]; [|lia].
      destruct (decide (S c < length chunks)%nat) as [Hin|Hlastc].
      * now apply (wc_full _ _ Hwc c).
      * apply Hfull. rewrite last_lookup.
        now replace (Init.Nat.pred (length chunks)) with c by lia.
Qed.

Lemma earlier_step_inv (d : gmap string (list byte)) t chunks m :
  Earlier.writer_inv CS d t root id chunks ->
  (Z.of_nat (length chunks) + 2) * CS < two64 ->
  (next_ordinal CS chunks mod CS = 0 -> hsize CS <= Getpagesize \/ m <> []) ->
  exists d' t',
    Earlier.writer_step CS d t m = Ret (d', t') /\
    Earlier.writer_inv CS d' t' root id (add_msg CS chunks m) /\
    Tracks.alive t' = Tracks.alive t.
Proof.
  intros Hinv Hord Hhead. unfold add_msg.
  destruct (last chunks) as [mc|] eqn:Hl.
  - case_decide as Hroom.
    + apply last_Some in Hl as [init ->]. rewrite removelast_last.
      apply earlier_step_append; [done..|].
      rewrite length_app in Hord. simpl in Hord. lia.
    + assert (Hfull : forall mc', last chunks = Some mc' ->
                Z.of_nat (length mc') = CS).
      { intros mc' Hmc'. rewrite Hl in Hmc'. injection Hmc' as <-.
        pose proof Hl as Hl'. rewrite last_lookup in Hl'.
        pose proof (wc_range _ _ (Earlier.ei_chunked _ _ _ _ _ _ Hinv) _ _ Hl'). lia. }
      apply earlier_step_new_chunk; [done|done|done|].
      apply Hhead. rewrite (next_ordinal_full CS _ Hfull). apply Z.mod_mul. lia.
  - apply last_None in Hl as ->.
    apply (earlier_step_new_chunk d t [] m); [done|done|done|].
    apply Hhead. reflexivity.
Qed.

Lemma earlier_loop_inv (d : gmap string (list byte)) t chunks msgs :
  Earlier.writer_inv CS d t root id chunks ->
  (Z.of_nat (length chunks + length msgs) + 2) * CS < two64 ->
  chunk_heads_ok CS (next_ordinal CS chunks) msgs ->
  exists d' t',
    Earlier.writer_loop CS d t msgs = Ret (d', t') /\
    Earlier.writer_inv CS d' t' root id (foldl (add_msg CS) chunks msgs) /\
    Tracks.alive t' = Tracks.alive t.
Proof.
  revert d t chunks.
  induction msgs as [|m msgs IH]; intros d t chunks Hinv Hord Hheads.
  - exists d, t. done.
  - simpl in Hord.
    destruct (earlier_step_inv d t chunks m Hinv) as (d1 & t1 & Hstep & Hinv1 & Ha1);
      [nia| |].
    { intros Hmod. apply (Hheads 0%nat m eq_refl). now rewrite Z.add_0_r. }
    pose proof (length_add_msg CS chunks m) as Hl.
    destruct (IH d1 t1 _ Hinv1) as (d2 & t2 & Hloop & Hinv2 & Ha2); [nia| |].
    { intros k m' Hk Hmod. apply (Hheads (S k) m' Hk).
      rewrite (next_ordinal_count CS _ (Earlier.ei_chunked _ _ _ _ _ _ Hinv1)) in Hmod.
      rewrite (next_ordinal_count CS _ (Earlier.ei_chunked _ _ _ _ _ _ Hinv)).
      rewrite concat_add_msg, length_app in Hmod. simpl in Hmod.
      now replace (Z.of_nat (length (concat chunks)) + Z.of_nat (S k))
        with (Z.of_nat (length (concat chunks) + 1) + Z.of_nat k) by lia. }
    exists d2, t2. split_and!; [|done|congruence].
    cbn [Earlier.writer_loop]. rewrite Hstep. exact Hloop.
Qed.

Lemma earlier_new_track_inv (d : gmap string (list byte)) :
  Earlier.writer_inv CS d (Tracks.NewTrack root id) root id [].
Proof.
  constructor; done.
Qed.

End EarlierWriter.

Section EarlierReader.

Variables (CS : Z) (root id : string) (d : gmap string (list byte)).
Variable chunks : list (list (list byte)).
Variable t : Tracks.Track.
Variable buflen : nat.
Hypothesis HCS : 0 < CS.
Hypothesis HCSmax : hsize CS <= MaxInt64.
Hypothesis Hwc : well_chunked CS chunks.
Hypothesis Hfit : forall (c : nat) mc, chunks !! c = Some mc ->
  hsize CS + total mc <= MaxInt64.
Hypothesis Hord : (Z.of_nat (length chunks) + 1) * CS < two64.
Hypothesis Halive : Tracks.alive t = true.
Hypothesis Hopen : opened_from CS d root id chunks 0 (Tracks.stores t).

(** [Read] of the earlier draft on a message that is there: a panic
    when the buffer is too small, the whole message otherwise. *)
Lemma earlier_Read_holds sr p (c i : nat) mc m :
  chunks !! c = Some mc ->
  mc !! i = Some m ->
  reader_at CS root id sr c i mc ->
  Earlier.Read CS d t sr p =
    if decide (Z.of_nat (length m) > Z.of_nat (length p)) then Panic
    else
      sr' ← Earlier.handleRollover CS d t
              (Tracks.mkStorageReader (Z.of_nat c * CS + Z.of_nat i + 1)
                 (Some (sub_at root (Tracks.storeId id (Z.of_nat c)) CS mc (S i))));
      Ret (Tracks.Returned (Z.of_nat (length m)) None sr'
             (m ++ drop (length m) p)).
Proof.
  intros Hc Hm [Hoff Hsub].
  destruct (opened_store CS root id d chunks t Hopen c mc Hc) as (s & f & Hs & Hh).
  destruct (wc_range _ _ Hwc c mc Hc) as [H1 H2].
  pose proof (lookup_lt_Some _ _ _ Hc) as Hclt.
  pose proof (lookup_lt_Some _ _ _ Hm) as Hi.
  destruct (chunk_div_mod CS (Z.of_nat c) (Z.of_nat i) HCS ltac:(lia))
    as [Hdiv Hmod].
  pose proof (Hfit c mc Hc) as Hfitc.
  pose proof (offset_of_bounds CS mc i) as Hb.
  pose proof (offset_of_bounds CS mc (S i)) as Hb'.
  rewrite (offset_of_S _ _ _ _ Hm) in Hb'.
  assert (HC0 : 0 <= CS) by lia.
  unfold Earlier.Read, Earlier.Read_body. rewrite Halive. cbn [negb].
  rewrite decide_False by lia. rewrite Hsub, Hoff, Hdiv, Hmod, Nat2Z.id, Hs.
  rewrite (ch_size _ _ _ _ _ _ _ Hh). rewrite decide_False by lia.
  rewrite SizeOf_holds with (root := root) (id := Tracks.storeId id (Z.of_nat c))
    (C := CS) (msgs := mc) (f := f) (m := m)
    by (done || unfold hsize, MaxInt64, two64 in *; lia).
  cbn [mbind outcome_bind bind].
  case_decide; [done|].
  rewrite (File_Read_stored d _ f m); cbn [r_path r_pos sub_at].
  - rewrite to_int64_small by (unfold hsize in *; lia).
    rewrite wrap64_small by nia.
    unfold sub_at. now rewrite (offset_of_S _ _ _ _ Hm).
  - apply Hh.
  - unfold hsize in *. lia.
  - now apply Hh.
Qed.

(** [handleRollover] of the earlier draft returns: the chunk it turns
    to, if there is one, has a first message. *)
Lemma earlier_handleRollover_ok o sub :
  0 <= o ->
  exists sr',
    Earlier.handleRollover CS d t (Tracks.mkStorageReader o sub) = Ret sr' /\
    Tracks.Offset sr' = o.
Proof.
  intros Ho. unfold Earlier.handleRollover. rewrite decide_False by lia.
  cbn [Tracks.Offset]. case_decide; [|eauto].
  destruct (Tracks.stores t !! Z.to_nat (o / CS)) as [s|] eqn:Hs; [|eauto].
  destruct Hopen as [_ Hall].
  destruct (Hall _ _ Hs) as (mc & f & Hc & Hh). cbn [Nat.add] in Hc, Hh.
  destruct (wc_range _ _ Hwc _ _ Hc) as [H1 H2].
  destruct mc as [|m0 mc']; [simpl in H1; lia|].
  assert (HC0 : 0 <= CS) by lia.
  rewrite ReaderAt_holds with (root := root)
    (id := Tracks.storeId id (Z.of_nat (Z.to_nat (o / CS)))) (C := CS)
    (msgs := m0 :: mc') (f := f) (i := 0%nat) (m := m0);
    [|done|done|lia|done|].
  - cbn [mbind outcome_bind bind]. eauto.
  - pose proof (Hfit _ _ Hc). pose proof (offset_of_bounds CS (m0 :: mc') 0). lia.
Qed.

Hypothesis Hbuf : forall (c i : nat) mc m,
  chunks !! c = Some mc -> mc !! i = Some m -> (length m <= buflen)%nat.

(** From message [i] of chunk [c] on, [n] reads return what is left of
    the chunk and the chunks after it. *)
Lemma earlier_read_n_from (n : nat) : forall sr (c i : nat) mc,
  chunks !! c = Some mc ->
  (i < length mc)%nat ->
  reader_at CS root id sr c i mc ->
  n = length (drop i mc ++ concat (drop (S c) chunks)) ->
  exists sr',
    Earlier.read_n CS d t sr buflen n
      = Ret (drop i mc ++ concat (drop (S c) chunks), sr').
Proof.
  induction n as [|n IH]; intros sr c i mc Hc Hi Hat Hn.
  { rewrite length_app, length_drop in Hn. lia. }
  destruct (wc_range _ _ Hwc c mc Hc) as [H1 H2].
  pose proof (lookup_lt_Some _ _ _ Hc) as Hclt.
  destruct (lookup_lt_is_Some_2 mc i Hi) as [m Hm].
  assert (Hrd := earlier_Read_holds sr (replicate buflen x00) c i mc m Hc Hm Hat).
  rewrite length_replicate in Hrd.
  rewrite decide_False in Hrd by (pose proof (Hbuf c i mc m Hc Hm); lia).
  rewrite (drop_S _ _ _ Hm). cbn [app].
  cbn [Earlier.read_n]. rewrite Hrd. clear Hrd.
  assert (Htake : take (Z.to_nat (Z.of_nat (length m)))
                    (m ++ drop (length m) (replicate buflen x00)) = m).
  { rewrite Nat2Z.id. now rewrite take_app_length. }
  rewrite (drop_S _ _ _ Hm) in Hn. cbn [app length] in Hn.
  injection Hn as Hn.
  unfold Earlier.handleRollover. rewrite decide_False by lia.
  cbn [Tracks.Offset Tracks.currentSub].
  destruct (decide (S i < length mc)%nat) as [Hmore|Hend].
  - (* the next message is in the same chunk *)
    destruct (chunk_div_mod CS (Z.of_nat c) (Z.of_nat i + 1) HCS ltac:(lia))
      as [Hdiv1 Hmod1].
    rewrite <- Z.add_assoc, Hmod1. rewrite decide_False by lia.
    cbn [mbind outcome_bind bind].
    destruct (IH (Tracks.mkStorageReader (Z.of_nat c * CS + (Z.of_nat i + 1))
                    (Some (sub_at root (Tracks.storeId id (Z.of_nat c)) CS mc (S i))))
                c (S i) mc Hc Hmore) as (sr' & Hrest); [|done|].
    { split; cbn [Tracks.Offset Tracks.currentSub]; [lia|done]. }
    rewrite Hrest. cbn [mbind outcome_bind bind]. rewrite Htake. eauto.
  - assert (Hlast_i : S i = length mc) by lia.
    rewrite (drop_ge mc (S i)) in * by lia. cbn [app] in *.
    destruct (decide (Z.of_nat (length mc) = CS)) as [Hfull|Hpart].
    + (* the chunk is full: the reader moves to the next chunk *)
      replace (Z.of_nat c * CS + Z.of_nat i + 1) with (Z.of_nat (S c) * CS) by lia.
      rewrite Z.mod_mul, Z.div_mul by lia. rewrite decide_True by done.
      rewrite Nat2Z.id.
      destruct (decide (S c < length chunks)%nat) as [Hnext|Hnone].
      * destruct (lookup_lt_is_Some_2 chunks (S c) Hnext) as [mc' Hc'].
        destruct (opened_store CS root id d chunks t Hopen (S c) mc' Hc')
          as (s' & f' & Hs' & Hh').
        destruct (wc_range _ _ Hwc (S c) mc' Hc') as [H1' H2'].
        destruct mc' as [|m0 mc'']; [simpl in H1'; lia|].
        rewrite Hs'.
        assert (HC0 : 0 <= CS) by lia.
        rewrite ReaderAt_holds with (root := root)
          (id := Tracks.storeId id (Z.of_nat (S c))) (C := CS)
          (msgs := m0 :: mc'') (f := f') (i := 0%nat) (m := m0);
          [|done|done|lia|done|].
        2:{ pose proof (Hfit _ _ Hc'). pose proof (offset_of_bounds CS (m0 :: mc'') 0).
            lia. }
        cbn [mbind outcome_bind bind].
        rewrite (drop_S _ _ _ Hc') in Hn |- *. cbn [concat] in Hn |- *.
        destruct (IH (Tracks.mkStorageReader (Z.of_nat (S c) * CS)
                        (Some (sub_at root (Tracks.storeId id (Z.of_nat (S c))) CS
                                 (m0 :: mc'') 0)))
                    (S c) 0%nat (m0 :: mc'') Hc') as (sr' & Hrest);
          [simpl; lia| |done|].
        { split; cbn [Tracks.Offset Tracks.currentSub]; [lia|done]. }
        cbn [drop] in Hrest. unfold sub_at in Hrest. rewrite Hrest.
        cbn [mbind outcome_bind bind]. rewrite Htake. eauto.
      * rewrite (opened_none CS root id d chunks t Hopen) by lia.
        cbn [mbind outcome_bind bind].
        rewrite (drop_ge chunks (S c)) in * by lia. cbn [concat length] in *.
        subst n. cbn [Earlier.read_n mbind outcome_bind bind]. rewrite Htake. eauto.
    + (* the chunk is the last one and not full *)
      assert (Hlastc : ~ (S c < length chunks)%nat).
      { intros Hlt. apply Hpart. now apply (wc_full _ _ Hwc c). }
      destruct (chunk_div_mod CS (Z.of_nat c) (Z.of_nat i + 1) HCS ltac:(lia))
        as [Hdiv1 Hmod1].
      rewrite <- Z.add_assoc, Hmod1. rewrite decide_False by lia.
      cbn [mbind outcome_bind bind].
      rewrite (drop_ge chunks (S c)) in * by lia. cbn [concat length] in *.
      subst n. cbn [Earlier.read_n mbind outcome_bind bind]. rewrite Htake. eauto.
Qed.

End EarlierReader.

(** ** [OpenTrack] over chunk files followed by a gap *)

Section GapFacts.

Variables (CS : Z) (root id : string) (d : gmap string (list byte)).
Variable chunks : list (list (list byte)).
Hypothesis HCS : 0 < CS.
Hypothesis HCSmax : hsize CS <= MaxInt64.
Hypothesis Hchunk : forall (c : nat) mc, chunks !! c = Some mc ->
  exists f s,
    chunk_holds d s root (Tracks.storeId id (Z.of_nat c)) CS mc f /\
    zeros_above f CS (Z.of_nat (length mc)).
Hypothesis Hgap : d !! chunk_path root id (length chunks) = None.
Hypothesis Hwc : well_chunked CS chunks.
Hypothesis Hfit : forall (c : nat) mc, chunks !! c = Some mc ->
  hsize CS + total mc <= MaxInt64.

Lemma OpenTrack_loop_gap fuel (c : nat) acc :
  (c <= length chunks)%nat ->
  Tracks.OpenTrack_loop fuel d root id (Z.of_nat c) acc = None \/
  exists ss,
    Tracks.OpenTrack_loop fuel d root id (Z.of_nat c) acc
      = Some (Ret (d, acc ++ ss)) /\
    opened_from CS d root id chunks c ss.
Proof.
  revert c acc. induction fuel as [|fuel IH]; intros c acc Hc; [now left|].
  cbn [Tracks.OpenTrack_loop]. unfold exists_.
  destruct (decide (c = length chunks)) as [->|Hne].
  - right. exists []. rewrite app_nil_r.
    pose proof Hgap as Habs. unfold chunk_path in Habs. rewrite Habs.
    rewrite bool_decide_eq_false_2 by (intros [? ?]; done).
    split; [done|]. split; [simpl; lia|]. intros j s0 Hj. done.
  - destruct (lookup_lt_is_Some_2 chunks c ltac:(lia)) as [mc Hmc].
    destruct (Hchunk c mc Hmc) as (f & s & Hh & Hz).
    destruct (wc_range _ _ Hwc c mc Hmc) as [H1 H2].
    assert (HC0 : 0 <= CS) by lia.
    destruct (Open_holds root (Tracks.storeId id (Z.of_nat c)) CS HC0 HCSmax
                d s mc f Hh Hz H1 H2 (Hfit c mc Hmc)) as (s' & Ho & Hh' & _).
    rewrite bool_decide_eq_true_2 by (rewrite (ch_disk _ _ _ _ _ _ _ Hh); eauto).
    rewrite Ho.
    replace (Z.of_nat c + 1) with (Z.of_nat (S c)) by lia.
    destruct (IH (S c) (acc ++ [s']) ltac:(lia)) as [Hnone|(ss & Hss & Hlen & Hall)];
      [now left|].
    right. exists (s' :: ss). split.
    + rewrite Hss. now rewrite <- app_assoc.
    + split; [simpl; lia|]. intros j s0 Hj. destruct j as [|j].
      * simpl in Hj. injection Hj as <-. exists mc, f.
        rewrite Nat.add_0_r. done.
      * simpl in Hj. destruct (Hall j s0 Hj) as (mc0 & f0 & Hc0 & Hh0).
        exists mc0, f0. now replace (c + S j)%nat with (S c + j)%nat by lia.
Qed.

Lemma OpenTrack_gap :
  exists t',
    Tracks.OpenTrack CS d root id = Ret (d, t') /\
    Tracks.alive t' = true /\
    opened_from CS d root id chunks 0 (Tracks.stores t').
Proof.
  destruct (OpenTrack_loop_gap (S (size d)) 0 [] ltac:(lia))
    as [Hnone|(ss & Hss & Hop)].
  { now apply OpenTrack_loop_fuel in Hnone. }
  unfold Tracks.OpenTrack. change (Z.of_nat 0) with 0 in Hss. rewrite Hss.
  cbn [default mbind outcome_bind bind app].
  eexists. split; [reflexivity|]. split; [reflexivity|]. exact Hop.
Qed.

End GapFacts.

(** ** The chunk *)

(** X1. Persistence of a chunk. A chunk created on a path with no file
    (or an empty one), filled with [k >= 1] messages and closed, is
    found again by [Open]: the capacity and the size are those of the
    chunk that was closed, every message is read back, and, when the
    chunk is not full, the handle stands where the next message goes.
    ([Close] flushes and releases the mapping and the handle; the disk
    is as the writes left it.) (The header is accessed inside the
    file: the file holds it, or the first message is not empty.) *)
Theorem chunk_close_open (d : gmap string (list byte)) root id C msgs :
  (d !! fname id root = None \/ d !! fname id root = Some []) ->
  (1 <= length msgs)%nat ->
  Z.of_nat (length msgs) <= C ->
  hsize C + total msgs <= MaxInt64 ->
  header_in_file Getpagesize C msgs ->
  exists d0 s0 d' s' s'',
    NewFileStorage d root id C = Ret (d0, s0) /\
    write_all d0 s0 0 msgs = Ret (d', s', None) /\
    file (Chunk.Close s') = None /\
    Open d' root id = Ret (d', s'') /\
    Capacity s'' = C /\
    Size s'' = Z.of_nat (length msgs) /\
    (Z.of_nat (length msgs) < C ->
     file s'' = Some (hsize C + total msgs)) /\
    forall (i : nat) m, msgs !! i = Some m ->
      exists r r',
        Chunk.ReaderAt d' s'' (Z.of_nat i) = Ret (Some r, None) /\
        Chunk.SizeOf d' s'' (Z.of_nat i) = Ret (Z.of_nat (length m), None) /\
        File_Read d' r (Z.of_nat (length m)) = (m, None, r').
Proof.
  intros Hfresh Hk1 Hlen Hfit Hin.
  assert (HC0 : 0 <= C) by lia.
  assert (HCmax : hsize C <= MaxInt64) by (pose proof (total_nonneg msgs); lia).
  rewrite <- (opened_length_fresh d _ Hfresh) in Hin.
  destruct (create_write_all_holds root id C HC0 HCmax d msgs Hlen
              (header_in_file_first C _ msgs Hin))
    as (d0 & s0 & d' & s' & f' & Hn & Hw & [Hh _] & _ & Hz & _).
  destruct (Open_holds root id C HC0 HCmax d' s' msgs f' Hh (Hz Hfresh) Hk1 Hlen Hfit)
    as (s'' & Ho & Hh'' & Hpos).
  exists d0, s0, d', s', s''.
  split; [done|]. split; [done|]. split; [done|]. split; [done|].
  split; [apply Hh''|]. split; [apply Hh''|]. split.
  - intros Hroom. rewrite (Hpos Hroom). unfold offset_of.
    now rewrite take_ge by lia.
  - now apply holds_readable with (root := root) (id := id) (C := C) (f := f').
Qed.

Lemma chunk_close_open_witness :
  ((∅ : gmap string (list byte)) !! fname "id" "" = None \/
   (∅ : gmap string (list byte)) !! fname "id" "" = Some []) /\
  (1 <= length [testData])%nat /\
  Z.of_nat (length [testData]) <= 10 /\
  hsize 10 + total [testData] <= MaxInt64 /\
  header_in_file Getpagesize 10 [testData] /\
  exists d0 s0 d' s' s'',
    NewFileStorage ∅ "" "id" 10 = Ret (d0, s0) /\
    write_all d0 s0 0 [testData] = Ret (d', s', None) /\
    file (Chunk.Close s') = None /\
    Open d' "" "id" = Ret (d', s'') /\
    Capacity s'' = 10 /\
    Size s'' = Z.of_nat (length [testData]) /\
    (Z.of_nat (length [testData]) < 10 ->
     file s'' = Some (hsize 10 + total [testData])) /\
    forall (i : nat) m, [testData] !! i = Some m ->
      exists r r',
        Chunk.ReaderAt d' s'' (Z.of_nat i) = Ret (Some r, None) /\
        Chunk.SizeOf d' s'' (Z.of_nat i) = Ret (Z.of_nat (length m), None) /\
        File_Read d' r (Z.of_nat (length m)) = (m, None, r').
Proof.
  split; [left; reflexivity|]. split; [simpl; lia|].
  split; [vm_compute; discriminate|]. split; [vm_compute; discriminate|].
  split; [left; vm_compute; discriminate|].
  apply (chunk_close_open ∅ "" "id" 10 [testData]).
  - left. reflexivity.
  - simpl. lia.
  - vm_compute; discriminate.
  - vm_compute; discriminate.
  - left; vm_compute; discriminate.
Defined.

(** X2. A chunk opened again goes on where it stopped. A chunk is
    created on a path with no file (or an empty one) and takes [k]
    messages, [1 <= k < C]. After [Open] of it, [WriteMessage(k, m)]
    succeeds, and the chunk then gives back the [k] old messages and
    [m]. (The header is accessed inside the file: the file holds it,
    or the first message is not empty.) *)
Theorem chunk_reopen_append (d : gmap string (list byte)) root id C msgs m :
  (d !! fname id root = None \/ d !! fname id root = Some []) ->
  (1 <= length msgs)%nat ->
  Z.of_nat (length msgs) < C ->
  hsize C + total (msgs ++ [m]) <= MaxInt64 ->
  header_in_file Getpagesize C msgs ->
  exists d0 s0 d1 s1 s2 d3 s3,
    NewFileStorage d root id C = Ret (d0, s0) /\
    write_all d0 s0 0 msgs = Ret (d1, s1, None) /\
    Open d1 root id = Ret (d1, s2) /\
    Chunk.WriteMessage d1 s2 (Z.of_nat (length msgs)) m = Ret (d3, s3, None) /\
    Size s3 = Z.of_nat (length msgs) + 1 /\
    forall (i : nat) m', (msgs ++ [m]) !! i = Some m' ->
      exists r r',
        Chunk.ReaderAt d3 s3 (Z.of_nat i) = Ret (Some r, None) /\
        Chunk.SizeOf d3 s3 (Z.of_nat i) = Ret (Z.of_nat (length m'), None) /\
        File_Read d3 r (Z.of_nat (length m')) = (m', None, r').
Proof.
  intros Hfresh Hk1 Hroom Hfit Hin.
  rewrite total_app, total_singleton in Hfit.
  assert (HC0 : 0 <= C) by lia.
  assert (HCmax : hsize C <= MaxInt64) by (pose proof (total_nonneg msgs); lia).
  rewrite <- (opened_length_fresh d _ Hfresh) in Hin.
  destruct (create_write_all_holds root id C HC0 HCmax d msgs ltac:(lia)
              (header_in_file_first C _ msgs Hin))
    as (d0 & s0 & d1 & s1 & f1 & Hn & Hw & [Hh _] & _ & Hz & _).
  destruct (Open_holds root id C HC0 HCmax d1 s1 msgs f1 Hh (Hz Hfresh) Hk1
              ltac:(lia) ltac:(lia)) as (s2 & Ho & Hh2 & Hpos).
  destruct (WriteMessage_holds root id C HC0 HCmax d1 s2 msgs f1 m
              (conj Hh2 (Hpos Hroom)) Hroom)
    as (d3 & s3 & f3 & Hwr & [Hh3 _] & _ & _).
  { intros ->. simpl in Hk1. lia. }
  exists d0, s0, d1, s1, s2, d3, s3.
  split; [done|]. split; [done|]. split; [done|]. split; [done|]. split.
  - rewrite (ch_size _ _ _ _ _ _ _ Hh3), length_app. simpl. lia.
  - apply holds_readable with (root := root) (id := id) (C := C) (f := f3);
      [done|done| |].
    + rewrite length_app. simpl. lia.
    + rewrite total_app, total_singleton. lia.
Qed.

Lemma chunk_reopen_append_witness :
  ((∅ : gmap string (list byte)) !! fname "id" "" = None \/
   (∅ : gmap string (list byte)) !! fname "id" "" = Some []) /\
  (1 <= length [testData])%nat /\
  Z.of_nat (length [testData]) < 10 /\
  hsize 10 + total ([testData] ++ [take 4 testData]) <= MaxInt64 /\
  header_in_file Getpagesize 10 [testData] /\
  exists d0 s0 d1 s1 s2 d3 s3,
    NewFileStorage ∅ "" "id" 10 = Ret (d0, s0) /\
    write_all d0 s0 0 [testData] = Ret (d1, s1, None) /\
    Open d1 "" "id" = Ret (d1, s2) /\
    Chunk.WriteMessage d1 s2 (Z.of_nat (length [testData])) (take 4 testData)
      = Ret (d3, s3, None) /\
    Size s3 = Z.of_nat (length [testData]) + 1 /\
    forall (i : nat) m', ([testData] ++ [take 4 testData]) !! i = Some m' ->
      exists r r',
        Chunk.ReaderAt d3 s3 (Z.of_nat i) = Ret (Some r, None) /\
        Chunk.SizeOf d3 s3 (Z.of_nat i) = Ret (Z.of_nat (length m'), None) /\
        File_Read d3 r (Z.of_nat (length m')) = (m', None, r').
Proof.
  split; [left; reflexivity|]. split; [simpl; lia|].
  split; [vm_compute; reflexivity|]. split; [vm_compute; discriminate|].
  split; [left; vm_compute; discriminate|].
  apply (chunk_reopen_append ∅ "" "id" 10 [testData] (take 4 testData)).
  - left. reflexivity.
  - simpl. lia.
  - vm_compute; reflexivity.
  - vm_compute; discriminate.
  - left; vm_compute; discriminate.
Defined.

(** X3. A chunk created on a path with no file (or an empty one) and
    closed before any message was written comes back full. [Open]
    finds the first zero of the header at word 2, which gives size 0,
    and a size of 0 after the loop is taken for a header without a
    zero: the size becomes the capacity. The chunk opened is full and
    refuses the message of ordinal 0 as out of order. *)
Theorem empty_chunk_reopens_full (d : gmap string (list byte)) root id C data :
  (d !! fname id root = None \/ d !! fname id root = Some []) ->
  1 <= C ->
  hsize C <= MaxInt64 ->
  exists d0 s0 s',
    NewFileStorage d root id C = Ret (d0, s0) /\
    Size s0 = 0 /\
    Open d0 root id = Ret (d0, s') /\
    Capacity s' = C /\ Size s' = C /\
    IsFull s' = true /\
    Chunk.WriteMessage d0 s' 0 data = Ret (d0, s', Some (ErrOutOfOrder C 0)).
Proof.
  intros Hfresh HC1 HCmax. assert (HC0 : 0 <= C) by lia.
  destruct (NewFileStorage_holds root id C HC0 HCmax d)
    as (d0 & s0 & f0 & Hn & [Hh _] & _ & Hz & _).
  destruct (Open_empty root id C HC0 HCmax d0 s0 f0 Hh (Hz Hfresh) HC1)
    as (s' & Ho & Hc & Hs).
  exists d0, s0, s'. split; [done|]. split; [apply Hh|]. split; [done|].
  split; [done|]. split; [done|]. split.
  - unfold IsFull. apply bool_decide_eq_true_2. congruence.
  - unfold Chunk.WriteMessage. change (wrap64 0) with 0.
    rewrite decide_True by lia. now rewrite Hs.
Qed.

Lemma empty_chunk_reopens_full_witness :
  ((∅ : gmap string (list byte)) !! fname "id" "" = None \/
   (∅ : gmap string (list byte)) !! fname "id" "" = Some []) /\
  1 <= 10 /\ hsize 10 <= MaxInt64 /\
  exists d0 s0 s',
    NewFileStorage ∅ "" "id" 10 = Ret (d0, s0) /\
    Size s0 = 0 /\
    Open d0 "" "id" = Ret (d0, s') /\
    Capacity s' = 10 /\ Size s' = 10 /\
    IsFull s' = true /\
    Chunk.WriteMessage d0 s' 0 testData = Ret (d0, s', Some (ErrOutOfOrder 10 0)).
Proof.
  split; [left; reflexivity|]. split; [lia|]. split; [vm_compute; discriminate|].
  apply (empty_chunk_reopens_full ∅ "" "id" 10 testData).
  - left. reflexivity.
  - lia.
  - vm_compute; discriminate.
Defined.

(** X4. [IsFull] and the capacity. After [k <= C] writes on a new
    chunk of capacity [C], [IsFull] holds exactly when [k = C]. A full
    chunk answers the next write with the "out of bounds" error and
    changes nothing; a chunk that is not full takes it. (The header is
    accessed inside the file, for these messages and the next one.) *)
Theorem chunk_full_or_writable (d : gmap string (list byte)) root id C msgs data :
  0 <= C ->
  hsize C <= MaxInt64 ->
  Z.of_nat (length msgs) <= C ->
  header_in_file (opened_length d (fname id root)) C (msgs ++ [data]) ->
  exists d0 s0 d' s',
    NewFileStorage d root id C = Ret (d0, s0) /\
    write_all d0 s0 0 msgs = Ret (d', s', None) /\
    IsFull s' = bool_decide (Z.of_nat (length msgs) = C) /\
    (Z.of_nat (length msgs) = C ->
     Chunk.WriteMessage d' s' C data
       = Ret (d', s', Some (ErrOutOfBounds C C))) /\
    (Z.of_nat (length msgs) < C ->
     exists d'' s'',
       Chunk.WriteMessage d' s' (Z.of_nat (length msgs)) data
         = Ret (d'', s'', None) /\
       Size s'' = Z.of_nat (length msgs) + 1 /\
       IsFull s'' = bool_decide (Z.of_nat (length msgs) + 1 = C)).
Proof.
  intros HC0 HCmax Hlen Hin.
  pose proof (header_in_file_first C _ _ Hin) as Hfirst.
  destruct (create_write_all_holds root id C HC0 HCmax d msgs Hlen)
    as (d0 & s0 & d' & s' & f' & Hn & Hw & Hwr & _ & _ & Hl).
  { destruct Hfirst as [?|[Hh|?]]; [auto| |auto].
    right; left. destruct msgs; [done|exact Hh]. }
  pose proof Hwr as [Hh _].
  exists d0, s0, d', s'. split; [done|]. split; [done|]. split; [|split].
  - unfold IsFull.
    now rewrite (ch_size _ _ _ _ _ _ _ Hh), (ch_cap _ _ _ _ _ _ _ Hh).
  - intros Hfull. unfold Chunk.WriteMessage.
    rewrite (ch_size _ _ _ _ _ _ _ Hh), (ch_cap _ _ _ _ _ _ _ Hh).
    rewrite wrap64_small by (unfold hsize, MaxInt64, two64 in *; lia).
    rewrite decide_False by lia. now rewrite decide_True by lia.
  - intros Hroom.
    destruct (WriteMessage_holds root id C HC0 HCmax d' s' msgs f' data Hwr Hroom)
      as (d'' & s'' & f'' & Hwm & [Hh'' _] & _ & _).
    { intros ->. destruct Hfirst as [?|[Hhd|?]]; [auto| |right; right; lia].
      right; left. intros ->. now apply Hhd. }
    exists d'', s''. split; [done|].
    assert (Hsz : Size s'' = Z.of_nat (length msgs) + 1).
    { rewrite (ch_size _ _ _ _ _ _ _ Hh''), length_app. simpl. lia. }
    split; [done|]. unfold IsFull.
    now rewrite Hsz, (ch_cap _ _ _ _ _ _ _ Hh'').
Qed.

Lemma chunk_full_or_writable_witness :
  0 <= 2 /\ hsize 2 <= MaxInt64 /\
  Z.of_nat (length [testData; testData]) <= 2 /\
  header_in_file (opened_length ∅ (fname "id" "")) 2
    ([testData; testData] ++ [testData]) /\
  exists d0 s0 d' s',
    NewFileStorage ∅ "" "id" 2 = Ret (d0, s0) /\
    write_all d0 s0 0 [testData; testData] = Ret (d', s', None) /\
    IsFull s' = bool_decide (Z.of_nat (length [testData; testData]) = 2) /\
    (Z.of_nat (length [testData; testData]) = 2 ->
     Chunk.WriteMessage d' s' 2 testData
       = Ret (d', s', Some (ErrOutOfBounds 2 2))) /\
    (Z.of_nat (length [testData; testData]) < 2 ->
     exists d'' s'',
       Chunk.WriteMessage d' s' (Z.of_nat (length [testData; testData])) testData
         = Ret (d'', s'', None) /\
       Size s'' = Z.of_nat (length [testData; testData]) + 1 /\
       IsFull s'' = bool_decide (Z.of_nat (length [testData; testData]) + 1 = 2)).
Proof.
  split; [lia|]. split; [vm_compute; discriminate|].
  split; [vm_compute; discriminate|].
  split; [left; vm_compute; discriminate|].
  apply (chunk_full_or_writable ∅ "" "id" 2 [testData; testData] testData).
  - lia.
  - vm_compute; discriminate.
  - vm_compute; discriminate.
  - left; vm_compute; discriminate.
Defined.

(** X5. A chunk writes to its own file only. On any disk, the creation
    of a chunk and its writes leave every other path of the disk as it
    was. (The header is accessed inside the file: the file holds it,
    or the first message is not empty.) *)
Theorem chunk_touches_own_file (d : gmap string (list byte)) root id C msgs :
  0 <= C ->
  hsize C <= MaxInt64 ->
  Z.of_nat (length msgs) <= C ->
  header_in_file (opened_length d (fname id root)) C msgs ->
  exists d0 s0 d' s',
    NewFileStorage d root id C = Ret (d0, s0) /\
    write_all d0 s0 0 msgs = Ret (d', s', None) /\
    path_of s' = fname id root /\
    is_Some (d' !! fname id root) /\
    forall p, p <> fname id root -> d' !! p = d !! p.
Proof.
  intros HC0 HCmax Hlen Hin.
  destruct (create_write_all_holds root id C HC0 HCmax d msgs Hlen
              (header_in_file_first C _ msgs Hin))
    as (d0 & s0 & d' & s' & f' & Hn & Hw & [Hh _] & Hfr & _).
  exists d0, s0, d', s'. split; [done|]. split; [done|]. split.
  - unfold path_of.
    now rewrite (ch_id _ _ _ _ _ _ _ Hh), (ch_root _ _ _ _ _ _ _ Hh).
  - split; [|done]. rewrite (ch_disk _ _ _ _ _ _ _ Hh). eauto.
Qed.

Lemma chunk_touches_own_file_witness :
  0 <= 10 /\ hsize 10 <= MaxInt64 /\
  Z.of_nat (length [testData]) <= 10 /\
  header_in_file (opened_length (<["/tmp/other" := [x01]]> ∅) (fname "id" "")) 10
    [testData] /\
  exists d0 s0 d' s',
    NewFileStorage (<["/tmp/other" := [x01]]> ∅) "" "id" 10 = Ret (d0, s0) /\
    write_all d0 s0 0 [testData] = Ret (d', s', None) /\
    path_of s' = fname "id" "" /\
    is_Some (d' !! fname "id" "") /\
    forall p, p <> fname "id" "" ->
      d' !! p = (<["/tmp/other" := [x01]]> ∅ : gmap string (list byte)) !! p.
Proof.
  split; [lia|]. split; [vm_compute; discriminate|].
  split; [vm_compute; discriminate|].
  split; [left; vm_compute; discriminate|].
  apply (chunk_touches_own_file (<["/tmp/other" := [x01]]> ∅) "" "id" 10 [testData]).
  - lia.
  - vm_compute; discriminate.
  - vm_compute; discriminate.
  - left; vm_compute; discriminate.
Defined.

(** ** The track *)

(** X6. Persistence of a track. A new track, on a disk without chunk
    files of its name, is sent the messages [msgs] and closed, and its
    writer task takes them all and ends. [OpenTrack] then finds the
    chunk files: the track it returns is alive, its stores hold as
    many messages as were sent, and a reader from offset 0 returns
    [msgs] in order, message by message, across the chunk files. (The
    header of every chunk file is accessed inside the file: it fits
    the page of a new file, or the first message of every chunk is not
    empty.) *)
Theorem track_close_open CS root id (d0 : gmap string (list byte)) msgs buflen :
  0 < CS ->
  hsize CS <= MaxInt64 ->
  (forall c : nat, d0 !! chunk_path root id c = None) ->
  msgs <> [] ->
  hsize CS + total msgs <= MaxInt64 ->
  (Z.of_nat (length msgs) + 2) * CS < two64 ->
  (forall m, m ∈ msgs -> (length m <= buflen)%nat) ->
  track_headers_in_file CS msgs ->
  exists d t t' sr sr',
    write_close_wait CS d0 (Tracks.NewTrack root id) msgs = Ret (d, t) /\
    Tracks.alive t = false /\
    Tracks.OpenTrack CS d root id = Ret (d, t') /\
    Tracks.alive t' = true /\
    (exists s, last (Tracks.stores t') = Some s /\
       (Z.of_nat (length (Tracks.stores t')) - 1) * CS + Size s
         = Z.of_nat (length msgs)) /\
    Tracks.ReaderAt CS d t' 0 = Ret (Some sr, None) /\
    read_n CS d t' sr buflen (length msgs) = Ret (msgs, sr').
Proof.
  intros HCS HCSmax Hnone Hne Hfit Hord Hbuf Hin.
  destruct (track_reopen CS root id d0
              (Tracks.mkTrack [] id root [] true true 0) msgs buflen)
    as (d & t & t' & sr & sr' & Hloop & _ & _ & Hopen & Hra & Hrd & Hcount & _);
    [reflexivity..|done|done|done|done|done|done|done|done|].
  exists d, (Tracks.mkTrack (Tracks.stores t) (Tracks.Id t) (Tracks.RootPath t)
               [] true false (Tracks.msgId t)), t', sr, sr'.
  split; [now apply write_close_wait_loop|]. split; [reflexivity|].
  split; [exact Hopen|]. split; [apply (OpenTrack_alive _ _ _ _ _ _ Hopen)|].
  split; [exact Hcount|]. split; [exact Hra|exact Hrd].
Qed.

Lemma track_close_open_witness :
  0 < 1000 /\ hsize 1000 <= MaxInt64 /\
  (forall c : nat, (∅ : gmap string (list byte)) !! chunk_path "" "id" c = None) /\
  [testData; take 4 testData] <> [] /\
  hsize 1000 + total [testData; take 4 testData] <= MaxInt64 /\
  (Z.of_nat (length [testData; take 4 testData]) + 2) * 1000 < two64 /\
  (forall m, m ∈ [testData; take 4 testData] -> (length m <= 16)%nat) /\
  track_headers_in_file 1000 [testData; take 4 testData] /\
  exists d t t' sr sr',
    write_close_wait 1000 ∅ (Tracks.NewTrack "" "id") [testData; take 4 testData]
      = Ret (d, t) /\
    Tracks.alive t = false /\
    Tracks.OpenTrack 1000 d "" "id" = Ret (d, t') /\
    Tracks.alive t' = true /\
    (exists s, last (Tracks.stores t') = Some s /\
       (Z.of_nat (length (Tracks.stores t')) - 1) * 1000 + Size s
         = Z.of_nat (length [testData; take 4 testData])) /\
    Tracks.ReaderAt 1000 d t' 0 = Ret (Some sr, None) /\
    read_n 1000 d t' sr 16 (length [testData; take 4 testData])
      = Ret ([testData; take 4 testData], sr').
Proof.
  assert (Hbuf : forall m, m ∈ [testData; take 4 testData] -> (length m <= 16)%nat).
  { intros m Hm. repeat (apply elem_of_cons in Hm as [->|Hm]); [simpl; lia..|].
    now apply elem_of_nil in Hm. }
  split; [lia|]. split; [vm_compute; discriminate|].
  split; [intros c; apply lookup_empty|]. split; [discriminate|].
  split; [vm_compute; discriminate|]. split; [vm_compute; reflexivity|].
  split; [exact Hbuf|].
  split; [right; intros k m Hk _; apply list_elem_of_lookup_2 in Hk; simpl in Hk;
    repeat (apply elem_of_cons in Hk as [->|Hk]); [vm_compute; discriminate..|];
    now apply elem_of_nil in Hk|].
  apply (track_close_open 1000 "" "id" ∅ [testData; take 4 testData] 16).
  - lia.
  - vm_compute; discriminate.
  - intros c. apply lookup_empty.
  - discriminate.
  - vm_compute; discriminate.
  - vm_compute; reflexivity.
  - exact Hbuf.
  - right; intros k m Hk _; apply list_elem_of_lookup_2 in Hk; simpl in Hk;
    repeat (apply elem_of_cons in Hk as [->|Hk]); [vm_compute; discriminate..|];
    now apply elem_of_nil in Hk.
Defined.

(** X7.  [Track.ReaderAt] returns no error.  Whatever the track, the
    disk and the offset (a [uint64]), a call that returns gives a
    reader at that offset and no error: the test [offset < 0] never
    holds, and an error of the chunk is turned into a panic. *)
Theorem Track_ReaderAt_no_error CS (d : gmap string (list byte)) t offset :
  0 <= offset ->
  Tracks.ReaderAt CS d t offset = Panic \/
  exists sub,
    Tracks.ReaderAt CS d t offset
      = Ret (Some (Tracks.mkStorageReader offset sub), None).
Proof.
  intros Hoff. unfold Tracks.ReaderAt.
  rewrite decide_False by lia.
  case_decide; [now left|].
  destruct (Tracks.stores t !! Z.to_nat (offset / CS)) as [s|]; [|right; eauto].
  case_decide; [|right; eauto].
  destruct (Chunk.ReaderAt d s (offset mod CS)) as [[r [e|]]|];
    cbn [mbind outcome_bind bind]; [now left|right; eauto|now left].
Qed.

Lemma Track_ReaderAt_no_error_witness :
  0 <= 100 /\
  (Tracks.ReaderAt 1000 ∅ (Tracks.NewTrack "" "id") 100 = Panic \/
   exists sub,
     Tracks.ReaderAt 1000 ∅ (Tracks.NewTrack "" "id") 100
       = Ret (Some (Tracks.mkStorageReader 100 sub), None)).
Proof.
  split; [lia|].
  apply (Track_ReaderAt_no_error 1000 ∅ (Tracks.NewTrack "" "id") 100). lia.
Defined.

(** X8. A reader asked for past the end. On a new track that has taken
    the messages [msgs] (there may be none), [Track.ReaderAt] of an
    offset at or past their number returns a reader without a sub-
    reader, and [Read] on it waits. When the offset is not a multiple
    of [CHUNK_SIZE] the reader waits again each time it is woken,
    whatever the track holds by then: [handleRollover] sets a sub-
    reader at the start of a chunk only. (The header of every chunk
    file is accessed inside the file: it fits the page of a new file,
    or the first message of every chunk is not empty.) *)
Theorem reader_past_the_end CS root id (d0 : gmap string (list byte)) msgs offset :
  0 < CS ->
  hsize CS <= MaxInt64 ->
  (forall c : nat, d0 !! chunk_path root id c = None) ->
  (Z.of_nat (length msgs) + 2) * CS < two64 ->
  Z.of_nat (length msgs) <= offset ->
  track_headers_in_file CS msgs ->
  exists d t,
    Tracks.writer_loop CS d0 (Tracks.NewTrack root id) msgs = Ret (d, t) /\
    Tracks.ReaderAt CS d t offset
      = Ret (Some (Tracks.mkStorageReader offset None), None) /\
    (forall p, Tracks.Read CS d t (Tracks.mkStorageReader offset None) p
               = Ret Tracks.Blocked) /\
    (offset mod CS <> 0 ->
     forall (d' : gmap string (list byte)) t' p,
       Tracks.Read_woken CS d' t' (Tracks.mkStorageReader offset None) p
         = Ret Tracks.Blocked).
Proof.
  intros HCS HCSmax Hnone Hord Hoff Hin.
  destruct (new_track_written CS root id d0 msgs HCS HCSmax Hnone Hord Hin)
    as (d & t & chunks & Hloop & Hinv & Hcat & Halive & _).
  exists d, t. split; [done|]. split; [|split].
  - apply Track_ReaderAt_past_end with (root := root) (id := id) (chunks := chunks);
      [done..|]. now rewrite Hcat.
  - intros p. unfold Tracks.Read, Tracks.Read_body. rewrite Halive. cbn [negb].
    now rewrite decide_False by lia.
  - intros Hmid d' t' p. unfold Tracks.Read_woken, Tracks.handleRollover.
    rewrite decide_False by lia. cbn [Tracks.Offset].
    rewrite decide_False by done. cbn [mbind outcome_bind bind].
    unfold Tracks.Read_body. now rewrite decide_False by lia.
Qed.

Lemma reader_past_the_end_witness :
  0 < 1000 /\ hsize 1000 <= MaxInt64 /\
  (forall c : nat, (∅ : gmap string (list byte)) !! chunk_path "" "id" c = None) /\
  (Z.of_nat (length (@nil (list byte))) + 2) * 1000 < two64 /\
  Z.of_nat (length (@nil (list byte))) <= 100 /\
  track_headers_in_file 1000 [] /\
  exists d t,
    Tracks.writer_loop 1000 ∅ (Tracks.NewTrack "" "id") [] = Ret (d, t) /\
    Tracks.ReaderAt 1000 d t 100
      = Ret (Some (Tracks.mkStorageReader 100 None), None) /\
    (forall p, Tracks.Read 1000 d t (Tracks.mkStorageReader 100 None) p
               = Ret Tracks.Blocked) /\
    (100 mod 1000 <> 0 ->
     forall (d' : gmap string (list byte)) t' p,
       Tracks.Read_woken 1000 d' t' (Tracks.mkStorageReader 100 None) p
         = Ret Tracks.Blocked).
Proof.
  split; [lia|]. split; [vm_compute; discriminate|].
  split; [intros c; apply lookup_empty|]. split; [vm_compute; reflexivity|].
  split; [simpl; lia|].
  split; [right; intros k m Hk _; apply list_elem_of_lookup_2 in Hk; simpl in Hk;
    repeat (apply elem_of_cons in Hk as [->|Hk]); [vm_compute; discriminate..|];
    now apply elem_of_nil in Hk|].
  apply (reader_past_the_end 1000 "" "id" ∅ [] 100).
  - lia.
  - vm_compute; discriminate.
  - intros c. apply lookup_empty.
  - vm_compute; reflexivity.
  - simpl. lia.
  - right; intros k m Hk _; apply list_elem_of_lookup_2 in Hk; simpl in Hk;
    repeat (apply elem_of_cons in Hk as [->|Hk]); [vm_compute; discriminate..|];
    now apply elem_of_nil in Hk.
Defined.

(** X9. One [Read], one whole message. On a new track that has taken
    [msgs], take a message [k] that is in the chunk being written (the
    chunk of the last message). [Track.ReaderAt(k)] returns a reader
    at [k]. With a buffer shorter than the message, [Read] returns 0
    and the "does not fit" error and leaves the reader and the buffer
    as they were; with any other buffer it returns the length of the
    message, puts the message at the start of the buffer, leaves the
    rest of the buffer, and moves the reader to [k + 1]. (The header
    of every chunk file is accessed inside the file: it fits the page
    of a new file, or the first message of every chunk is not empty.) *)
Theorem track_read_one_message CS root id (d0 : gmap string (list byte)) msgs
    (k : nat) m p :
  0 < CS ->
  hsize CS <= MaxInt64 ->
  (forall c : nat, d0 !! chunk_path root id c = None) ->
  hsize CS + total msgs <= MaxInt64 ->
  (Z.of_nat (length msgs) + 2) * CS < two64 ->
  msgs !! k = Some m ->
  Z.of_nat k / CS = (Z.of_nat (length msgs) - 1) / CS ->
  track_headers_in_file CS msgs ->
  exists d t sr,
    Tracks.writer_loop CS d0 (Tracks.NewTrack root id) msgs = Ret (d, t) /\
    Tracks.ReaderAt CS d t (Z.of_nat k) = Ret (Some sr, None) /\
    Tracks.Offset sr = Z.of_nat k /\
    ((length p < length m)%nat ->
     Tracks.Read CS d t sr p
       = Ret (Tracks.Returned 0 (Some (ErrDoesNotFit (Z.of_nat (length m)))) sr p)) /\
    ((length m <= length p)%nat ->
     exists sr',
       Tracks.Read CS d t sr p
         = Ret (Tracks.Returned (Z.of_nat (length m)) None sr'
                  (m ++ drop (length m) p)) /\
       Tracks.Offset sr' = Z.of_nat k + 1).
Proof.
  intros HCS HCSmax Hnone Hfit Hord Hk Hlast Hin.
  destruct (new_track_written CS root id d0 msgs HCS HCSmax Hnone Hord Hin)
    as (d & t & chunks & Hloop & Hinv & Hcat & Halive & _).
  assert (Hne : chunks <> []).
  { intros ->. simpl in Hcat. subst msgs. done. }
  pose proof (last_chunk_index CS d t root id chunks HCS Hinv Hne) as Hidx.
  rewrite Hcat in Hidx. rewrite Hidx in Hlast.
  rewrite <- Hcat in Hk, Hfit, Hord.
  destruct (read_last_chunk CS d t root id chunks k m HCS HCSmax Hinv Halive Hk
              Hlast Hfit Hord)
    as (c & i & mc & s & f & _ & _ & _ & _ & _ & _ & Hra & Hrd).
  eexists d, t, _. split; [done|]. split; [exact Hra|]. split; [reflexivity|].
  split.
  - intros Hshort. rewrite Hrd. now rewrite decide_True by lia.
  - intros Hlong. rewrite Hrd. rewrite decide_False by lia.
    eexists. split; reflexivity.
Qed.

Lemma track_read_one_message_witness :
  0 < 1000 /\ hsize 1000 <= MaxInt64 /\
  (forall c : nat, (∅ : gmap string (list byte)) !! chunk_path "" "id" c = None) /\
  hsize 1000 + total [testData; take 4 testData] <= MaxInt64 /\
  (Z.of_nat (length [testData; take 4 testData]) + 2) * 1000 < two64 /\
  [testData; take 4 testData] !! 1%nat = Some (take 4 testData) /\
  Z.of_nat 1 / 1000 = (Z.of_nat (length [testData; take 4 testData]) - 1) / 1000 /\
  track_headers_in_file 1000 [testData; take 4 testData] /\
  exists d t sr,
    Tracks.writer_loop 1000 ∅ (Tracks.NewTrack "" "id") [testData; take 4 testData]
      = Ret (d, t) /\
    Tracks.ReaderAt 1000 d t (Z.of_nat 1) = Ret (Some sr, None) /\
    Tracks.Offset sr = Z.of_nat 1 /\
    ((length [x00; x00] < length (take 4 testData))%nat ->
     Tracks.Read 1000 d t sr [x00; x00]
       = Ret (Tracks.Returned 0
                (Some (ErrDoesNotFit (Z.of_nat (length (take 4 testData))))) sr
                [x00; x00])) /\
    ((length (take 4 testData) <= length [x00; x00])%nat ->
     exists sr',
       Tracks.Read 1000 d t sr [x00; x00]
         = Ret (Tracks.Returned (Z.of_nat (length (take 4 testData))) None sr'
                  (take 4 testData ++ drop (length (take 4 testData)) [x00; x00])) /\
       Tracks.Offset sr' = Z.of_nat 1 + 1).
Proof.
  split; [lia|]. split; [vm_compute; discriminate|].
  split; [intros c; apply lookup_empty|]. split; [vm_compute; discriminate|].
  split; [vm_compute; reflexivity|]. split; [reflexivity|].
  split; [reflexivity|].
  split; [right; intros k m Hk _; apply list_elem_of_lookup_2 in Hk; simpl in Hk;
    repeat (apply elem_of_cons in Hk as [->|Hk]); [vm_compute; discriminate..|];
    now apply elem_of_nil in Hk|].
  apply (track_read_one_message 1000 "" "id" ∅ [testData; take 4 testData] 1
           (take 4 testData) [x00; x00]).
  - lia.
  - vm_compute; discriminate.
  - intros c. apply lookup_empty.
  - vm_compute; discriminate.
  - vm_compute; reflexivity.
  - reflexivity.
  - reflexivity.
  - right; intros k m Hk _; apply list_elem_of_lookup_2 in Hk; simpl in Hk;
    repeat (apply elem_of_cons in Hk as [->|Hk]); [vm_compute; discriminate..|];
    now apply elem_of_nil in Hk.
Defined.

(** X10. Reading what was written, through the same track. On a new
    track that has taken between one and [CHUNK_SIZE] messages, a
    reader from offset 0 returns them all in order, one for each
    [Read]. (The header of every chunk file is accessed inside the
    file: it fits the page of a new file, or the first message of
    every chunk is not empty.) *)
Theorem track_read_written CS root id (d0 : gmap string (list byte)) msgs buflen :
  0 < CS ->
  hsize CS <= MaxInt64 ->
  (forall c : nat, d0 !! chunk_path root id c = None) ->
  (1 <= length msgs)%nat ->
  Z.of_nat (length msgs) <= CS ->
  hsize CS + total msgs <= MaxInt64 ->
  (Z.of_nat (length msgs) + 2) * CS < two64 ->
  (forall m, m ∈ msgs -> (length m <= buflen)%nat) ->
  track_headers_in_file CS msgs ->
  exists d t sr sr',
    Tracks.writer_loop CS d0 (Tracks.NewTrack root id) msgs = Ret (d, t) /\
    Tracks.alive t = true /\
    Tracks.ReaderAt CS d t 0 = Ret (Some sr, None) /\
    read_n CS d t sr buflen (length msgs) = Ret (msgs, sr').
Proof.
  intros HCS HCSmax Hnone Hn1 HnCS Hfit Hord Hbuf Hin.
  destruct (new_track_written CS root id d0 msgs HCS HCSmax Hnone Hord Hin)
    as (d & t & chunks & Hloop & Hinv & Hcat & Halive & _).
  assert (Hne : chunks <> []).
  { intros ->. simpl in Hcat. subst msgs. simpl in Hn1. lia. }
  destruct (last_chunk_live _ _ _ _ _ _ Hinv Hne)
    as (c & mc & s & f & Hlen & Hc & Hs & [Hh _] & H1 & H2 & Hcount).
  rewrite Hcat in Hcount.
  assert (c = 0%nat) as -> by nia.
  assert (Hchunks : chunks = [mc]).
  { destruct chunks as [|mc0 [|? ?]]; try done.
    simpl in Hc. now injection Hc as ->. }
  assert (Hmc : mc = msgs).
  { rewrite Hchunks in Hcat. simpl in Hcat. now rewrite app_nil_r in Hcat. }
  subst mc.
  pose proof (wi_chunked _ _ _ _ _ _ Hinv) as Hwc.
  assert (Hfitc : forall (c : nat) mc, chunks !! c = Some mc ->
            hsize CS + total mc <= MaxInt64).
  { intros c mc Hcm. rewrite Hchunks in Hcm.
    destruct c; [|done]. simpl in Hcm. now injection Hcm as <-. }
  assert (Hbufc : forall (c i : nat) mc m,
            chunks !! c = Some mc -> mc !! i = Some m -> (length m <= buflen)%nat).
  { intros c i mc m Hcm Hm. rewrite Hchunks in Hcm.
    destruct c; [|done]. simpl in Hcm. injection Hcm as <-.
    apply Hbuf. eapply list_elem_of_lookup_2. exact Hm. }
  assert (Hop : opened_from CS d root id chunks 0 (Tracks.stores t)).
  { split.
    - rewrite (wi_stores _ _ _ _ _ _ Hinv). lia.
    - intros j s0 Hj. pose proof (lookup_lt_Some _ _ _ Hj) as Hlt.
      rewrite (wi_stores _ _ _ _ _ _ Hinv), Hlen in Hlt.
      assert (j = 0%nat) as -> by lia.
      rewrite Hs in Hj. injection Hj as <-. exists msgs, f. done. }
  assert (Hordc : (Z.of_nat (length chunks) + 1) * CS < two64).
  { rewrite Hlen. nia. }
  destruct (ReaderAt_first CS root id d chunks t HCS Hwc Hfitc Hop msgs Hc)
    as (sr & Hra & Hat).
  destruct (read_n_from CS root id d chunks t buflen HCS Hwc Hfitc Hordc
              Halive Hop Hbufc (length msgs) sr 0%nat 0%nat msgs Hc ltac:(lia) Hat)
    as (sr' & Hread).
  { rewrite Hchunks. simpl. now rewrite app_nil_r. }
  rewrite Hchunks in Hread. simpl in Hread. rewrite app_nil_r in Hread.
  exists d, t, sr, sr'. done.
Qed.

Lemma track_read_written_witness :
  0 < 1000 /\ hsize 1000 <= MaxInt64 /\
  (forall c : nat, (∅ : gmap string (list byte)) !! chunk_path "" "id" c = None) /\
  (1 <= length [testData; take 4 testData])%nat /\
  Z.of_nat (length [testData; take 4 testData]) <= 1000 /\
  hsize 1000 + total [testData; take 4 testData] <= MaxInt64 /\
  (Z.of_nat (length [testData; take 4 testData]) + 2) * 1000 < two64 /\
  (forall m, m ∈ [testData; take 4 testData] -> (length m <= 100)%nat) /\
  track_headers_in_file 1000 [testData; take 4 testData] /\
  exists d t sr sr',
    Tracks.writer_loop 1000 ∅ (Tracks.NewTrack "" "id") [testData; take 4 testData]
      = Ret (d, t) /\
    Tracks.alive t = true /\
    Tracks.ReaderAt 1000 d t 0 = Ret (Some sr, None) /\
    read_n 1000 d t sr 100 (length [testData; take 4 testData])
      = Ret ([testData; take 4 testData], sr').
Proof.
  assert (Hbuf : forall m, m ∈ [testData; take 4 testData] -> (length m <= 100)%nat).
  { intros m Hm. repeat (apply elem_of_cons in Hm as [->|Hm]); [simpl; lia..|].
    now apply elem_of_nil in Hm. }
  split; [lia|]. split; [vm_compute; discriminate|].
  split; [intros c; apply lookup_empty|]. split; [simpl; lia|].
  split; [vm_compute; discriminate|]. split; [vm_compute; discriminate|].
  split; [vm_compute; reflexivity|]. split; [exact Hbuf|].
  split; [right; intros k m Hk _; apply list_elem_of_lookup_2 in Hk; simpl in Hk;
    repeat (apply elem_of_cons in Hk as [->|Hk]); [vm_compute; discriminate..|];
    now apply elem_of_nil in Hk|].
  apply (track_read_written 1000 "" "id" ∅ [testData; take 4 testData] 100).
  - lia.
  - vm_compute; discriminate.
  - intros c. apply lookup_empty.
  - simpl. lia.
  - vm_compute; discriminate.
  - vm_compute; discriminate.
  - vm_compute; reflexivity.
  - exact Hbuf.
  - right; intros k m Hk _; apply list_elem_of_lookup_2 in Hk; simpl in Hk;
    repeat (apply elem_of_cons in Hk as [->|Hk]); [vm_compute; discriminate..|];
    now apply elem_of_nil in Hk.
Defined.

(** X11. A reader follows the writer. A reader that has read the last
    message of a new track waits in the next [Read]; when the writer
    has taken one more message [m], the reader woken returns [m] and
    stands one message further. (The header of every chunk file is
    accessed inside the file: it fits the page of a new file, or the
    first message of every chunk is not empty.) *)
Theorem reader_follows_writer CS root id (d0 : gmap string (list byte)) msgs
    last_m m p q :
  0 < CS ->
  hsize CS <= MaxInt64 ->
  (forall c : nat, d0 !! chunk_path root id c = None) ->
  hsize CS + total (msgs ++ [m]) <= MaxInt64 ->
  (Z.of_nat (length msgs) + 3) * CS < two64 ->
  last msgs = Some last_m ->
  (length last_m <= length p)%nat ->
  (length m <= length q)%nat ->
  track_headers_in_file CS (msgs ++ [m]) ->
  exists d t sr0 sr1 d' t' sr2,
    Tracks.writer_loop CS d0 (Tracks.NewTrack root id) msgs = Ret (d, t) /\
    Tracks.ReaderAt CS d t (Z.of_nat (length msgs) - 1) = Ret (Some sr0, None) /\
    Tracks.Read CS d t sr0 p
      = Ret (Tracks.Returned (Z.of_nat (length last_m)) None sr1
               (last_m ++ drop (length last_m) p)) /\
    Tracks.Read CS d t sr1 q = Ret Tracks.Blocked /\
    Tracks.writer_step CS d t m = Ret (d', t') /\
    Tracks.Read_woken CS d' t' sr1 q
      = Ret (Tracks.Returned (Z.of_nat (length m)) None sr2
               (m ++ drop (length m) q)) /\
    Tracks.Offset sr2 = Z.of_nat (length msgs) + 1.
Proof.
  intros HCS HCSmax Hnone Hfit Hord Hlast Hp Hq Hin.
  rewrite total_app, total_singleton in Hfit.
  destruct (new_track_written CS root id d0 msgs HCS HCSmax Hnone ltac:(lia)
              (track_headers_app_l CS msgs [m] Hin))
    as (d & t & chunks & Hloop & Hinv & Hcat & Halive & _).
  assert (Hne : chunks <> []).
  { intros ->. simpl in Hcat. subst msgs. done. }
  rewrite last_lookup in Hlast.
  set (k := Init.Nat.pred (length msgs)) in *.
  pose proof (lookup_lt_Some _ _ _ Hlast) as Hklt.
  assert (Hkn : Z.of_nat k = Z.of_nat (length msgs) - 1) by lia.
  pose proof (last_chunk_index CS d t root id chunks HCS Hinv Hne) as Hidx.
  rewrite Hcat, <- Hkn in Hidx.
  destruct (last_chunk_live _ _ _ _ _ _ Hinv Hne)
    as (c0 & mc0 & s0 & f0 & Hlen0 & Hc0 & Hs0 & [Hh0 _] & H1 & H2 & Hn).
  rewrite Hcat in Hn.
  rewrite <- Hcat in Hlast.
  destruct (read_last_chunk CS d t root id chunks k last_m HCS HCSmax Hinv Halive
              Hlast Hidx)
    as (c & i & mc & s & f & Hlen & Hc & Hm & Hki & Hs & _ & Hra & Hrd).
  { rewrite Hcat. pose proof (total_nonneg [m]). lia. }
  { rewrite Hcat. lia. }
  assert (c0 = c) as -> by lia.
  rewrite Hc in Hc0. injection Hc0 as <-.
  rewrite Hs in Hs0. injection Hs0 as <-.
  assert (Hi : S i = length mc) by lia.
  set (sub := sub_at root (Tracks.storeId id (Z.of_nat c)) CS mc) in *.
  set (sr1 := Tracks.mkStorageReader (Z.of_nat k + 1)
                (if decide ((Z.of_nat k + 1) mod CS = 0) then None
                 else Some (sub (S i)))).
  assert (Hk1 : Z.of_nat k + 1 = Z.of_nat (length msgs)) by lia.
  destruct (served_after_write CS d t root id chunks m q sr1 HCS HCSmax Hinv Halive)
    as (d' & t' & sr2 & Hstep & Hwoken & Hoff2).
  { rewrite Hcat, total_app, total_singleton. lia. }
  { rewrite Hcat. lia. }
  { rewrite Hcat. exact Hk1. }
  { rewrite Hcat. intros Hb. unfold sr1. cbn [Tracks.currentSub].
    rewrite Hk1. now rewrite decide_True by done. }
  { rewrite Hcat. intros Hb c1 mc1 Hl1 Hc1. unfold sr1. cbn [Tracks.currentSub].
    rewrite Hk1. rewrite decide_False by done.
    assert (c1 = c) as -> by lia. rewrite Hc in Hc1. injection Hc1 as <-.
    now rewrite Hi. }
  { done. }
  { rewrite Hcat. now apply track_headers_last. }
  rewrite Hcat in Hoff2.
  exists d, t, (Tracks.mkStorageReader (Z.of_nat k) (Some (sub i))), sr1, d', t', sr2.
  split; [done|]. split; [now rewrite <- Hkn|]. split.
  { rewrite (Hrd p). now rewrite decide_False by lia. }
  split; [|done].
  unfold Tracks.Read, Tracks.Read_body. rewrite Halive. cbn [negb].
  rewrite decide_False by lia. unfold sr1. cbn [Tracks.Offset Tracks.currentSub].
  rewrite Hk1.
  destruct (decide (Z.of_nat (length msgs) mod CS = 0)) as [Hb|Hb]; [done|].
  assert (Hroom : Z.of_nat (length mc) < CS).
  { destruct (decide (Z.of_nat (length mc) = CS)) as [E|]; [|lia].
    exfalso. apply Hb. rewrite Hn, E.
    replace (Z.of_nat c * CS + CS) with ((Z.of_nat c + 1) * CS) by lia.
    apply Z.mod_mul. lia. }
  destruct (chunk_div_mod CS (Z.of_nat c) (Z.of_nat (length mc)) HCS ltac:(lia))
    as [Hdiv Hmod].
  rewrite Hn, Hdiv, Hmod, Nat2Z.id, Hs.
  rewrite (ch_size _ _ _ _ _ _ _ Hh0). now rewrite decide_True by lia.
Qed.

Lemma reader_follows_writer_witness :
  0 < 1000 /\ hsize 1000 <= MaxInt64 /\
  (forall c : nat, (∅ : gmap string (list byte)) !! chunk_path "" "id" c = None) /\
  hsize 1000 + total ([testData] ++ [take 4 testData]) <= MaxInt64 /\
  (Z.of_nat (length [testData]) + 3) * 1000 < two64 /\
  last [testData] = Some testData /\
  (length testData <= length (replicate 100 x00))%nat /\
  (length (take 4 testData) <= length (replicate 100 x00))%nat /\
  track_headers_in_file 1000 ([testData] ++ [take 4 testData]) /\
  exists d t sr0 sr1 d' t' sr2,
    Tracks.writer_loop 1000 ∅ (Tracks.NewTrack "" "id") [testData] = Ret (d, t) /\
    Tracks.ReaderAt 1000 d t (Z.of_nat (length [testData]) - 1)
      = Ret (Some sr0, None) /\
    Tracks.Read 1000 d t sr0 (replicate 100 x00)
      = Ret (Tracks.Returned (Z.of_nat (length testData)) None sr1
               (testData ++ drop (length testData) (replicate 100 x00))) /\
    Tracks.Read 1000 d t sr1 (replicate 100 x00) = Ret Tracks.Blocked /\
    Tracks.writer_step 1000 d t (take 4 testData) = Ret (d', t') /\
    Tracks.Read_woken 1000 d' t' sr1 (replicate 100 x00)
      = Ret (Tracks.Returned (Z.of_nat (length (take 4 testData))) None sr2
               (take 4 testData
                  ++ drop (length (take 4 testData)) (replicate 100 x00))) /\
    Tracks.Offset sr2 = Z.of_nat (length [testData]) + 1.
Proof.
  split; [lia|]. split; [vm_compute; discriminate|].
  split; [intros c; apply lookup_empty|]. split; [vm_compute; discriminate|].
  split; [vm_compute; reflexivity|]. split; [reflexivity|].
  split; [vm_compute; lia|]. split; [vm_compute; lia|].
  split; [right; intros k m Hk _; apply list_elem_of_lookup_2 in Hk; simpl in Hk;
    repeat (apply elem_of_cons in Hk as [->|Hk]); [vm_compute; discriminate..|];
    now apply elem_of_nil in Hk|].
  apply (reader_follows_writer 1000 "" "id" ∅ [testData] testData (take 4 testData)
           (replicate 100 x00) (replicate 100 x00)).
  - lia.
  - vm_compute; discriminate.
  - intros c. apply lookup_empty.
  - vm_compute; discriminate.
  - vm_compute; reflexivity.
  - reflexivity.
  - vm_compute; lia.
  - vm_compute; lia.
  - right; intros k m Hk _; apply list_elem_of_lookup_2 in Hk; simpl in Hk;
    repeat (apply elem_of_cons in Hk as [->|Hk]); [vm_compute; discriminate..|];
    now apply elem_of_nil in Hk.
Defined.

(** X12. A reader opened before the first message of a chunk. The
    number of messages of a new track is a multiple of [CHUNK_SIZE] (a
    track without a message, or one whose last chunk is full). The
    reader [Track.ReaderAt] gives for the next ordinal has no sub-
    reader and its [Read] waits; when the writer has taken the next
    message [m], which opens a new chunk, the reader woken gets a sub-
    reader on that chunk from [handleRollover] and returns [m]. (The
    header of every chunk file is accessed inside the file: it fits
    the page of a new file, or the first message of every chunk is not
    empty.) *)
Theorem reader_at_chunk_start_served CS root id (d0 : gmap string (list byte))
    msgs m q :
  0 < CS ->
  hsize CS <= MaxInt64 ->
  (forall c : nat, d0 !! chunk_path root id c = None) ->
  hsize CS + total (msgs ++ [m]) <= MaxInt64 ->
  (Z.of_nat (length msgs) + 3) * CS < two64 ->
  Z.of_nat (length msgs) mod CS = 0 ->
  (length m <= length q)%nat ->
  track_headers_in_file CS (msgs ++ [m]) ->
  exists d t d' t' sr2,
    Tracks.writer_loop CS d0 (Tracks.NewTrack root id) msgs = Ret (d, t) /\
    Tracks.ReaderAt CS d t (Z.of_nat (length msgs))
      = Ret (Some (Tracks.mkStorageReader (Z.of_nat (length msgs)) None), None) /\
    Tracks.Read CS d t (Tracks.mkStorageReader (Z.of_nat (length msgs)) None) q
      = Ret Tracks.Blocked /\
    Tracks.writer_step CS d t m = Ret (d', t') /\
    Tracks.Read_woken CS d' t'
        (Tracks.mkStorageReader (Z.of_nat (length msgs)) None) q
      = Ret (Tracks.Returned (Z.of_nat (length m)) None sr2
               (m ++ drop (length m) q)) /\
    Tracks.Offset sr2 = Z.of_nat (length msgs) + 1.
Proof.
  intros HCS HCSmax Hnone Hfit Hord Hb Hq Hin.
  destruct (new_track_written CS root id d0 msgs HCS HCSmax Hnone ltac:(lia)
              (track_headers_app_l CS msgs [m] Hin))
    as (d & t & chunks & Hloop & Hinv & Hcat & Halive & _).
  destruct (served_after_write CS d t root id chunks m q
              (Tracks.mkStorageReader (Z.of_nat (length msgs)) None)
              HCS HCSmax Hinv Halive)
    as (d' & t' & sr2 & Hstep & Hwoken & Hoff2);
    rewrite ?Hcat; try done; try lia; try (now apply track_headers_last).
  rewrite Hcat in Hoff2.
  exists d, t, d', t', sr2. split; [done|]. split; [|split; [|done]].
  - apply Track_ReaderAt_past_end with (root := root) (id := id) (chunks := chunks);
      [done..|]. rewrite Hcat. lia.
  - unfold Tracks.Read, Tracks.Read_body. rewrite Halive. cbn [negb].
    now rewrite decide_False by lia.
Qed.

Lemma reader_at_chunk_start_served_witness :
  0 < 1000 /\ hsize 1000 <= MaxInt64 /\
  (forall c : nat, (∅ : gmap string (list byte)) !! chunk_path "" "id" c = None) /\
  hsize 1000 + total ([] ++ [testData]) <= MaxInt64 /\
  (Z.of_nat (length (@nil (list byte))) + 3) * 1000 < two64 /\
  Z.of_nat (length (@nil (list byte))) mod 1000 = 0 /\
  (length testData <= length (replicate 100 x00))%nat /\
  track_headers_in_file 1000 ([] ++ [testData]) /\
  exists d t d' t' sr2,
    Tracks.writer_loop 1000 ∅ (Tracks.NewTrack "" "id") [] = Ret (d, t) /\
    Tracks.ReaderAt 1000 d t (Z.of_nat (length (@nil (list byte))))
      = Ret (Some (Tracks.mkStorageReader
                     (Z.of_nat (length (@nil (list byte)))) None), None) /\
    Tracks.Read 1000 d t
        (Tracks.mkStorageReader (Z.of_nat (length (@nil (list byte)))) None)
        (replicate 100 x00)
      = Ret Tracks.Blocked /\
    Tracks.writer_step 1000 d t testData = Ret (d', t') /\
    Tracks.Read_woken 1000 d' t'
        (Tracks.mkStorageReader (Z.of_nat (length (@nil (list byte)))) None)
        (replicate 100 x00)
      = Ret (Tracks.Returned (Z.of_nat (length testData)) None sr2
               (testData ++ drop (length testData) (replicate 100 x00))) /\
    Tracks.Offset sr2 = Z.of_nat (length (@nil (list byte))) + 1.
Proof.
  split; [lia|]. split; [vm_compute; discriminate|].
  split; [intros c; apply lookup_empty|]. split; [vm_compute; discriminate|].
  split; [vm_compute; reflexivity|]. split; [reflexivity|].
  split; [vm_compute; lia|].
  split; [right; intros k m Hk _; apply list_elem_of_lookup_2 in Hk; simpl in Hk;
    repeat (apply elem_of_cons in Hk as [->|Hk]); [vm_compute; discriminate..|];
    now apply elem_of_nil in Hk|].
  apply (reader_at_chunk_start_served 1000 "" "id" ∅ [] testData (replicate 100 x00)).
  - lia.
  - vm_compute; discriminate.
  - intros c. apply lookup_empty.
  - vm_compute; discriminate.
  - vm_compute; reflexivity.
  - reflexivity.
  - vm_compute; lia.
  - right; intros k m Hk _; apply list_elem_of_lookup_2 in Hk; simpl in Hk;
    repeat (apply elem_of_cons in Hk as [->|Hk]); [vm_compute; discriminate..|];
    now apply elem_of_nil in Hk.
Defined.

(** X13. A reader opened at the start of a chunk that is further away.
    [Track.ReaderAt] of [c * CHUNK_SIZE] on a new track gives a reader
    without a sub-reader. If its [Read] is woken while the track has
    at most [c * CHUNK_SIZE] messages, there is no chunk [c] yet and
    [handleRollover] calls [Close] on the sub-reader that is nil: the
    call panics. (The header of every chunk file is accessed inside
    the file: it fits the page of a new file, or the first message of
    every chunk is not empty.) *)
Theorem reader_at_future_chunk_panics CS root id (d0 : gmap string (list byte))
    msgs (c : nat) q :
  0 < CS ->
  hsize CS <= MaxInt64 ->
  (forall c : nat, d0 !! chunk_path root id c = None) ->
  (Z.of_nat (length msgs) + 2) * CS < two64 ->
  (1 <= length msgs)%nat ->
  Z.of_nat (length msgs) <= Z.of_nat c * CS ->
  track_headers_in_file CS msgs ->
  exists d t,
    Tracks.ReaderAt CS d0 (Tracks.NewTrack root id) (Z.of_nat c * CS)
      = Ret (Some (Tracks.mkStorageReader (Z.of_nat c * CS) None), None) /\
    Tracks.writer_loop CS d0 (Tracks.NewTrack root id) msgs = Ret (d, t) /\
    Tracks.Read_woken CS d t (Tracks.mkStorageReader (Z.of_nat c * CS) None) q
      = Panic.
Proof.
  intros HCS HCSmax Hnone Hord Hn1 Hc Hin.
  destruct (new_track_written CS root id d0 msgs HCS HCSmax Hnone Hord Hin)
    as (d & t & chunks & Hloop & Hinv & Hcat & Halive & _).
  assert (Hne : chunks <> []).
  { intros ->. simpl in Hcat. subst msgs. simpl in Hn1. lia. }
  destruct (last_chunk_live _ _ _ _ _ _ Hinv Hne)
    as (c0 & mc & s & f & Hlen & _ & _ & _ & H1 & H2 & Hn).
  rewrite Hcat in Hn.
  exists d, t. split; [|split; [done|]].
  - unfold Tracks.ReaderAt. rewrite decide_False by lia.
    now rewrite decide_False by lia.
  - unfold Tracks.Read_woken, Tracks.handleRollover.
    rewrite decide_False by lia. cbn [Tracks.Offset Tracks.currentSub].
    rewrite Z.mod_mul, Z.div_mul by lia. rewrite decide_True by done.
    rewrite Nat2Z.id. rewrite lookup_ge_None_2; [done|].
    rewrite (wi_stores _ _ _ _ _ _ Hinv), Hlen. nia.
Qed.

Lemma reader_at_future_chunk_panics_witness :
  0 < 1000 /\ hsize 1000 <= MaxInt64 /\
  (forall c : nat, (∅ : gmap string (list byte)) !! chunk_path "" "id" c = None) /\
  (Z.of_nat (length [testData]) + 2) * 1000 < two64 /\
  (1 <= length [testData])%nat /\
  Z.of_nat (length [testData]) <= Z.of_nat 1 * 1000 /\
  track_headers_in_file 1000 [testData] /\
  exists d t,
    Tracks.ReaderAt 1000 ∅ (Tracks.NewTrack "" "id") (Z.of_nat 1 * 1000)
      = Ret (Some (Tracks.mkStorageReader (Z.of_nat 1 * 1000) None), None) /\
    Tracks.writer_loop 1000 ∅ (Tracks.NewTrack "" "id") [testData] = Ret (d, t) /\
    Tracks.Read_woken 1000 d t (Tracks.mkStorageReader (Z.of_nat 1 * 1000) None)
        (replicate 100 x00)
      = Panic.
Proof.
  split; [lia|]. split; [vm_compute; discriminate|].
  split; [intros c; apply lookup_empty|]. split; [vm_compute; reflexivity|].
  split; [simpl; lia|]. split; [vm_compute; discriminate|].
  split; [right; intros k m Hk _; apply list_elem_of_lookup_2 in Hk; simpl in Hk;
    repeat (apply elem_of_cons in Hk as [->|Hk]); [vm_compute; discriminate..|];
    now apply elem_of_nil in Hk|].
  apply (reader_at_future_chunk_panics 1000 "" "id" ∅ [testData] 1 (replicate 100 x00)).
  - lia.
  - vm_compute; discriminate.
  - intros c. apply lookup_empty.
  - vm_compute; reflexivity.
  - simpl. lia.
  - vm_compute; discriminate.
  - right; intros k m Hk _; apply list_elem_of_lookup_2 in Hk; simpl in Hk;
    repeat (apply elem_of_cons in Hk as [->|Hk]); [vm_compute; discriminate..|];
    now apply elem_of_nil in Hk.
Defined.

(** X14. A track that was closed. When the messages sent were taken
    and the writer task has ended, the track is not alive: every
    [Read], whatever the reader and the buffer, returns -1 and the end
    of file error, also for a message that is stored; [WriteMessage]
    returns the "track is closed" error and queues nothing; and a
    second [Close] panics, the channel being closed already. (The
    header of every chunk file is accessed inside the file: it fits
    the page of a new file, or the first message of every chunk is not
    empty.) *)
Theorem closed_track CS root id (d0 : gmap string (list byte)) msgs :
  0 < CS ->
  hsize CS <= MaxInt64 ->
  (forall c : nat, d0 !! chunk_path root id c = None) ->
  (Z.of_nat (length msgs) + 2) * CS < two64 ->
  track_headers_in_file CS msgs ->
  exists d t,
    write_close_wait CS d0 (Tracks.NewTrack root id) msgs = Ret (d, t) /\
    Tracks.alive t = false /\
    Tracks.writeChan t = [] /\
    (forall sr p,
       Tracks.Read CS d t sr p
         = Ret (Tracks.Returned (-1) (Some ErrEOF) sr p)) /\
    (forall m, Tracks.WriteMessage t m = (t, Some ErrTrackClosed)) /\
    Tracks.Close t = Panic.
Proof.
  intros HCS HCSmax Hnone Hord Hin.
  destruct (writer_loop_inv CS root id HCS HCSmax d0
              (Tracks.mkTrack [] id root [] true true 0) [] msgs)
    as (d & t & Hloop & _ & _); [|simpl; lia| |].
  { now apply empty_track_inv. }
  { now apply track_headers_heads. }
  exists d, (Tracks.mkTrack (Tracks.stores t) (Tracks.Id t) (Tracks.RootPath t)
               [] true false (Tracks.msgId t)).
  split.
  { apply write_close_wait_loop; [reflexivity|reflexivity|exact Hloop]. }
  split; [reflexivity|]. split; [reflexivity|]. split; [reflexivity|].
  split; reflexivity.
Qed.

Lemma closed_track_witness :
  0 < 1000 /\ hsize 1000 <= MaxInt64 /\
  (forall c : nat, (∅ : gmap string (list byte)) !! chunk_path "" "id" c = None) /\
  (Z.of_nat (length [testData]) + 2) * 1000 < two64 /\
  track_headers_in_file 1000 [testData] /\
  exists d t,
    write_close_wait 1000 ∅ (Tracks.NewTrack "" "id") [testData] = Ret (d, t) /\
    Tracks.alive t = false /\
    Tracks.writeChan t = [] /\
    (forall sr p,
       Tracks.Read 1000 d t sr p
         = Ret (Tracks.Returned (-1) (Some ErrEOF) sr p)) /\
    (forall m, Tracks.WriteMessage t m = (t, Some ErrTrackClosed)) /\
    Tracks.Close t = Panic.
Proof.
  split; [lia|]. split; [vm_compute; discriminate|].
  split; [intros c; apply lookup_empty|]. split; [vm_compute; reflexivity|].
  split; [right; intros k m Hk _; apply list_elem_of_lookup_2 in Hk; simpl in Hk;
    repeat (apply elem_of_cons in Hk as [->|Hk]); [vm_compute; discriminate..|];
    now apply elem_of_nil in Hk|].
  apply (closed_track 1000 "" "id" ∅ [testData]).
  - lia.
  - vm_compute; discriminate.
  - intros c. apply lookup_empty.
  - vm_compute; reflexivity.
  - right; intros k m Hk _; apply list_elem_of_lookup_2 in Hk; simpl in Hk;
    repeat (apply elem_of_cons in Hk as [->|Hk]); [vm_compute; discriminate..|];
    now apply elem_of_nil in Hk.
Defined.

(** X15.  [OpenTrack] where there is no chunk file.  When the file of
    chunk 0 does not exist, [OpenTrack] opens nothing, leaves the disk
    as it is and returns the track [NewTrack] would return: no store,
    the writer at ordinal 0. *)
Theorem OpenTrack_no_file CS (d : gmap string (list byte)) root id :
  d !! chunk_path root id 0 = None ->
  Tracks.OpenTrack CS d root id = Ret (d, Tracks.NewTrack root id).
Proof.
  intros Hnone. unfold Tracks.OpenTrack. cbn [Tracks.OpenTrack_loop].
  unfold exists_. unfold chunk_path in Hnone. change (Z.of_nat 0) with 0 in Hnone.
  rewrite Hnone. rewrite bool_decide_eq_false_2 by (intros [? ?]; done).
  reflexivity.
Qed.

Lemma OpenTrack_no_file_witness :
  (∅ : gmap string (list byte)) !! chunk_path "" "id" 0 = None /\
  Tracks.OpenTrack 1000 ∅ "" "id" = Ret (∅, Tracks.NewTrack "" "id").
Proof.
  split; [reflexivity|].
  apply (OpenTrack_no_file 1000 ∅ "" "id"). reflexivity.
Defined.

(** X16. Where a track keeps its messages. After the writer of a new
    track has taken [msgs], the track has one store for every
    [CHUNK_SIZE] messages begun, a chunk file for each of them and
    none after, and the message of ordinal [k] is message [k mod
    CHUNK_SIZE] of the chunk file number [k / CHUNK_SIZE], a chunk of
    capacity [CHUNK_SIZE]: [Open] of that file followed by [ReaderAt],
    [SizeOf] and a read gives the message back. (The header of every
    chunk file is accessed inside the file: it fits the page of a new
    file, or the first message of every chunk is not empty.) *)
Theorem track_message_location CS root id (d0 : gmap string (list byte)) msgs
    (k : nat) m :
  0 < CS ->
  hsize CS <= MaxInt64 ->
  (forall c : nat, d0 !! chunk_path root id c = None) ->
  hsize CS + total msgs <= MaxInt64 ->
  (Z.of_nat (length msgs) + 2) * CS < two64 ->
  msgs !! k = Some m ->
  track_headers_in_file CS msgs ->
  exists d t s r r',
    Tracks.writer_loop CS d0 (Tracks.NewTrack root id) msgs = Ret (d, t) /\
    Z.of_nat (length (Tracks.stores t)) = (Z.of_nat (length msgs) - 1) / CS + 1 /\
    (forall c : nat, (Z.of_nat (length msgs) - 1) / CS + 1 <= Z.of_nat c ->
       d !! chunk_path root id c = None) /\
    Open d root (Tracks.storeId id (Z.of_nat k / CS)) = Ret (d, s) /\
    Capacity s = CS /\
    Chunk.ReaderAt d s (Z.of_nat k mod CS) = Ret (Some r, None) /\
    Chunk.SizeOf d s (Z.of_nat k mod CS) = Ret (Z.of_nat (length m), None) /\
    File_Read d r (Z.of_nat (length m)) = (m, None, r').
Proof.
  intros HCS HCSmax Hnone Hfit Hord Hk Hin.
  destruct (new_track_written CS root id d0 msgs HCS HCSmax Hnone Hord Hin)
    as (d & t & chunks & Hloop & Hinv & Hcat & Halive & _).
  assert (Hne : chunks <> []).
  { intros ->. simpl in Hcat. subst msgs. done. }
  pose proof (last_chunk_index CS d t root id chunks HCS Hinv Hne) as Hidx.
  rewrite Hcat in Hidx.
  pose proof (wi_chunked _ _ _ _ _ _ Hinv) as Hwc.
  pose proof (wi_disk _ _ _ _ _ _ Hinv) as Hdisk.
  rewrite <- Hcat in Hk.
  destruct (lookup_concat_chunks CS chunks k m HCS Hwc Hk) as (mc & Hc & Hm).
  set (c := Z.to_nat (Z.of_nat k / CS)) in *.
  set (i := Z.to_nat (Z.of_nat k mod CS)) in *.
  assert (Hcz : Z.of_nat k / CS = Z.of_nat c).
  { unfold c. rewrite Z2Nat.id; [done|]. apply Z.div_pos; lia. }
  assert (Hiz : Z.of_nat k mod CS = Z.of_nat i).
  { unfold i. rewrite Z2Nat.id; [done|]. apply Z.mod_pos_bound. lia. }
  destruct (tod_chunk _ _ _ _ _ Hdisk c mc Hc) as (f & s0 & Hh & Hz).
  destruct (wc_range _ _ Hwc c mc Hc) as [H1 H2].
  assert (Hfitc : hsize CS + total mc <= MaxInt64).
  { pose proof (total_chunk_le _ _ _ Hc). rewrite Hcat in *. lia. }
  assert (HC0 : 0 <= CS) by lia.
  destruct (Open_holds root (Tracks.storeId id (Z.of_nat c)) CS HC0 HCSmax
              d s0 mc f Hh Hz H1 H2 Hfitc) as (s & Ho & Hhs & _).
  destruct (holds_readable d s root (Tracks.storeId id (Z.of_nat c)) CS mc f
              HC0 Hhs H2 Hfitc i m Hm) as (r & r' & Hra & Hsz & Hrd).
  exists d, t, s, r, r'. rewrite Hcz, Hiz.
  split; [done|]. split; [|split].
  - rewrite (wi_stores _ _ _ _ _ _ Hinv). lia.
  - intros c' Hc'. apply (tod_absent _ _ _ _ _ Hdisk). lia.
  - split; [done|]. split; [apply Hhs|]. done.
Qed.

Lemma track_message_location_witness :
  0 < 1000 /\ hsize 1000 <= MaxInt64 /\
  (forall c : nat, (∅ : gmap string (list byte)) !! chunk_path "" "id" c = None) /\
  hsize 1000 + total [testData; take 4 testData] <= MaxInt64 /\
  (Z.of_nat (length [testData; take 4 testData]) + 2) * 1000 < two64 /\
  [testData; take 4 testData] !! 1%nat = Some (take 4 testData) /\
  track_headers_in_file 1000 [testData; take 4 testData] /\
  exists d t s r r',
    Tracks.writer_loop 1000 ∅ (Tracks.NewTrack "" "id") [testData; take 4 testData]
      = Ret (d, t) /\
    Z.of_nat (length (Tracks.stores t))
      = (Z.of_nat (length [testData; take 4 testData]) - 1) / 1000 + 1 /\
    (forall c : nat,
       (Z.of_nat (length [testData; take 4 testData]) - 1) / 1000 + 1 <= Z.of_nat c ->
       d !! chunk_path "" "id" c = None) /\
    Open d "" (Tracks.storeId "id" (Z.of_nat 1 / 1000)) = Ret (d, s) /\
    Capacity s = 1000 /\
    Chunk.ReaderAt d s (Z.of_nat 1 mod 1000) = Ret (Some r, None) /\
    Chunk.SizeOf d s (Z.of_nat 1 mod 1000)
      = Ret (Z.of_nat (length (take 4 testData)), None) /\
    File_Read d r (Z.of_nat (length (take 4 testData)))
      = (take 4 testData, None, r').
Proof.
  split; [lia|]. split; [vm_compute; discriminate|].
  split; [intros c; apply lookup_empty|]. split; [vm_compute; discriminate|].
  split; [vm_compute; reflexivity|]. split; [reflexivity|].
  split; [right; intros k m Hk _; apply list_elem_of_lookup_2 in Hk; simpl in Hk;
    repeat (apply elem_of_cons in Hk as [->|Hk]); [vm_compute; discriminate..|];
    now apply elem_of_nil in Hk|].
  apply (track_message_location 1000 "" "id" ∅ [testData; take 4 testData] 1
           (take 4 testData)).
  - lia.
  - vm_compute; discriminate.
  - intros c. apply lookup_empty.
  - vm_compute; discriminate.
  - vm_compute; reflexivity.
  - reflexivity.
  - right; intros k m Hk _; apply list_elem_of_lookup_2 in Hk; simpl in Hk;
    repeat (apply elem_of_cons in Hk as [->|Hk]); [vm_compute; discriminate..|];
    now apply elem_of_nil in Hk.
Defined.

(** ** The track of the earlier draft *)

(** X17. In the earlier draft a track reads back what it took, across
    the chunks. The writer of a new track takes [msgs], whatever their
    number, on a disk without chunk files of its name; a reader from
    offset 0 of the same track then returns them all in order, passing
    from a chunk that is full to the next one. (The header of every
    chunk file is accessed inside the file: it fits the page of a new
    file, or the first message of every chunk is not empty.) *)
Theorem earlier_track_read_written CS root id (d0 : gmap string (list byte))
    msgs buflen :
  0 < CS ->
  hsize CS <= MaxInt64 ->
  msgs <> [] ->
  hsize CS + total msgs <= MaxInt64 ->
  (Z.of_nat (length msgs) + 2) * CS < two64 ->
  (forall m, m ∈ msgs -> (length m <= buflen)%nat) ->
  (forall c : nat, d0 !! chunk_path root id c = None) ->
  track_headers_in_file CS msgs ->
  exists d t sr sr',
    Earlier.writer_loop CS d0 (Tracks.NewTrack root id) msgs = Ret (d, t) /\
    Z.of_nat (length (Tracks.stores t)) = (Z.of_nat (length msgs) - 1) / CS + 1 /\
    Tracks.ReaderAt CS d t 0 = Ret (Some sr, None) /\
    Earlier.read_n CS d t sr buflen (length msgs) = Ret (msgs, sr').
Proof.
  intros HCS HCSmax Hne Hfit Hord Hbuf Hnone Hin.
  destruct (earlier_loop_inv CS root id HCS HCSmax d0 (Tracks.NewTrack root id)
              [] msgs (earlier_new_track_inv CS root id d0))
    as (d & t & Hloop & Hinv & Halive); [simpl; lia| |].
  { now apply track_headers_heads. }
  fold (chunked CS msgs) in Hinv. set (chunks := chunked CS msgs) in *.
  assert (Hcat : concat chunks = msgs) by apply concat_chunked.
  pose proof (length_chunked CS msgs) as Hlc. fold chunks in Hlc.
  destruct Hinv as [Hid Hroot HmsgId Hlast Hop Hwc].
  assert (Hfitc : forall (c : nat) mc, chunks !! c = Some mc ->
            hsize CS + total mc <= MaxInt64).
  { intros c mc Hc. pose proof (total_chunk_le _ _ _ Hc). rewrite Hcat in *. lia. }
  assert (Hc0 : exists mc0, chunks !! 0%nat = Some mc0).
  { destruct chunks as [|mc0 ?]; [|eauto]. simpl in Hcat. congruence. }
  destruct Hc0 as [mc0 Hc0].
  assert (Hbufc : forall (c i : nat) mc m,
            chunks !! c = Some mc -> mc !! i = Some m -> (length m <= buflen)%nat).
  { intros c i mc m Hc Hm. apply Hbuf. rewrite <- Hcat.
    rewrite <- (take_drop_middle _ _ _ Hc), concat_app. cbn [concat].
    apply list_elem_of_lookup_2 in Hm.
    rewrite !elem_of_app. auto. }
  assert (Hordc : (Z.of_nat (length chunks) + 1) * CS < two64) by nia.
  destruct (ReaderAt_first CS root id d chunks t HCS Hwc Hfitc Hop mc0 Hc0)
    as (sr & Hra & Hat).
  destruct (wc_range _ _ Hwc 0%nat mc0 Hc0) as [H1 _].
  assert (Hsplit : chunks = mc0 :: drop 1 chunks).
  { rewrite <- (take_drop_middle _ _ _ Hc0) at 1. now rewrite take_0. }
  assert (Hall : mc0 ++ concat (drop 1 chunks) = msgs).
  { transitivity (concat (mc0 :: drop 1 chunks)); [reflexivity|].
    now rewrite <- Hsplit. }
  destruct (earlier_read_n_from CS root id d chunks t buflen HCS Hwc Hfitc
              Hordc Halive Hop Hbufc (length msgs) sr 0%nat 0%nat mc0 Hc0
              ltac:(lia) Hat)
    as (sr' & Hread).
  { rewrite drop_0. now rewrite Hall. }
  rewrite drop_0 in Hread. rewrite Hall in Hread.
  exists d, t, sr, sr'. split; [done|]. split; [|done].
  destruct Hop as [Hlen _]. rewrite Nat.sub_0_r in Hlen. rewrite Hlen.
  pose proof (next_ordinal_count CS chunks Hwc) as Hno.
  unfold next_ordinal in Hno. rewrite Hcat in Hno.
  destruct (last chunks) as [mc|] eqn:Hl.
  - rewrite last_lookup in Hl.
    destruct (wc_range _ _ Hwc _ _ Hl) as [Hm1 Hm2].
    rewrite <- Hno.
    replace ((Z.of_nat (length chunks) - 1) * CS + Z.of_nat (length mc) - 1)
      with ((Z.of_nat (length chunks) - 1) * CS + (Z.of_nat (length mc) - 1)) by lia.
    destruct (chunk_div_mod CS (Z.of_nat (length chunks) - 1)
                (Z.of_nat (length mc) - 1) HCS ltac:(lia)) as [-> _]. lia.
  - apply last_None in Hl. rewrite Hl in Hc0. done.
Qed.

Lemma earlier_track_read_written_witness :
  0 < 2 /\ hsize 2 <= MaxInt64 /\
  ordinal_msgs 5 <> [] /\
  hsize 2 + total (ordinal_msgs 5) <= MaxInt64 /\
  (Z.of_nat (length (ordinal_msgs 5)) + 2) * 2 < two64 /\
  (forall m, m ∈ ordinal_msgs 5 -> (length m <= 100)%nat) /\
  (forall c : nat, (∅ : gmap string (list byte)) !! chunk_path "" "id" c = None) /\
  track_headers_in_file 2 (ordinal_msgs 5) /\
  exists d t sr sr',
    Earlier.writer_loop 2 ∅ (Tracks.NewTrack "" "id") (ordinal_msgs 5) = Ret (d, t) /\
    Z.of_nat (length (Tracks.stores t))
      = (Z.of_nat (length (ordinal_msgs 5)) - 1) / 2 + 1 /\
    Tracks.ReaderAt 2 d t 0 = Ret (Some sr, None) /\
    Earlier.read_n 2 d t sr 100 (length (ordinal_msgs 5))
      = Ret (ordinal_msgs 5, sr').
Proof.
  assert (Hbuf : forall m, m ∈ ordinal_msgs 5 -> (length m <= 100)%nat).
  { intros m Hm. change (ordinal_msgs 5) with
      [ordinal_msg 0; ordinal_msg 1; ordinal_msg 2; ordinal_msg 3; ordinal_msg 4] in Hm.
    repeat (apply elem_of_cons in Hm as [->|Hm]); [vm_compute; lia..|].
    now apply elem_of_nil in Hm. }
  split; [lia|]. split; [vm_compute; discriminate|].
  split; [discriminate|]. split; [vm_compute; discriminate|].
  split; [vm_compute; reflexivity|]. split; [exact Hbuf|].
  split; [intros c; apply lookup_empty|].
  split; [left; vm_compute; discriminate|].
  apply (earlier_track_read_written 2 "" "id" ∅ (ordinal_msgs 5) 100).
  - lia.
  - vm_compute; discriminate.
  - discriminate.
  - vm_compute; discriminate.
  - vm_compute; reflexivity.
  - exact Hbuf.
  - intros c. apply lookup_empty.
  - left; vm_compute; discriminate.
Defined.

(** X18. One [Read] of the earlier draft. Any message [k] that the
    writer of a new track took, on a disk without chunk files of its
    name, can be read through the track: [Track.ReaderAt(k)] returns a
    reader at [k], and [Read] returns the length of the message, with
    the message at the start of the buffer, and moves the reader to [k
    + 1]. There is no test of the buffer: when the capacity of the
    buffer is less than the length of the message, the slice
    expression of [Read] panics. (The header of every chunk file is
    accessed inside the file: it fits the page of a new file, or the
    first message of every chunk is not empty.) *)
Theorem earlier_read_one_message CS root id (d0 : gmap string (list byte)) msgs
    (k : nat) m p :
  0 < CS ->
  hsize CS <= MaxInt64 ->
  hsize CS + total msgs <= MaxInt64 ->
  (Z.of_nat (length msgs) + 2) * CS < two64 ->
  msgs !! k = Some m ->
  (forall c : nat, d0 !! chunk_path root id c = None) ->
  track_headers_in_file CS msgs ->
  exists d t sr,
    Earlier.writer_loop CS d0 (Tracks.NewTrack root id) msgs = Ret (d, t) /\
    Tracks.ReaderAt CS d t (Z.of_nat k) = Ret (Some sr, None) /\
    Tracks.Offset sr = Z.of_nat k /\
    ((length p < length m)%nat -> Earlier.Read CS d t sr p = Panic) /\
    ((length m <= length p)%nat ->
     exists sr',
       Earlier.Read CS d t sr p
         = Ret (Tracks.Returned (Z.of_nat (length m)) None sr'
                  (m ++ drop (length m) p)) /\
       Tracks.Offset sr' = Z.of_nat k + 1).
Proof.
  intros HCS HCSmax Hfit Hord Hk Hnone Hin.
  destruct (earlier_loop_inv CS root id HCS HCSmax d0 (Tracks.NewTrack root id)
              [] msgs (earlier_new_track_inv CS root id d0))
    as (d & t & Hloop & Hinv & Halive); [simpl; lia| |].
  { now apply track_headers_heads. }
  fold (chunked CS msgs) in Hinv. set (chunks := chunked CS msgs) in *.
  assert (Hcat : concat chunks = msgs) by apply concat_chunked.
  pose proof (length_chunked CS msgs) as Hlc. fold chunks in Hlc.
  destruct Hinv as [Hid Hroot HmsgId Hlast Hop Hwc].
  assert (Hfitc : forall (c : nat) mc, chunks !! c = Some mc ->
            hsize CS + total mc <= MaxInt64).
  { intros c mc Hc. pose proof (total_chunk_le _ _ _ Hc). rewrite Hcat in *. lia. }
  assert (Hordc : (Z.of_nat (length chunks) + 1) * CS < two64) by nia.
  rewrite <- Hcat in Hk.
  destruct (lookup_concat_chunks CS chunks k m HCS Hwc Hk) as (mc & Hc & Hm).
  set (c := Z.to_nat (Z.of_nat k / CS)) in *.
  set (i := Z.to_nat (Z.of_nat k mod CS)) in *.
  pose proof (Z.mod_pos_bound (Z.of_nat k) CS HCS) as Hmb.
  assert (Hcz : Z.of_nat k / CS = Z.of_nat c).
  { unfold c. rewrite Z2Nat.id; [done|]. apply Z.div_pos; lia. }
  assert (Hiz : Z.of_nat k mod CS = Z.of_nat i) by (unfold i; lia).
  assert (Hki : Z.of_nat k = Z.of_nat c * CS + Z.of_nat i).
  { pose proof (Z.div_mod (Z.of_nat k) CS ltac:(lia)). lia. }
  destruct (opened_store CS root id d chunks t Hop c mc Hc) as (s & f & Hs & Hh).
  destruct (wc_range _ _ Hwc c mc Hc) as [H1 H2].
  assert (HC0 : 0 <= CS) by lia.
  set (sr := Tracks.mkStorageReader (Z.of_nat k)
               (Some (sub_at root (Tracks.storeId id (Z.of_nat c)) CS mc i))).
  assert (Hat : reader_at CS root id sr c i mc) by (split; done).
  pose proof (earlier_Read_holds CS root id d chunks t HCS Hwc Hfitc Hordc Halive
                Hop sr p c i mc m Hc Hm Hat) as Hrd.
  exists d, t, sr. split; [done|]. split; [|split; [done|split]].
  - apply Track_ReaderAt_holds with (s := s) (f := f) (m := m); try done; try lia.
    now apply Hfitc with (c := c).
  - intros Hshort. rewrite Hrd. now rewrite decide_True by lia.
  - intros Hlong. rewrite Hrd. rewrite decide_False by lia.
    destruct (earlier_handleRollover_ok CS root id d chunks t HCS Hwc Hfitc Hop
                (Z.of_nat c * CS + Z.of_nat i + 1)
                (Some (sub_at root (Tracks.storeId id (Z.of_nat c)) CS mc (S i)))
                ltac:(lia)) as (sr' & Hro & Hoff).
    rewrite Hro. cbn [mbind outcome_bind bind].
    exists sr'. split; [done|]. lia.
Qed.

Lemma earlier_read_one_message_witness :
  0 < 2 /\ hsize 2 <= MaxInt64 /\
  hsize 2 + total (ordinal_msgs 5) <= MaxInt64 /\
  (Z.of_nat (length (ordinal_msgs 5)) + 2) * 2 < two64 /\
  ordinal_msgs 5 !! 1%nat = Some (ordinal_msg 1) /\
  (forall c : nat, (∅ : gmap string (list byte)) !! chunk_path "" "id" c = None) /\
  track_headers_in_file 2 (ordinal_msgs 5) /\
  exists d t sr,
    Earlier.writer_loop 2 ∅ (Tracks.NewTrack "" "id") (ordinal_msgs 5) = Ret (d, t) /\
    Tracks.ReaderAt 2 d t (Z.of_nat 1) = Ret (Some sr, None) /\
    Tracks.Offset sr = Z.of_nat 1 /\
    ((length (@nil byte) < length (ordinal_msg 1))%nat ->
     Earlier.Read 2 d t sr [] = Panic) /\
    ((length (ordinal_msg 1) <= length (@nil byte))%nat ->
     exists sr',
       Earlier.Read 2 d t sr []
         = Ret (Tracks.Returned (Z.of_nat (length (ordinal_msg 1))) None sr'
                  (ordinal_msg 1 ++ drop (length (ordinal_msg 1)) [])) /\
       Tracks.Offset sr' = Z.of_nat 1 + 1).
Proof.
  split; [lia|]. split; [vm_compute; discriminate|].
  split; [vm_compute; discriminate|]. split; [vm_compute; reflexivity|].
  split; [reflexivity|].
  split; [intros c; apply lookup_empty|].
  split; [left; vm_compute; discriminate|].
  apply (earlier_read_one_message 2 "" "id" ∅ (ordinal_msgs 5) 1 (ordinal_msg 1) []).
  - lia.
  - vm_compute; discriminate.
  - vm_compute; discriminate.
  - vm_compute; reflexivity.
  - reflexivity.
  - intros c. apply lookup_empty.
  - left; vm_compute; discriminate.
Defined.

(** ** More on the chunk and on the latest draft *)

(** X19. The chunks the writer has left. When the writer of a new
    track starts a chunk it turns the chunk before it read-only, which
    leaves that chunk with an empty [index]. For every message [k] of
    a chunk before the one being written, [Track.ReaderAt(k)] panics,
    and so does [Read] on a reader that stands at [k] with a sub-
    reader. (The header of every chunk file is accessed inside the
    file: it fits the page of a new file, or the first message of
    every chunk is not empty.) *)
Theorem track_left_chunks_unreadable CS root id (d0 : gmap string (list byte)) msgs
    (k : nat) :
  0 < CS ->
  hsize CS <= MaxInt64 ->
  (forall c : nat, d0 !! chunk_path root id c = None) ->
  (Z.of_nat (length msgs) + 2) * CS < two64 ->
  (1 <= length msgs)%nat ->
  Z.of_nat k / CS < (Z.of_nat (length msgs) - 1) / CS ->
  track_headers_in_file CS msgs ->
  exists d t,
    Tracks.writer_loop CS d0 (Tracks.NewTrack root id) msgs = Ret (d, t) /\
    Tracks.alive t = true /\
    Tracks.ReaderAt CS d t (Z.of_nat k) = Panic /\
    forall sub p,
      Tracks.Read CS d t (Tracks.mkStorageReader (Z.of_nat k) (Some sub)) p = Panic.
Proof.
  intros HCS HCSmax Hnone Hord Hn1 Hk Hin.
  destruct (new_track_written CS root id d0 msgs HCS HCSmax Hnone Hord Hin)
    as (d & t & chunks & Hloop & Hinv & Hcat & Halive & _).
  assert (Hne : chunks <> []).
  { intros ->. simpl in Hcat. subst msgs. simpl in Hn1. lia. }
  pose proof (last_chunk_index CS d t root id chunks HCS Hinv Hne) as Hidx.
  rewrite Hcat in Hidx. rewrite Hidx in Hk.
  set (c := Z.to_nat (Z.of_nat k / CS)) in *.
  assert (Hcz : Z.of_nat k / CS = Z.of_nat c).
  { unfold c. rewrite Z2Nat.id; [done|]. apply Z.div_pos; lia. }
  pose proof (Z.mod_pos_bound (Z.of_nat k) CS HCS) as Hmb.
  destruct (lookup_lt_is_Some_2 (Tracks.stores t) c) as [s Hs].
  { rewrite (wi_stores _ _ _ _ _ _ Hinv). lia. }
  destruct (wi_old _ _ _ _ _ _ Hinv c s Hs ltac:(lia))
    as (d1 & s0 & -> & Hsz & Hcap & Hpath).
  destruct (lookup_lt_is_Some_2 chunks c ltac:(lia)) as [mc Hmc].
  destruct (tod_chunk _ _ _ _ _ (wi_disk _ _ _ _ _ _ Hinv) c mc Hmc)
    as (f & sc & Hh & _).
  assert (Hfile : is_Some (d !! path_of s0)).
  { rewrite Hpath. unfold chunk_path. rewrite (ch_disk _ _ _ _ _ _ _ Hh). eauto. }
  exists d, t. split; [done|]. split; [done|]. split.
  - apply Track_ReaderAt_readonly with (d0 := d1) (s := s0); try done; lia.
  - intros sub p.
    apply Read_readonly with (d0 := d1) (s := s0) (sub := sub);
      cbn [Tracks.Offset Tracks.currentSub]; try done; lia.
Qed.

Lemma track_left_chunks_unreadable_witness :
  0 < 2 /\ hsize 2 <= MaxInt64 /\
  (forall c : nat, (∅ : gmap string (list byte)) !! chunk_path "" "id" c = None) /\
  (Z.of_nat (length (ordinal_msgs 5)) + 2) * 2 < two64 /\
  (1 <= length (ordinal_msgs 5))%nat /\
  Z.of_nat 3 / 2 < (Z.of_nat (length (ordinal_msgs 5)) - 1) / 2 /\
  track_headers_in_file 2 (ordinal_msgs 5) /\
  exists d t,
    Tracks.writer_loop 2 ∅ (Tracks.NewTrack "" "id") (ordinal_msgs 5) = Ret (d, t) /\
    Tracks.alive t = true /\
    Tracks.ReaderAt 2 d t (Z.of_nat 3) = Panic /\
    forall sub p,
      Tracks.Read 2 d t (Tracks.mkStorageReader (Z.of_nat 3) (Some sub)) p = Panic.
Proof.
  split; [lia|]. split; [vm_compute; discriminate|].
  split; [intros c; apply lookup_empty|]. split; [vm_compute; reflexivity|].
  split; [vm_compute; lia|]. split; [vm_compute; reflexivity|].
  split; [left; vm_compute; discriminate|].
  apply (track_left_chunks_unreadable 2 "" "id" ∅ (ordinal_msgs 5) 3).
  - lia.
  - vm_compute; discriminate.
  - intros c. apply lookup_empty.
  - vm_compute; reflexivity.
  - vm_compute; lia.
  - vm_compute; reflexivity.
  - left; vm_compute; discriminate.
Defined.

(** X20. The bounds of [ReaderAt] and [SizeOf]. On a chunk that has
    taken [k] messages, an index below [k] gets a reader and a size,
    and an index at or above [k] gets the "exceeds available size"
    error from both, with no reader and size 0. The "out of bounds"
    error of the two functions is never returned: the size does not
    pass the capacity. (The header is accessed inside the file: the
    file holds it, or the first message is not empty.) *)
Theorem chunk_read_bounds (d : gmap string (list byte)) root id C msgs i :
  0 <= C ->
  Z.of_nat (length msgs) <= C ->
  hsize C + total msgs <= MaxInt64 ->
  0 <= i ->
  header_in_file (opened_length d (fname id root)) C msgs ->
  exists d0 s0 d' s',
    NewFileStorage d root id C = Ret (d0, s0) /\
    write_all d0 s0 0 msgs = Ret (d', s', None) /\
    (i < Z.of_nat (length msgs) ->
     exists r n,
       Chunk.ReaderAt d' s' i = Ret (Some r, None) /\
       Chunk.SizeOf d' s' i = Ret (n, None)) /\
    (Z.of_nat (length msgs) <= i ->
     Chunk.ReaderAt d' s' i
       = Ret (None, Some (ErrExceedsSize i (Z.of_nat (length msgs)))) /\
     Chunk.SizeOf d' s' i
       = Ret (0, Some (ErrExceedsSize i (Z.of_nat (length msgs))))).
Proof.
  intros HC0 Hlen Hfit Hi Hin.
  assert (HCmax : hsize C <= MaxInt64) by (pose proof (total_nonneg msgs); lia).
  destruct (create_write_all_holds root id C HC0 HCmax d msgs Hlen
              (header_in_file_first C _ msgs Hin))
    as (d0 & s0 & d' & s' & f' & Hn & Hw & [Hh _] & _ & _).
  exists d0, s0, d', s'. split; [done|]. split; [done|]. split.
  - intros Hlt.
    destruct (lookup_lt_is_Some_2 msgs (Z.to_nat i) ltac:(lia)) as [m Hm].
    destruct (holds_readable d' s' root id C msgs f' HC0 Hh Hlen Hfit _ _ Hm)
      as (r & r' & Hra & Hsz & _).
    rewrite Z2Nat.id in Hra, Hsz by lia. eauto.
  - intros Hge. unfold Chunk.ReaderAt, Chunk.SizeOf.
    rewrite (ch_size _ _ _ _ _ _ _ Hh). now rewrite !decide_True by lia.
Qed.

Lemma chunk_read_bounds_witness :
  0 <= 10 /\
  Z.of_nat (length [testData]) <= 10 /\
  hsize 10 + total [testData] <= MaxInt64 /\
  0 <= 1 /\
  header_in_file (opened_length ∅ (fname "id" "")) 10 [testData] /\
  exists d0 s0 d' s',
    NewFileStorage ∅ "" "id" 10 = Ret (d0, s0) /\
    write_all d0 s0 0 [testData] = Ret (d', s', None) /\
    (1 < Z.of_nat (length [testData]) ->
     exists r n,
       Chunk.ReaderAt d' s' 1 = Ret (Some r, None) /\
       Chunk.SizeOf d' s' 1 = Ret (n, None)) /\
    (Z.of_nat (length [testData]) <= 1 ->
     Chunk.ReaderAt d' s' 1
       = Ret (None, Some (ErrExceedsSize 1 (Z.of_nat (length [testData])))) /\
     Chunk.SizeOf d' s' 1
       = Ret (0, Some (ErrExceedsSize 1 (Z.of_nat (length [testData]))))).
Proof.
  split; [lia|]. split; [vm_compute; discriminate|].
  split; [vm_compute; discriminate|]. split; [lia|].
  split; [left; vm_compute; discriminate|].
  apply (chunk_read_bounds ∅ "" "id" 10 [testData] 1).
  - lia.
  - vm_compute; discriminate.
  - vm_compute; discriminate.
  - lia.
  - left; vm_compute; discriminate.
Defined.

(** X21.  [Open] without a chunk to open.  [Open] panics when the file
    does not exist ([open] checks the error of [os.OpenFile]), and when
    the file is empty: [open] extends it to a page of zeros, the
    capacity read is 0, the loop stops at word 0 with size
    [uint64(0 - 2)], and [store.index[store.Size]] is out of range. *)
Theorem Open_without_chunk (d : gmap string (list byte)) root id :
  d !! fname id root = None \/ d !! fname id root = Some [] ->
  Open d root id = Panic.
Proof.
  intros [Hnone|Hempty]; unfold Open, open.
  - now rewrite Hnone.
  - rewrite Hempty. rewrite decide_True by done.
    cbn [mbind outcome_bind bind]. rewrite lookup_insert_eq.
    rewrite !load64_zeros. reflexivity.
Qed.

Lemma Open_without_chunk_witness :
  ((∅ : gmap string (list byte)) !! fname "id" "" = None \/
   (∅ : gmap string (list byte)) !! fname "id" "" = Some []) /\
  Open ∅ "" "id" = Panic.
Proof.
  split; [left; reflexivity|].
  apply (Open_without_chunk ∅ "" "id"). left. reflexivity.
Defined.

(** X22. [OpenTrack] stops at the first chunk number that has no file.
    On the disk a track left, with a file added under a chunk number
    past the next one, [OpenTrack] opens the chunks of the track and
    not the file after the gap: the track it returns has as many
    stores as the track that wrote, and a reader from offset 0 returns
    the messages and nothing of the added file. (The header of every
    chunk file is accessed inside the file: it fits the page of a new
    file, or the first message of every chunk is not empty.) *)
Theorem OpenTrack_stops_at_gap CS root id (d0 : gmap string (list byte)) msgs
    (c' : nat) junk buflen :
  0 < CS ->
  hsize CS <= MaxInt64 ->
  (forall c : nat, d0 !! chunk_path root id c = None) ->
  msgs <> [] ->
  hsize CS + total msgs <= MaxInt64 ->
  (Z.of_nat (length msgs) + 2) * CS < two64 ->
  (forall m, m ∈ msgs -> (length m <= buflen)%nat) ->
  (Z.of_nat (length msgs) - 1) / CS + 1 < Z.of_nat c' ->
  track_headers_in_file CS msgs ->
  exists d t t' sr sr',
    Tracks.writer_loop CS d0 (Tracks.NewTrack root id) msgs = Ret (d, t) /\
    Tracks.OpenTrack CS (<[chunk_path root id c' := junk]> d) root id
      = Ret (<[chunk_path root id c' := junk]> d, t') /\
    length (Tracks.stores t') = length (Tracks.stores t) /\
    Z.of_nat (length (Tracks.stores t')) = (Z.of_nat (length msgs) - 1) / CS + 1 /\
    Tracks.ReaderAt CS (<[chunk_path root id c' := junk]> d) t' 0
      = Ret (Some sr, None) /\
    read_n CS (<[chunk_path root id c' := junk]> d) t' sr buflen (length msgs)
      = Ret (msgs, sr').
Proof.
  intros HCS HCSmax Hnone Hne Hfit Hord Hbuf Hgap Hin.
  destruct (new_track_written CS root id d0 msgs HCS HCSmax Hnone Hord Hin)
    as (d & t & chunks & Hloop & Hinv & Hcat & _ & _).
  assert (Hnec : chunks <> []).
  { intros ->. simpl in Hcat. now subst msgs. }
  pose proof (last_chunk_index CS d t root id chunks HCS Hinv Hnec) as Hidx.
  rewrite Hcat in Hidx. rewrite Hidx in Hgap.
  pose proof (wi_chunked _ _ _ _ _ _ Hinv) as Hwc.
  pose proof (wi_disk _ _ _ _ _ _ Hinv) as Hdisk.
  set (d' := <[chunk_path root id c' := junk]> d).
  assert (Hsame : forall c : nat, c <> c' ->
            d' !! chunk_path root id c = d !! chunk_path root id c).
  { intros c Hc. unfold d'. apply lookup_insert_ne.
    intros Heq. apply (chunk_path_inj root id) in Heq. lia. }
  assert (Hchunk : forall (c : nat) mc, chunks !! c = Some mc ->
            exists f s,
              chunk_holds d' s root (Tracks.storeId id (Z.of_nat c)) CS mc f /\
              zeros_above f CS (Z.of_nat (length mc))).
  { intros c mc Hc. destruct (tod_chunk _ _ _ _ _ Hdisk c mc Hc) as (f & s & Hh & Hz).
    exists f, s. split; [|done]. eapply chunk_holds_frame; [done|].
    apply (Hsame c). apply lookup_lt_Some in Hc. lia. }
  assert (Hgapd : d' !! chunk_path root id (length chunks) = None).
  { rewrite Hsame by lia. apply (tod_absent _ _ _ _ _ Hdisk). lia. }
  assert (Hfitc : forall (c : nat) mc, chunks !! c = Some mc ->
            hsize CS + total mc <= MaxInt64).
  { intros c mc Hc. pose proof (total_chunk_le _ _ _ Hc). rewrite Hcat in *. lia. }
  destruct (OpenTrack_gap CS root id d' chunks HCS HCSmax Hchunk Hgapd Hwc Hfitc)
    as (t' & Hopen & Halive & Hop).
  assert (Hc0 : exists mc0, chunks !! 0%nat = Some mc0).
  { destruct chunks as [|mc0 ?]; [done|eauto]. }
  destruct Hc0 as [mc0 Hc0].
  assert (Hbufc : forall (c i : nat) mc m,
            chunks !! c = Some mc -> mc !! i = Some m -> (length m <= buflen)%nat).
  { intros c i mc m Hc Hm. apply Hbuf. rewrite <- Hcat.
    rewrite <- (take_drop_middle _ _ _ Hc), concat_app. cbn [concat].
    apply list_elem_of_lookup_2 in Hm.
    rewrite !elem_of_app. auto. }
  pose proof (length_concat_le CS chunks ltac:(lia)) as Hle.
  assert (Hordc : (Z.of_nat (length chunks) + 1) * CS < two64).
  { destruct (last_chunk_live _ _ _ _ _ _ Hinv Hnec)
      as (c & mc & _ & _ & Hlen & _ & _ & _ & H1 & _ & Hn).
    rewrite Hcat in Hn. rewrite Hlen. nia. }
  destruct (ReaderAt_first CS root id d' chunks t' HCS Hwc Hfitc Hop mc0 Hc0)
    as (sr & Hra & Hat).
  destruct (wc_range _ _ Hwc 0%nat mc0 Hc0) as [H1 _].
  assert (Hsplit : chunks = mc0 :: drop 1 chunks).
  { rewrite <- (take_drop_middle _ _ _ Hc0) at 1. now rewrite take_0. }
  assert (Hall : mc0 ++ concat (drop 1 chunks) = msgs).
  { transitivity (concat (mc0 :: drop 1 chunks)); [reflexivity|].
    now rewrite <- Hsplit. }
  destruct (read_n_from CS root id d' chunks t' buflen HCS Hwc Hfitc Hordc
              Halive Hop Hbufc (length msgs) sr 0%nat 0%nat mc0 Hc0 ltac:(lia) Hat)
    as (sr' & Hread).
  { rewrite drop_0. now rewrite Hall. }
  rewrite drop_0 in Hread. rewrite Hall in Hread.
  destruct Hop as [Hlen' _]. rewrite Nat.sub_0_r in Hlen'.
  exists d, t, t', sr, sr'. split; [done|]. split; [done|].
  split; [rewrite Hlen'; now rewrite (wi_stores _ _ _ _ _ _ Hinv)|].
  split; [rewrite Hlen'; lia|]. done.
Qed.

Lemma OpenTrack_stops_at_gap_witness :
  0 < 1000 /\ hsize 1000 <= MaxInt64 /\
  (forall c : nat, (∅ : gmap string (list byte)) !! chunk_path "" "id" c = None) /\
  [testData; take 4 testData] <> [] /\
  hsize 1000 + total [testData; take 4 testData] <= MaxInt64 /\
  (Z.of_nat (length [testData; take 4 testData]) + 2) * 1000 < two64 /\
  (forall m, m ∈ [testData; take 4 testData] -> (length m <= 16)%nat) /\
  (Z.of_nat (length [testData; take 4 testData]) - 1) / 1000 + 1 < Z.of_nat 2 /\
  track_headers_in_file 1000 [testData; take 4 testData] /\
  exists d t t' sr sr',
    Tracks.writer_loop 1000 ∅ (Tracks.NewTrack "" "id") [testData; take 4 testData]
      = Ret (d, t) /\
    Tracks.OpenTrack 1000 (<[chunk_path "" "id" 2 := testData]> d) "" "id"
      = Ret (<[chunk_path "" "id" 2 := testData]> d, t') /\
    length (Tracks.stores t') = length (Tracks.stores t) /\
    Z.of_nat (length (Tracks.stores t'))
      = (Z.of_nat (length [testData; take 4 testData]) - 1) / 1000 + 1 /\
    Tracks.ReaderAt 1000 (<[chunk_path "" "id" 2 := testData]> d) t' 0
      = Ret (Some sr, None) /\
    read_n 1000 (<[chunk_path "" "id" 2 := testData]> d) t' sr 16
        (length [testData; take 4 testData])
      = Ret ([testData; take 4 testData], sr').
Proof.
  assert (Hbuf : forall m, m ∈ [testData; take 4 testData] -> (length m <= 16)%nat).
  { intros m Hm. repeat (apply elem_of_cons in Hm as [->|Hm]); [simpl; lia..|].
    now apply elem_of_nil in Hm. }
  split; [lia|]. split; [vm_compute; discriminate|].
  split; [intros c; apply lookup_empty|]. split; [discriminate|].
  split; [vm_compute; discriminate|]. split; [vm_compute; reflexivity|].
  split; [exact Hbuf|]. split; [vm_compute; reflexivity|].
  split; [right; intros k m Hk _; apply list_elem_of_lookup_2 in Hk; simpl in Hk;
    repeat (apply elem_of_cons in Hk as [->|Hk]); [vm_compute; discriminate..|];
    now apply elem_of_nil in Hk|].
  apply (OpenTrack_stops_at_gap 1000 "" "id" ∅ [testData; take 4 testData] 2
           testData 16).
  - lia.
  - vm_compute; discriminate.
  - intros c. apply lookup_empty.
  - discriminate.
  - vm_compute; discriminate.
  - vm_compute; reflexivity.
  - exact Hbuf.
  - vm_compute; reflexivity.
  - right; intros k m Hk _; apply list_elem_of_lookup_2 in Hk; simpl in Hk;
    repeat (apply elem_of_cons in Hk as [->|Hk]); [vm_compute; discriminate..|];
    now apply elem_of_nil in Hk.
Defined.
